(** * Poker Prestige server: engine, serializer and table state machine

    A shallow embedding of the TypeScript server core
    (engine/HandEvaluator.ts, engine/PotManager.ts, rooms/StateSerializer.ts,
    rooms/TableInstance.ts) together with the properties stated about it.

    Conventions of the embedding:
    - a JavaScript [number] holding a chip amount or a score is a [Z]
      (the code only adds, subtracts, compares and integer-divides them);
      array indices are [nat];
    - a JavaScript [Map] is a list in insertion order: [Map.set] on a
      present key overwrites in place, on a fresh key appends;
    - a thrown exception is the outcome [None] of an [option];
    - timers ([setTimeout]) and [console.log] are not part of the model;
      the callbacks [onError], [onPlayerAction] and [onStateChange] are
      recorded as a list of emitted events. *)

From Stdlib Require Import String.
From Stdlib Require Import List ZArith Lia Bool Arith PeanoNat Permutation Sorted.
Import ListNotations.

Local Open Scope Z_scope.

(** ** Generic JavaScript helpers *)

(** [Array.prototype.sort] with a comparator is stable; [le x y] stands for
    [cmp(x, y) <= 0]. *)
Fixpoint insertBy {A : Type} (le : A -> A -> bool) (x : A) (l : list A) : list A :=
  match l with
  | [] => [x]
  | y :: t => if le x y then x :: y :: t else y :: insertBy le x t
  end.

Definition stableSort {A : Type} (le : A -> A -> bool) (l : list A) : list A :=
  fold_right (insertBy le) [] l.

(** [Map.get], [Map.set] and [Map.has] on an insertion-ordered map. *)
Fixpoint mapGet {K V : Type} (eqb : K -> K -> bool) (k : K) (m : list (K * V)) : option V :=
  match m with
  | [] => None
  | (k', v) :: rest => if eqb k k' then Some v else mapGet eqb k rest
  end.

Fixpoint mapSet {K V : Type} (eqb : K -> K -> bool) (k : K) (v : V) (m : list (K * V))
  : list (K * V) :=
  match m with
  | [] => [(k, v)]
  | (k', v') :: rest =>
      if eqb k k' then (k', v) :: rest else (k', v') :: mapSet eqb k v rest
  end.

(** [arr.includes(x)] *)
Definition includes {A : Type} (eqb : A -> A -> bool) (x : A) (arr : list A) : bool :=
  existsb (eqb x) arr.

(** In-place mutation of the object stored at index [i] of an array. *)
Fixpoint updateAt {A : Type} (i : nat) (f : A -> A) (l : list A) : list A :=
  match l, i with
  | [], _ => []
  | x :: t, O => f x :: t
  | x :: t, S j => x :: updateAt j f t
  end.

(** Index of the first element satisfying [p]. *)
Fixpoint findIndex {A : Type} (p : A -> bool) (l : list A) : option nat :=
  match l with
  | [] => None
  | x :: t => if p x then Some O else option_map S (findIndex p t)
  end.

Fixpoint sumZ (l : list Z) : Z :=
  match l with
  | [] => 0
  | x :: rest => x + sumZ rest
  end.

(** The contributions counted up to level [L] each, and the order the
    contributions are sorted in. *)
Definition capSum (L : Z) (l : list (string * Z)) : Z :=
  sumZ (map (fun e => Z.min (snd e) L) l).

Definition byAmount (a b : string * Z) : Prop := snd a <= snd b.

(** ** Cards (types/game.types) *)

Module Card.

Inductive Rank : Type :=
| R2 | R3 | R4 | R5 | R6 | R7 | R8 | R9 | RT | RJ | RQ | RK | RA.

(** The suits 'H', 'D', 'C', 'S'. *)
Inductive Suit : Type := SH | SD | SC | SS.

Record t : Type := mk { rank : Rank; suit : Suit }.

Definition Rank_eqb (a b : Rank) : bool :=
  match a, b with
  | R2, R2 | R3, R3 | R4, R4 | R5, R5 | R6, R6 | R7, R7 | R8, R8
  | R9, R9 | RT, RT | RJ, RJ | RQ, RQ | RK, RK | RA, RA => true
  | _, _ => false
  end.

Definition Suit_eqb (a b : Suit) : bool :=
  match a, b with
  | SH, SH | SD, SD | SC, SC | SS, SS => true
  | _, _ => false
  end.

End Card.

(** ** engine/HandEvaluator.ts *)

Module HandEvaluator.
Import Card.

Inductive HandRank : Type :=
| HIGH_CARD | PAIR | TWO_PAIR | THREE_OF_A_KIND | STRAIGHT | FLUSH
| FULL_HOUSE | FOUR_OF_A_KIND | STRAIGHT_FLUSH | ROYAL_FLUSH.

(** The numeric value of each enum member. *)
Definition HandRank_value (r : HandRank) : Z :=
  match r with
  | HIGH_CARD => 0 | PAIR => 1 | TWO_PAIR => 2 | THREE_OF_A_KIND => 3
  | STRAIGHT => 4 | FLUSH => 5 | FULL_HOUSE => 6 | FOUR_OF_A_KIND => 7
  | STRAIGHT_FLUSH => 8 | ROYAL_FLUSH => 9
  end.

Record HandResult : Type := mkResult {
  rank : HandRank;
  description : string;
  value : Z;
  bestCards : list Card.t
}.

Definition RANK_VALUES (r : Rank) : Z :=
  match r with
  | R2 => 2 | R3 => 3 | R4 => 4 | R5 => 5 | R6 => 6 | R7 => 7 | R8 => 8
  | R9 => 9 | RT => 10 | RJ => 11 | RQ => 12 | RK => 13 | RA => 14
  end.

(** [countOccurrences]: the object built by [reduce]; a key is created at
    its first occurrence and incremented afterwards. *)
Fixpoint bump {K : Type} (eqb : K -> K -> bool) (val : K) (acc : list (K * Z))
  : list (K * Z) :=
  match acc with
  | [] => [(val, 1)]
  | (k, n) :: rest =>
      if eqb val k then (k, n + 1) :: rest else (k, n) :: bump eqb val rest
  end.

Definition countOccurrences {K : Type} (eqb : K -> K -> bool) (arr : list K)
  : list (K * Z) :=
  fold_left (fun acc val => bump eqb val acc) arr [].

(** Property order of a JavaScript object: the integer-like keys
    ('2' .. '9') come first in ascending numeric order, the other keys
    ('T', 'J', 'Q', 'K', 'A') follow in creation order. *)
Definition isIndexKey (r : Rank) : bool :=
  match r with
  | R2 | R3 | R4 | R5 | R6 | R7 | R8 | R9 => true
  | _ => false
  end.

Definition rankEntries (o : list (Rank * Z)) : list (Rank * Z) :=
  flat_map
    (fun r => match mapGet Rank_eqb r o with
              | Some n => [(r, n)]
              | None => []
              end)
    [R2; R3; R4; R5; R6; R7; R8; R9]
  ++ filter (fun e => negb (isIndexKey (fst e))) o.

Definition getHighCard (ranks : list Rank) : Z :=
  fold_right Z.max 0 (map RANK_VALUES ranks).

Fixpoint consecutive (values : list Z) : bool :=
  match values with
  | a :: ((b :: _) as rest) => if b =? a + 1 then consecutive rest else false
  | _ => true
  end.

Definition checkStraight (ranks : list Rank) : bool :=
  let values := stableSort Z.leb (map RANK_VALUES ranks) in
  let isStraight := consecutive values in
  if negb isStraight
     && includes Rank_eqb RA ranks
     && includes Rank_eqb R2 ranks
     && includes Rank_eqb R3 ranks
     && includes Rank_eqb R4 ranks
     && includes Rank_eqb R5 ranks
  then true
  else isStraight.

(** [getCombinations]: the recursive [combine(start, chosen)] enumerates
    the index sets in lexicographic order. *)
Fixpoint getCombinations {A : Type} (arr : list A) (size : nat) : list (list A) :=
  match size with
  | O => [[]]
  | S k =>
      match arr with
      | [] => []
      | x :: rest => map (cons x) (getCombinations rest k) ++ getCombinations rest size
      end
  end.

(** [sortedCounts[i][1]] and [sortedCounts[i][0]].  [evaluate5Cards] is
    private and only receives 5-card combinations, for which entry 0
    exists, and entry 1 exists whenever entry 0 counts 2 or 3; the
    defaults below are never reached there. *)
Definition countAt (i : nat) (sortedCounts : list (Rank * Z)) : Z :=
  snd (nth i sortedCounts (R2, 0)).

Definition keyAt (i : nat) (sortedCounts : list (Rank * Z)) : Rank :=
  fst (nth i sortedCounts (R2, 0)).

Definition evaluate5Cards (cards : list Card.t) : HandResult :=
  let ranks := map Card.rank cards in
  let suits := map Card.suit cards in
  let rankCounts := countOccurrences Rank_eqb ranks in
  let suitCounts := countOccurrences Suit_eqb suits in
  let isFlush := existsb (fun e => snd e =? 5) suitCounts in
  let isStraight := checkStraight ranks in
  let sortedCounts :=
    stableSort (fun a b => snd b <=? snd a) (rankEntries rankCounts) in
  if isFlush && isStraight && includes Rank_eqb RA ranks && includes Rank_eqb RK ranks
  then mkResult ROYAL_FLUSH "Royal Flush" 10000000 cards
  else if isFlush && isStraight
  then mkResult STRAIGHT_FLUSH "Straight Flush" (9000000 + getHighCard ranks) cards
  else if countAt 0 sortedCounts =? 4
  then mkResult FOUR_OF_A_KIND "Four of a Kind"
         (8000000 + RANK_VALUES (keyAt 0 sortedCounts) * 1000) cards
  else if (countAt 0 sortedCounts =? 3) && (countAt 1 sortedCounts =? 2)
  then mkResult FULL_HOUSE "Full House"
         (7000000 + RANK_VALUES (keyAt 0 sortedCounts) * 1000
          + RANK_VALUES (keyAt 1 sortedCounts)) cards
  else if isFlush
  then mkResult FLUSH "Flush" (6000000 + getHighCard ranks) cards
  else if isStraight
  then mkResult STRAIGHT "Straight" (5000000 + getHighCard ranks) cards
  else if countAt 0 sortedCounts =? 3
  then mkResult THREE_OF_A_KIND "Three of a Kind"
         (4000000 + RANK_VALUES (keyAt 0 sortedCounts) * 1000) cards
  else if (countAt 0 sortedCounts =? 2) && (countAt 1 sortedCounts =? 2)
  then mkResult TWO_PAIR "Two Pair"
         (3000000 + RANK_VALUES (keyAt 0 sortedCounts) * 1000
          + RANK_VALUES (keyAt 1 sortedCounts)) cards
  else if countAt 0 sortedCounts =? 2
  then mkResult PAIR "Pair"
         (2000000 + RANK_VALUES (keyAt 0 sortedCounts) * 1000) cards
  else mkResult HIGH_CARD "High Card" (1000000 + getHighCard ranks) cards.

(** One iteration of the loop over the combinations. *)
Definition keepBest (bestHand : option HandResult) (combo : list Card.t)
  : option HandResult :=
  let hand := evaluate5Cards combo in
  match bestHand with
  | None => Some hand
  | Some best => if value hand >? value best then Some hand else Some best
  end.

(** [None] is the thrown error [Must provide exactly 7 cards]. *)
Definition evaluateHand (cards : list Card.t) : option HandResult :=
  if negb (Nat.eqb (length cards) 7) then None
  else fold_left keepBest (getCombinations cards 5) None.

End HandEvaluator.

(** ** engine/PotManager.ts *)

Module PotManager.

Record Pot : Type := mkPot {
  amount : Z;
  eligiblePlayers : list string;  (* playerIds who can win this pot *)
  isMainPot : bool
}.

(** The class has a single private field, the contribution map. *)
Record t : Type := mk { contributions : list (string * Z) }.

Definition empty : t := mk [].

(** [this.contributions.get(playerId) || 0] *)
Definition getOrZero (playerId : string) (m : list (string * Z)) : Z :=
  match mapGet String.eqb playerId m with
  | Some v => v
  | None => 0
  end.

Definition addContribution (playerId : string) (amt : Z) (pm : t) : t :=
  let current := getOrZero playerId (contributions pm) in
  mk (mapSet String.eqb playerId (current + amt) (contributions pm)).

(** The [forEach] over [remainingContributions] for one level. *)
Definition collectLevel (currentAmount levelDiff : Z)
           (remainingContributions : list (string * Z)) : list string * Z :=
  fold_left
    (fun acc entry =>
       if snd entry >=? currentAmount
       then (fst acc ++ [fst entry], snd acc + levelDiff)
       else acc)
    remainingContributions ([], 0).

(** One iteration of the loop over the sorted contributions; the loop
    state is [(pots, previousLevel)]. *)
Definition potStep (remainingContributions : list (string * Z))
           (st : list Pot * Z) (entry : string * Z) : list Pot * Z :=
  let (pots, previousLevel) := st in
  let currentAmount := snd entry in
  if currentAmount <=? previousLevel then st
  else
    let levelDiff := currentAmount - previousLevel in
    let (eligible, potAmount) :=
      collectLevel currentAmount levelDiff remainingContributions in
    let pots' :=
      if potAmount >? 0
      then pots ++ [mkPot potAmount eligible (Nat.eqb (length pots) 0)]
      else pots in
    (pots', currentAmount).

Definition calculatePots (pm : t) (activePlayers : list string) : list Pot :=
  if Nat.eqb (length (contributions pm)) 0 then []
  else
    let sorted :=
      stableSort (fun a b => snd a <=? snd b)
        (filter (fun e => includes String.eqb (fst e) activePlayers)
                (contributions pm)) in
    fst (fold_left (potStep sorted) sorted ([], 0)).

Definition getTotalPot (pm : t) : Z :=
  fold_left (fun total e => total + snd e) (contributions pm) 0.

Definition getPlayerContribution (playerId : string) (pm : t) : Z :=
  getOrZero playerId (contributions pm).

Definition reset (pm : t) : t := mk [].

(** [tiedWinners.forEach(([playerId], index) => ...)]: the winner at
    index 0 receives the remainder on top of the split amount. *)
Fixpoint payTied (splitAmount remainder : Z) (index : nat)
         (tiedWinners : list (string * Z)) (payouts : list (string * Z))
  : list (string * Z) :=
  match tiedWinners with
  | [] => payouts
  | (playerId, _) :: rest =>
      let current := getOrZero playerId payouts in
      let payout := splitAmount + (if Nat.eqb index 0 then remainder else 0) in
      payTied splitAmount remainder (S index) rest
              (mapSet String.eqb playerId (current + payout) payouts)
  end.

(** The winners a pot is split between: the eligible entries of the
    [winners] map, sorted by decreasing hand value, restricted to the top
    value. *)
Definition tiedWinnersOf (pot : Pot) (winners : list (string * Z))
  : list (string * Z) :=
  let eligibleWinners :=
    stableSort (fun a b => snd b <=? snd a)
      (filter (fun e => includes String.eqb (fst e) (eligiblePlayers pot)) winners) in
  match eligibleWinners with
  | [] => []
  | top :: _ => filter (fun e => snd e =? snd top) eligibleWinners
  end.

(** One iteration of [for (const pot of pots)].  [Math.floor(a / n)] is
    [Z.div] and [a % n] is [Z.rem]. *)
Definition distributeOne (winners : list (string * Z))
           (payouts : list (string * Z)) (pot : Pot) : list (string * Z) :=
  match tiedWinnersOf pot winners with
  | [] => payouts
  | tiedWinners =>
      let n := Z.of_nat (length tiedWinners) in
      let splitAmount := amount pot / n in
      let remainder := Z.rem (amount pot) n in
      payTied splitAmount remainder 0 tiedWinners payouts
  end.

Definition distributePots (pots : list Pot) (winners : list (string * Z))
  : list (string * Z) :=
  fold_left (distributeOne winners) pots [].

End PotManager.

(** ** rooms/StateSerializer.ts *)

Module GodPlayer.
Record t : Type := mk {
  steamId : string;
  position : Z;
  chips : Z;
  holeCards : list Card.t;       (* all players' cards *)
  currentBet : Z;
  hasFolded : bool;
  isAllIn : bool;
  hasActed : bool;
  handRank : option string
}.
End GodPlayer.

Module GodState.
Record t : Type := mk {
  tableId : string;
  sequenceId : Z;
  state : string;
  deck : list Card.t;            (* full deck, never exposed *)
  communityCards : list Card.t;
  pot : Z;
  currentBet : Z;
  dealerPosition : nat;
  currentPlayerIndex : nat;
  players : list GodPlayer.t
}.
End GodState.

Module ViewPlayer.
Record t : Type := mk {
  steamId : string;
  position : Z;
  chips : Z;
  holeCards : option (list Card.t);  (* null for opponents *)
  currentBet : Z;
  hasFolded : bool;
  isAllIn : bool;
  hasActed : bool;
  handRank : option string
}.
End ViewPlayer.

Module PlayerView.
Record t : Type := mk {
  tableId : string;
  sequenceId : Z;
  state : string;
  deck : option (list Card.t);       (* the field is always null *)
  communityCards : list Card.t;
  pot : Z;
  currentBet : Z;
  dealerPosition : nat;
  currentPlayerIndex : nat;
  players : list ViewPlayer.t
}.
End PlayerView.

Module StateSerializer.

Definition serializeForPlayer (godState : GodState.t) (targetSteamId : string)
  : PlayerView.t :=
  PlayerView.mk
    (GodState.tableId godState)
    (GodState.sequenceId godState)
    (GodState.state godState)
    None                                  (* deck: always null *)
    (GodState.communityCards godState)
    (GodState.pot godState)
    (GodState.currentBet godState)
    (GodState.dealerPosition godState)
    (GodState.currentPlayerIndex godState)
    (map
       (fun player =>
          ViewPlayer.mk
            (GodPlayer.steamId player)
            (GodPlayer.position player)
            (GodPlayer.chips player)
            (if String.eqb (GodPlayer.steamId player) targetSteamId
             then Some (GodPlayer.holeCards player)
             else None)
            (GodPlayer.currentBet player)
            (GodPlayer.hasFolded player)
            (GodPlayer.isAllIn player)
            (GodPlayer.hasActed player)
            (GodPlayer.handRank player))
       (GodState.players godState)).

Definition serializeForShowdown (godState : GodState.t)
           (activePlayers : list string) : PlayerView.t :=
  PlayerView.mk
    (GodState.tableId godState)
    (GodState.sequenceId godState)
    (GodState.state godState)
    None                                  (* deck: still null at showdown *)
    (GodState.communityCards godState)
    (GodState.pot godState)
    (GodState.currentBet godState)
    (GodState.dealerPosition godState)
    (GodState.currentPlayerIndex godState)
    (map
       (fun player =>
          ViewPlayer.mk
            (GodPlayer.steamId player)
            (GodPlayer.position player)
            (GodPlayer.chips player)
            (if includes String.eqb (GodPlayer.steamId player) activePlayers
             then Some (GodPlayer.holeCards player)
             else None)
            (GodPlayer.currentBet player)
            (GodPlayer.hasFolded player)
            (GodPlayer.isAllIn player)
            (GodPlayer.hasActed player)
            (GodPlayer.handRank player))
       (GodState.players godState)).

Definition validateSanitized (view : PlayerView.t) (viewerSteamId : string) : bool :=
  match PlayerView.deck view with
  | Some _ => false
  | None =>
      forallb
        (fun player =>
           negb (negb (String.eqb (ViewPlayer.steamId player) viewerSteamId)
                 && (match ViewPlayer.holeCards player with
                     | Some _ => true
                     | None => false
                     end)
                 && negb (ViewPlayer.hasFolded player)
                 && negb (String.eqb (PlayerView.state view) "SHOWDOWN_REVEAL")))
        (PlayerView.players view)
  end.

End StateSerializer.

(** ** engine/Deck.ts

    The deck is its array of remaining cards.  [reset] shuffles with
    [Math.random]; the model takes the shuffled array as an input of
    [startHand] instead. *)

Module Deck.

Definition t : Type := list Card.t.

Definition RANKS : list Card.Rank :=
  [Card.R2; Card.R3; Card.R4; Card.R5; Card.R6; Card.R7; Card.R8; Card.R9;
   Card.RT; Card.RJ; Card.RQ; Card.RK; Card.RA].

Definition SUITS : list Card.Suit := [Card.SH; Card.SD; Card.SC; Card.SS].

(** The 52 cards in the order [reset] creates them, before the shuffle. *)
Definition fresh : t :=
  flat_map (fun suit => map (fun rank => Card.mk rank suit) RANKS) SUITS.

(** [deal(count)]: [None] is the thrown error [Cannot deal]. *)
Definition deal (count : nat) (cards : t) : option (list Card.t * t) :=
  if Nat.ltb (length cards) count then None
  else Some (firstn count cards, skipn count cards).

(** [burn()]: [None] is the thrown error [Cannot burn card]. *)
Definition burn (cards : t) : option t :=
  match cards with
  | [] => None
  | _ :: rest => Some rest
  end.

Definition remainingCards (cards : t) : nat := length cards.

Definition peek (count : nat) (cards : t) : list Card.t := firstn count cards.

End Deck.

(** ** protocol/Events.ts *)

Inductive ActionType : Type := FOLD | CHECK | CALL | RAISE | ALL_IN.

(** ** rooms/TableInstance.ts *)

Module GameState.

Inductive t : Type :=
| LOBBY_INITIALIZING | WAITING_FOR_PLAYERS | GAME_STARTING | DEALING
| PRE_FLOP | FLOP | TURN | RIVER
| SHOWDOWN_REVEAL | PAYOUT_ANIMATION | SOCIAL_BANTER.

(** The string value of each enum member. *)
Definition toString (s : t) : string :=
  match s with
  | LOBBY_INITIALIZING => "LOBBY_INITIALIZING"
  | WAITING_FOR_PLAYERS => "WAITING_FOR_PLAYERS"
  | GAME_STARTING => "GAME_STARTING"
  | DEALING => "DEALING"
  | PRE_FLOP => "PRE_FLOP"
  | FLOP => "FLOP"
  | TURN => "TURN"
  | RIVER => "RIVER"
  | SHOWDOWN_REVEAL => "SHOWDOWN_REVEAL"
  | PAYOUT_ANIMATION => "PAYOUT_ANIMATION"
  | SOCIAL_BANTER => "SOCIAL_BANTER"
  end.

End GameState.

Module TablePlayer.

Record t : Type := mk {
  steamId : string;
  username : string;
  position : Z;             (* seat position *)
  chips : Z;
  holeCards : list Card.t;
  currentBet : Z;
  hasFolded : bool;
  isAllIn : bool;
  hasActed : bool;
  isReady : bool;
  handRank : option string;
  handValue : option Z
}.

(** Field assignments [player.f = v]. *)
Definition setChips (v : Z) (p : t) : t :=
  mk (steamId p) (username p) (position p) v (holeCards p) (currentBet p)
     (hasFolded p) (isAllIn p) (hasActed p) (isReady p) (handRank p) (handValue p).

Definition setHoleCards (v : list Card.t) (p : t) : t :=
  mk (steamId p) (username p) (position p) (chips p) v (currentBet p)
     (hasFolded p) (isAllIn p) (hasActed p) (isReady p) (handRank p) (handValue p).

Definition setCurrentBet (v : Z) (p : t) : t :=
  mk (steamId p) (username p) (position p) (chips p) (holeCards p) v
     (hasFolded p) (isAllIn p) (hasActed p) (isReady p) (handRank p) (handValue p).

Definition setHasFolded (v : bool) (p : t) : t :=
  mk (steamId p) (username p) (position p) (chips p) (holeCards p) (currentBet p)
     v (isAllIn p) (hasActed p) (isReady p) (handRank p) (handValue p).

Definition setIsAllIn (v : bool) (p : t) : t :=
  mk (steamId p) (username p) (position p) (chips p) (holeCards p) (currentBet p)
     (hasFolded p) v (hasActed p) (isReady p) (handRank p) (handValue p).

Definition setHasActed (v : bool) (p : t) : t :=
  mk (steamId p) (username p) (position p) (chips p) (holeCards p) (currentBet p)
     (hasFolded p) (isAllIn p) v (isReady p) (handRank p) (handValue p).

Definition setIsReady (v : bool) (p : t) : t :=
  mk (steamId p) (username p) (position p) (chips p) (holeCards p) (currentBet p)
     (hasFolded p) (isAllIn p) (hasActed p) v (handRank p) (handValue p).

Definition setHand (r : option string) (v : option Z) (p : t) : t :=
  mk (steamId p) (username p) (position p) (chips p) (holeCards p) (currentBet p)
     (hasFolded p) (isAllIn p) (hasActed p) (isReady p) r v.

(** [if (player.chips === 0) player.isAllIn = true] *)
Definition allInIfBroke (p : t) : t :=
  if chips p =? 0 then setIsAllIn true p else p.

End TablePlayer.

(** What the table hands to its three callbacks. *)
Inductive Event : Type :=
| OnError (steamId code message : string)
| OnPlayerAction (steamId : string) (action : ActionType) (amount : option Z)
| OnStateChange (state : PlayerView.t) (playerSteamIds : list string).

Module TableInstance.
Import TablePlayer.

(** The mutable fields of the class.  [players] is the
    [Map<number, TablePlayer>] keyed by seat position, kept in insertion
    order: [Array.from(this.players.values())] is this list, and an
    index into that array is an index into this list. *)
Record t : Type := mk {
  tableId : string;
  deck : Deck.t;
  potManager : PotManager.t;
  gameState : GameState.t;
  sequenceId : Z;
  players : list TablePlayer.t;
  communityCards : list Card.t;
  currentBet : Z;
  dealerPosition : nat;
  currentPlayerIndex : nat;
  smallBlind : Z;
  bigBlind : Z
}.

Definition maxPlayers : nat := 6.
Definition minPlayers : nat := 2.

Definition setDeck (v : Deck.t) (s : t) : t :=
  mk (tableId s) v (potManager s) (gameState s) (sequenceId s) (players s)
     (communityCards s) (currentBet s) (dealerPosition s) (currentPlayerIndex s)
     (smallBlind s) (bigBlind s).

Definition setPotManager (v : PotManager.t) (s : t) : t :=
  mk (tableId s) (deck s) v (gameState s) (sequenceId s) (players s)
     (communityCards s) (currentBet s) (dealerPosition s) (currentPlayerIndex s)
     (smallBlind s) (bigBlind s).

Definition setGameState (v : GameState.t) (s : t) : t :=
  mk (tableId s) (deck s) (potManager s) v (sequenceId s) (players s)
     (communityCards s) (currentBet s) (dealerPosition s) (currentPlayerIndex s)
     (smallBlind s) (bigBlind s).

Definition setSequenceId (v : Z) (s : t) : t :=
  mk (tableId s) (deck s) (potManager s) (gameState s) v (players s)
     (communityCards s) (currentBet s) (dealerPosition s) (currentPlayerIndex s)
     (smallBlind s) (bigBlind s).

Definition setPlayers (v : list TablePlayer.t) (s : t) : t :=
  mk (tableId s) (deck s) (potManager s) (gameState s) (sequenceId s) v
     (communityCards s) (currentBet s) (dealerPosition s) (currentPlayerIndex s)
     (smallBlind s) (bigBlind s).

Definition setCommunityCards (v : list Card.t) (s : t) : t :=
  mk (tableId s) (deck s) (potManager s) (gameState s) (sequenceId s) (players s)
     v (currentBet s) (dealerPosition s) (currentPlayerIndex s)
     (smallBlind s) (bigBlind s).

Definition setCurrentBet (v : Z) (s : t) : t :=
  mk (tableId s) (deck s) (potManager s) (gameState s) (sequenceId s) (players s)
     (communityCards s) v (dealerPosition s) (currentPlayerIndex s)
     (smallBlind s) (bigBlind s).

Definition setDealerPosition (v : nat) (s : t) : t :=
  mk (tableId s) (deck s) (potManager s) (gameState s) (sequenceId s) (players s)
     (communityCards s) (currentBet s) v (currentPlayerIndex s)
     (smallBlind s) (bigBlind s).

Definition setCurrentPlayerIndex (v : nat) (s : t) : t :=
  mk (tableId s) (deck s) (potManager s) (gameState s) (sequenceId s) (players s)
     (communityCards s) (currentBet s) (dealerPosition s) v
     (smallBlind s) (bigBlind s).

(** The constructor: a fresh table in the lobby. *)
Definition create (tableId : string) (smallBlind bigBlind : Z) : t :=
  mk tableId [] PotManager.empty GameState.LOBBY_INITIALIZING 0 [] [] 0 0%nat 0%nat
     smallBlind bigBlind.

(** In-place mutation of the player object at an index of the array. *)
Definition mutatePlayer (i : nat) (f : TablePlayer.t -> TablePlayer.t) (s : t) : t :=
  setPlayers (updateAt i f (players s)) s.

(** [this.players.forEach(p => ...)] *)
Definition forEachPlayer (f : TablePlayer.t -> TablePlayer.t) (s : t) : t :=
  setPlayers (map f (players s)) s.

Definition incrementSequenceId (s : t) : t := setSequenceId (sequenceId s + 1) s.

Definition transitionTo (newState : GameState.t) (s : t) : t :=
  incrementSequenceId (setGameState newState s).

Definition isInBettingRound (s : t) : bool :=
  match gameState s with
  | GameState.PRE_FLOP | GameState.FLOP | GameState.TURN | GameState.RIVER => true
  | _ => false
  end.

Definition isGameInProgress (s : t) : bool :=
  match gameState s with
  | GameState.LOBBY_INITIALIZING | GameState.WAITING_FOR_PLAYERS
  | GameState.SOCIAL_BANTER => false
  | _ => true
  end.

(** The filter of [getActivePlayers]: has chips or has a bet on the table. *)
Definition isActive (p : TablePlayer.t) : bool :=
  (chips p >? 0) || (TablePlayer.currentBet p >? 0).

Definition getActivePlayers (s : t) : list TablePlayer.t :=
  filter isActive (players s).

(** [this.getActivePlayers().filter(p => !p.hasFolded)] *)
Definition stillIn (p : TablePlayer.t) : bool := isActive p && negb (hasFolded p).

Definition getCurrentPlayer (s : t) : option TablePlayer.t :=
  nth_error (players s) (currentPlayerIndex s).

(** [getPlayerBySteamId] returns the first player object carrying the
    identifier; its index in the array identifies the object. *)
Definition indexBySteamId (id : string) (s : t) : option nat :=
  findIndex (fun p => String.eqb (steamId p) id) (players s).

Definition getPlayerBySteamId (id : string) (s : t) : option TablePlayer.t :=
  match indexBySteamId id s with
  | Some i => nth_error (players s) i
  | None => None
  end.

(** *** Views *)

Definition godPlayerOf (p : TablePlayer.t) : GodPlayer.t :=
  GodPlayer.mk (steamId p) (position p) (chips p) (holeCards p)
               (TablePlayer.currentBet p) (hasFolded p) (isAllIn p) (hasActed p)
               (handRank p).

Definition buildGodState (s : t) : GodState.t :=
  GodState.mk (tableId s) (sequenceId s) (GameState.toString (gameState s))
              (Deck.peek 52 (deck s)) (communityCards s)
              (PotManager.getTotalPot (potManager s)) (currentBet s)
              (dealerPosition s) (currentPlayerIndex s)
              (map godPlayerOf (players s)).

Definition getPlayerView (id : string) (s : t) : PlayerView.t :=
  StateSerializer.serializeForPlayer (buildGodState s) id.

Definition getShowdownView (s : t) : PlayerView.t :=
  StateSerializer.serializeForShowdown
    (buildGodState s) (map steamId (filter stillIn (players s))).

(** [broadcastState]: the calls made to [onStateChange]. *)
Definition broadcastState (s : t) : list Event :=
  let playerSteamIds := map steamId (players s) in
  match gameState s with
  | GameState.SHOWDOWN_REVEAL | GameState.PAYOUT_ANIMATION =>
      [OnStateChange (getShowdownView s) playerSteamIds]
  | _ =>
      map (fun id =>
             OnStateChange (StateSerializer.serializeForPlayer (buildGodState s) id) [id])
          playerSteamIds
  end.

(** *** Seating *)

Definition canJoin (g : GameState.t) : bool :=
  match g with
  | GameState.LOBBY_INITIALIZING | GameState.WAITING_FOR_PLAYERS
  | GameState.SOCIAL_BANTER => true
  | _ => false
  end.

(** [this.players.has(position)] *)
Definition seatTaken (pos : Z) (s : t) : bool :=
  existsb (fun p => position p =? pos) (players s).

Definition newPlayer (id name : string) (pos buyIn : Z) : TablePlayer.t :=
  TablePlayer.mk id name pos buyIn [] 0 false false false false None None.

Definition addPlayer (id name : string) (pos buyIn : Z) (s : t)
  : bool * t * list Event :=
  if Nat.leb maxPlayers (length (players s)) then (false, s, [])
  else if seatTaken pos s then (false, s, [])
  else if negb (canJoin (gameState s)) then (false, s, [])
  else
    let s1 := setPlayers (players s ++ [newPlayer id name pos buyIn]) s in
    let s2 :=
      match gameState s1 with
      | GameState.LOBBY_INITIALIZING => transitionTo GameState.WAITING_FOR_PLAYERS s1
      | _ => s1
      end in
    (true, s2, broadcastState s2).

(** *** Blinds *)

(** One forced wager: the player at index [i] of the array pays
    [min(blind, chips)]. *)
Definition afterBlind (blind : Z) (p : TablePlayer.t) : TablePlayer.t :=
  let amt := Z.min blind (chips p) in
  allInIfBroke (TablePlayer.setCurrentBet amt (setChips (chips p - amt) p)).

Definition postBlind (blind : Z) (i : nat) (s : t) : t :=
  match nth_error (players s) i with
  | None => s
  | Some player =>
      let amt := Z.min blind (chips player) in
      let s1 := mutatePlayer i (afterBlind blind) s in
      setPotManager (PotManager.addContribution (steamId player) amt (potManager s1)) s1
  end.

Definition sbIndexOf (s : t) : nat :=
  ((dealerPosition s + 1) mod length (players s))%nat.

Definition bbIndexOf (s : t) : nat :=
  ((dealerPosition s + 2) mod length (players s))%nat.

Definition postBlinds (s : t) : t :=
  if Nat.ltb (length (players s)) 2 then s
  else
    let sbIndex := sbIndexOf s in
    let bbIndex := bbIndexOf s in
    let s1 := postBlind (smallBlind s) sbIndex s in
    let s2 := postBlind (bigBlind s) bbIndex s1 in
    setCurrentPlayerIndex ((bbIndex + 1) mod length (players s))%nat s2.

Definition startBettingRound (s : t) : t * list Event :=
  let s1 := forEachPlayer (setHasActed false) s in
  (s1, broadcastState s1).

(** *** The five actions *)

(** [handleSingleWinner]: the winner is the player object at index [w]. *)
Definition handleSingleWinner (w : nat) (s : t) : t * list Event :=
  let pot := PotManager.getTotalPot (potManager s) in
  let s1 := mutatePlayer w (fun p => setChips (chips p + pot) p) s in
  let s2 := transitionTo GameState.PAYOUT_ANIMATION s1 in
  (s2, broadcastState s2).

(** Indices of the array elements satisfying [p]. *)
Fixpoint indicesFrom {A : Type} (p : A -> bool) (start : nat) (l : list A) : list nat :=
  match l with
  | [] => []
  | x :: rest =>
      if p x then start :: indicesFrom p (S start) rest
      else indicesFrom p (S start) rest
  end.

Definition handlePlayerFold (id : string) (s : t) : bool * t * list Event :=
  match indexBySteamId id s with
  | None => (false, s, [])
  | Some i =>
      let s1 := mutatePlayer i (setHasFolded true) s in
      match indicesFrom stillIn 0 (players s1) with
      | [w] => let (s2, evs) := handleSingleWinner w s1 in (true, s2, evs)
      | _ => (true, s1, [])
      end
  end.

Definition handlePlayerCheck (id : string) (s : t) : bool * t :=
  match getPlayerBySteamId id s with
  | None => (false, s)
  | Some player =>
      if TablePlayer.currentBet player <? currentBet s then (false, s)
      else (true, s)
  end.

Definition handlePlayerCall (id : string) (s : t) : bool * t :=
  match indexBySteamId id s, getPlayerBySteamId id s with
  | Some i, Some player =>
      let callAmount := currentBet s - TablePlayer.currentBet player in
      if callAmount <=? 0 then (false, s)
      else
        let actualAmount := Z.min callAmount (chips player) in
        let s1 :=
          mutatePlayer i
            (fun p => TablePlayer.setCurrentBet (TablePlayer.currentBet p + actualAmount)
                        (setChips (chips p - actualAmount) p))
            s in
        let s2 :=
          setPotManager
            (PotManager.addContribution (steamId player) actualAmount (potManager s1)) s1 in
        (true, mutatePlayer i allInIfBroke s2)
  | _, _ => (false, s)
  end.

(** The reset shared by a raise and a raising all-in: every other player
    who has neither folded nor gone all-in has to act again. *)
Definition reopenAction (id : string) (s : t) : t :=
  forEachPlayer
    (fun p =>
       if negb (String.eqb (steamId p) id) && negb (hasFolded p) && negb (isAllIn p)
       then setHasActed false p
       else p)
    s.

(** [!amount] holds for a missing amount and for 0. *)
Definition handlePlayerRaise (id : string) (amount : option Z) (s : t) : bool * t :=
  match indexBySteamId id s, getPlayerBySteamId id s, amount with
  | Some i, Some player, Some amt =>
      if amt =? 0 then (false, s)
      else if (amt <=? currentBet s) || (amt - currentBet s <? bigBlind s)
      then (false, s)
      else
        let raiseAmount := amt - TablePlayer.currentBet player in
        if raiseAmount >? chips player then (false, s)
        else
          let s1 :=
            mutatePlayer i
              (fun p => TablePlayer.setCurrentBet amt (setChips (chips p - raiseAmount) p))
              s in
          let s2 := setCurrentBet amt s1 in
          let s3 :=
            setPotManager
              (PotManager.addContribution (steamId player) raiseAmount (potManager s2)) s2 in
          let s4 := reopenAction id s3 in
          (true, mutatePlayer i allInIfBroke s4)
  | _, _, _ => (false, s)
  end.

(** The player object an accepted raise to [T] leaves behind. *)
Definition afterRaise (T : Z) (p : TablePlayer.t) : TablePlayer.t :=
  allInIfBroke
    (TablePlayer.setCurrentBet T
       (setChips (chips p - (T - TablePlayer.currentBet p)) p)).

Definition handlePlayerAllIn (id : string) (s : t) : bool * t :=
  match indexBySteamId id s, getPlayerBySteamId id s with
  | Some i, Some player =>
      let allInAmount := chips player in
      if allInAmount =? 0 then (false, s)
      else
        let newBet := TablePlayer.currentBet player + allInAmount in
        let s1 :=
          mutatePlayer i
            (fun p => setIsAllIn true
                        (TablePlayer.setCurrentBet (TablePlayer.currentBet p + allInAmount)
                           (setChips 0 p)))
            s in
        let s2 :=
          setPotManager
            (PotManager.addContribution (steamId player) allInAmount (potManager s1)) s1 in
        if newBet >? currentBet s2
        then (true, reopenAction id (setCurrentBet newBet s2))
        else (true, s2)
  | _, _ => (false, s)
  end.

(** *** Closing a betting round *)

Definition isBettingRoundComplete (s : t) : bool :=
  let activePlayers := filter stillIn (players s) in
  if Nat.eqb (length activePlayers) 0 then true
  else
    let playersWhoCanAct := filter (fun p => negb (isAllIn p)) activePlayers in
    if Nat.eqb (length playersWhoCanAct) 0 then true
    else forallb (fun p => hasActed p && (TablePlayer.currentBet p =? currentBet s))
                 playersWhoCanAct.

(** The [do ... while] of [advanceToNextPlayer]; [remaining] is
    [playerArray.length - attempts - 1] before the iteration. *)
Fixpoint advanceFrom (remaining : nat) (index : nat) (playerArray : list TablePlayer.t)
  : nat :=
  let index' := ((index + 1) mod length playerArray)%nat in
  match remaining with
  | O => index'
  | S r =>
      match nth_error playerArray index' with
      | Some p =>
          if hasFolded p || isAllIn p then advanceFrom r index' playerArray
          else index'
      | None => index'
      end
  end.

Definition advanceToNextPlayer (s : t) : t :=
  setCurrentPlayerIndex
    (advanceFrom (length (players s) - 1) (currentPlayerIndex s) (players s)) s.

(** The part common to [dealFlop], [dealTurn] and [dealRiver]: burn one
    card, deal [count] community cards, enter [street], clear the bets. *)
Definition dealStreet (count : nat) (street : GameState.t) (s : t) : option t :=
  match Deck.burn (deck s) with
  | None => None
  | Some d1 =>
      match Deck.deal count d1 with
      | None => None
      | Some (cards, d2) =>
          let s1 := setCommunityCards (communityCards s ++ cards) (setDeck d2 s) in
          let s2 := transitionTo street s1 in
          let s3 := setCurrentBet 0 s2 in
          Some (forEachPlayer (TablePlayer.setCurrentBet 0) s3)
      end
  end.

Definition dealFlop (s : t) : option (t * list Event) :=
  match dealStreet 3 GameState.FLOP s with
  | None => None
  | Some s1 =>
      let s2 :=
        setCurrentPlayerIndex ((dealerPosition s1 + 1) mod length (players s1))%nat s1 in
      Some (startBettingRound s2)
  end.

Definition dealTurn (s : t) : option (t * list Event) :=
  option_map startBettingRound (dealStreet 1 GameState.TURN s).

Definition dealRiver (s : t) : option (t * list Event) :=
  option_map startBettingRound (dealStreet 1 GameState.RIVER s).

(** *** Showdown *)

(** The loop of [startShowdown] over the still-in player objects: each is
    evaluated on its hole cards followed by the community cards and gets
    its [handRank] and [handValue] set. *)
Fixpoint evaluatePlayers (community : list Card.t) (ps : list TablePlayer.t)
         (handResults : list (string * HandEvaluator.HandResult))
  : option (list TablePlayer.t * list (string * HandEvaluator.HandResult)) :=
  match ps with
  | [] => Some ([], handResults)
  | p :: rest =>
      if stillIn p then
        match HandEvaluator.evaluateHand (holeCards p ++ community) with
        | None => None
        | Some result =>
            let p' := setHand (Some (HandEvaluator.description result))
                              (Some (HandEvaluator.value result)) p in
            match evaluatePlayers community rest
                    (mapSet String.eqb (steamId p) result handResults) with
            | None => None
            | Some (rest', hr) => Some (p' :: rest', hr)
            end
        end
      else
        match evaluatePlayers community rest handResults with
        | None => None
        | Some (rest', hr) => Some (p :: rest', hr)
        end
  end.

(** [payouts.forEach((amount, steamId) => ...)] *)
Definition applyPayout (s : t) (entry : string * Z) : t :=
  match indexBySteamId (fst entry) s with
  | Some i => mutatePlayer i (fun p => setChips (chips p + snd entry) p) s
  | None => s
  end.

Definition calculatePayouts (handResults : list (string * HandEvaluator.HandResult))
           (s : t) : t * list Event :=
  let activePlayers := map steamId (filter stillIn (players s)) in
  let pots := PotManager.calculatePots (potManager s) activePlayers in
  let winners :=
    fold_left
      (fun w e => mapSet String.eqb (fst e) (HandEvaluator.value (snd e)) w)
      handResults [] in
  let payouts := PotManager.distributePots pots winners in
  let s1 := fold_left applyPayout payouts s in
  let s2 := transitionTo GameState.PAYOUT_ANIMATION s1 in
  (s2, broadcastState s2).

Definition startShowdown (s : t) : option (t * list Event) :=
  let s1 := transitionTo GameState.SHOWDOWN_REVEAL s in
  match evaluatePlayers (communityCards s1) (players s1) [] with
  | None => None
  | Some (ps, handResults) => Some (calculatePayouts handResults (setPlayers ps s1))
  end.

Definition endBettingRound (s : t) : option (t * list Event) :=
  match gameState s with
  | GameState.PRE_FLOP => dealFlop s
  | GameState.FLOP => dealTurn s
  | GameState.TURN => dealRiver s
  | GameState.RIVER => startShowdown s
  | _ => Some (s, [])
  end.

(** *** handlePlayerAction *)

(** The [switch (action)]. *)
Definition dispatch (id : string) (action : ActionType) (amount : option Z) (s : t)
  : bool * t * list Event :=
  match action with
  | FOLD => handlePlayerFold id s
  | CHECK => (handlePlayerCheck id s, [])
  | CALL => (handlePlayerCall id s, [])
  | RAISE => (handlePlayerRaise id amount s, [])
  | ALL_IN => (handlePlayerAllIn id s, [])
  end.

Definition notYourTurn (id : string) : Event :=
  OnError id "NOT_YOUR_TURN" "It is not your turn".

Definition invalidAction (id : string) : Event :=
  OnError id "INVALID_ACTION" "Invalid action".

(** The result is [None] when an exception escapes (deck exhausted or a
    hand of other than 7 cards at showdown); otherwise the returned
    boolean, the table afterwards and the events emitted, in order. *)
Definition handlePlayerAction (id : string) (action : ActionType) (amount : option Z)
           (s : t) : option (bool * t * list Event) :=
  match getCurrentPlayer s with
  | None => Some (false, s, [notYourTurn id])
  | Some currentPlayer =>
      if negb (String.eqb (steamId currentPlayer) id)
      then Some (false, s, [notYourTurn id])
      else if hasFolded currentPlayer || isAllIn currentPlayer
      then Some (false, s, [])
      else if negb (isInBettingRound s)
      then Some (false, s, [])
      else
        let '(success, s1, evs1) := dispatch id action amount s in
        if negb success
        then Some (false, s1, evs1 ++ [invalidAction id])
        else
          let s2 := mutatePlayer (currentPlayerIndex s) (setHasActed true) s1 in
          let s3 := incrementSequenceId s2 in
          let next :=
            if isBettingRoundComplete s3 then endBettingRound s3
            else Some (advanceToNextPlayer s3, []) in
          match next with
          | None => None
          | Some (s4, evs2) =>
              Some (true, s4,
                    evs1 ++ [OnPlayerAction id action amount] ++ evs2
                         ++ broadcastState s4)
          end
  end.

(** *** Starting a hand *)

Definition resetForHand (p : TablePlayer.t) : TablePlayer.t :=
  TablePlayer.mk (steamId p) (username p) (position p) (chips p) [] 0
                 false false false false None None.

(** [dealHoleCards]: two cards to each active player, in array order. *)
Fixpoint dealHoleCards (ps : list TablePlayer.t) (d : Deck.t)
  : option (list TablePlayer.t * Deck.t) :=
  match ps with
  | [] => Some ([], d)
  | p :: rest =>
      if isActive p then
        match Deck.deal 2 d with
        | None => None
        | Some (cards, d') =>
            match dealHoleCards rest d' with
            | None => None
            | Some (rest', d'') => Some (setHoleCards cards p :: rest', d'')
            end
        end
      else
        match dealHoleCards rest d with
        | None => None
        | Some (rest', d'') => Some (p :: rest', d'')
        end
  end.

(** [startHand], with the deck as [this.deck.reset()] left it. *)
Definition startHand (shuffled : Deck.t) (s : t) : option (t * list Event) :=
  let s1 := setDeck shuffled s in
  let s2 := setPotManager (PotManager.reset (potManager s1)) s1 in
  let s3 := setCommunityCards [] s2 in
  let s4 := setCurrentBet (bigBlind s3) s3 in
  let s5 := forEachPlayer resetForHand s4 in
  let s6 := transitionTo GameState.DEALING s5 in
  match dealHoleCards (players s6) (deck s6) with
  | None => None
  | Some (ps, d) =>
      let s7 := setDeck d (setPlayers ps s6) in
      let s8 := postBlinds s7 in
      let s9 := transitionTo GameState.PRE_FLOP s8 in
      Some (startBettingRound s9)
  end.

(** [moveDealerButton]: [(dealerPosition + 1) % playerArray.length].  With
    somebody seated the button moves to the next seat.  With nobody
    seated the source divides by zero and stores [NaN]; [dealerPosition]
    is a natural number in [t], so that outcome is kept apart: the table
    [NotANumber s] has the fields of [s] and [NaN] for its
    [dealerPosition]. *)
Inductive ButtonMove : Type :=
| OnSeat (s : t)
| NotANumber (s : t).

Definition moveDealerButton (s : t) : ButtonMove :=
  match players s with
  | [] => NotANumber s
  | _ :: _ =>
      OnSeat (setDealerPosition ((dealerPosition s + 1) mod length (players s))%nat s)
  end.

(** [postBlinds] on a table whose [dealerPosition] is [NaN]: with fewer
    than two players it returns at once; otherwise [sbIndex] is [NaN],
    [playerArray[sbIndex]] is [undefined] and reading its [chips] throws. *)
Definition postBlindsNaN (s : t) : option t :=
  if Nat.ltb (length (players s)) 2 then Some s else None.

(** The chips on the table: every stack plus the pot total. *)
Definition totalStacks (s : t) : Z := sumZ (map chips (players s)).

Definition chipsInPlay (s : t) : Z :=
  totalStacks s + PotManager.getTotalPot (potManager s).

(** What a call of [handlePlayerAction] returns and leaves behind, the
    events aside. *)
Definition outcome (id : string) (action : ActionType) (amount : option Z) (s : t)
  : option (bool * t) :=
  option_map fst (handlePlayerAction id action amount s).

(** [betting s s']: the table goes from [s] to [s'] by a sequence of
    accepted actions, each of which leaves it in a betting round. *)
Inductive betting (s : t) : t -> Prop :=
| betting_start : betting s s
| betting_step (s1 s2 : t) (id : string) (action : ActionType) (amount : option Z) :
    betting s s1 ->
    outcome id action amount s1 = Some (true, s2) ->
    isInBettingRound s2 = true ->
    betting s s2.

End TableInstance.

(** ** The specification's hand ordering

    A second definition, written after the words of the specification and
    not after the code: a 5-card hand is ranked by its category, then by
    the rank of its primary group, of its secondary group, and by the
    remaining kickers in descending rank; the wheel A-2-3-4-5 is a straight
    whose high card is the 5.  A 7-card input is ranked by its best
    5-card hand.  It is used to say what a better hand and a split tie
    are. *)

Module SpecOrder.

Definition valuesOf (cards : list Card.t) : list Z :=
  map (fun c => HandEvaluator.RANK_VALUES (Card.rank c)) cards.

Definition countOf (v : Z) (vs : list Z) : Z :=
  Z.of_nat (length (filter (Z.eqb v) vs)).

Definition descending : list Z := [14; 13; 12; 11; 10; 9; 8; 7; 6; 5; 4; 3; 2].

(** The ranks held exactly [c] times, highest first. *)
Definition groupsOf (c : Z) (vs : list Z) : list Z :=
  filter (fun v => countOf v vs =? c) descending.

(** Primary group, secondary group, then the kickers in descending rank. *)
Definition tieBreak (vs : list Z) : list Z :=
  flat_map (fun c => groupsOf c vs) [4; 3; 2; 1].

Definition isFlush (cards : list Card.t) : bool :=
  match cards with
  | [] => false
  | c :: rest => forallb (fun c' => Card.Suit_eqb (Card.suit c') (Card.suit c)) rest
  end.

(** The high card of a straight; the wheel counts as 5-high. *)
Definition straightHigh (vs : list Z) : option Z :=
  match groupsOf 1 vs with
  | [a; b; c; d; e] =>
      if a - e =? 4 then Some a
      else if (a =? 14) && (b =? 5) && (e =? 2) then Some 5
      else None
  | _ => None
  end.

Definition nonEmpty (l : list Z) : bool :=
  match l with [] => false | _ => true end.

(** Category ordinal followed by the tie-break fields. *)
Definition strength5 (cards : list Card.t) : list Z :=
  let vs := valuesOf cards in
  match straightHigh vs, isFlush cards with
  | Some h, true => if h =? 14 then [9] else [8; h]
  | sh, fl =>
      if nonEmpty (groupsOf 4 vs) then 7 :: tieBreak vs
      else if nonEmpty (groupsOf 3 vs) && nonEmpty (groupsOf 2 vs) then 6 :: tieBreak vs
      else if fl then 5 :: tieBreak vs
      else
        match sh with
        | Some h => [4; h]
        | None =>
            if nonEmpty (groupsOf 3 vs) then 3 :: tieBreak vs
            else if Nat.eqb (length (groupsOf 2 vs)) 2 then 2 :: tieBreak vs
            else if nonEmpty (groupsOf 2 vs) then 1 :: tieBreak vs
            else 0 :: tieBreak vs
        end
  end.

(** Strict lexicographic order on the field lists. *)
Fixpoint lexLtb (a b : list Z) : bool :=
  match a, b with
  | [], [] => false
  | [], _ :: _ => true
  | _ :: _, [] => false
  | x :: a', y :: b' => if x <? y then true else if y <? x then false else lexLtb a' b'
  end.

Definition best7 (cards : list Card.t) : list Z :=
  fold_left
    (fun best combo =>
       if lexLtb best (strength5 combo) then strength5 combo else best)
    (HandEvaluator.getCombinations cards 5) [].

(** [a] holds a strictly better poker hand than [b]. *)
Definition beats (a b : list Card.t) : bool := lexLtb (best7 b) (best7 a).

(** [a] and [b] are a true split tie. *)
Definition splitTie (a b : list Card.t) : bool :=
  negb (beats a b) && negb (beats b a).

End SpecOrder.

(** ** The tied winners of a pot, in the order of the map

    A second definition of the players a pot is split between, written
    after the comments of [distributePots] and not after its code: the
    entries of the [winners] map, in the order of the map, that are
    eligible for the pot and whose score no eligible entry exceeds. *)

Module SpecPots.

Definition eligible (pot : PotManager.Pot) (e : string * Z) : bool :=
  includes String.eqb (fst e) (PotManager.eligiblePlayers pot).

Definition tiedInMapOrder (pot : PotManager.Pot) (winners : list (string * Z))
  : list (string * Z) :=
  filter (fun e =>
            eligible pot e
            && forallb (fun e' => negb (eligible pot e') || (snd e' <=? snd e)) winners)
         winners.

End SpecPots.

(** ** Concrete inputs used by the examples below *)

Module Examples.
Import Card.

Definition card (r : Rank) (s : Suit) : Card.t := Card.mk r s.

(** A-2-3-4-5 with two side cards: the best hand is the wheel. *)
Definition wheelHand : list Card.t :=
  [card RA SS; card R2 SH; card R3 SD; card R4 SC; card R5 SS; card R9 SH; card RK SD].

(** 2-3-4-5-6 with the same side cards: a six-high straight. *)
Definition sixHighHand : list Card.t :=
  [card R2 SS; card R3 SH; card R4 SD; card R5 SC; card R6 SS; card R9 SH; card RK SD].

(** A pair of aces with a king kicker, and with a queen kicker. *)
Definition acesKingKicker : list Card.t :=
  [card RA SS; card RA SH; card RK SD; card R9 SC; card R7 SS; card R4 SD; card R2 SC].

Definition acesQueenKicker : list Card.t :=
  [card RA SD; card RA SC; card RQ SD; card R9 SH; card R7 SD; card R4 SC; card R2 SS].

(** Two pair, aces and twos, against two pair, fours and threes. *)
Definition acesAndTwos : list Card.t :=
  [card RA SS; card RA SH; card R2 SD; card R2 SC; card R7 SS; card R9 SH; card RJ SD].

Definition foursAndThrees : list Card.t :=
  [card R3 SS; card R3 SH; card R4 SD; card R4 SC; card R7 SH; card R9 SD; card RJ SC].

(** Three players tied on the same score, and a pot of 5 chips. *)
Definition threeWayTie : list (string * Z) :=
  [("a"%string, 7); ("b"%string, 7); ("c"%string, 7)].

Definition oddPot : PotManager.Pot :=
  PotManager.mkPot 5 ["a"%string; "b"%string; "c"%string] true.

(** Two players in for 100 each and a third who folded after putting
    in 20. *)
Definition potWithFold : PotManager.t :=
  PotManager.addContribution "p2" 90
    (PotManager.addContribution "p1" 100
       (PotManager.addContribution "p3" 20
          (PotManager.addContribution "p2" 10 PotManager.empty))).

(** A 10/20 table with two seated players of 1000 chips each, then the
    first hand dealt from an unshuffled deck. *)
Definition emptyTable : TableInstance.t := TableInstance.create "t1" 10 20.

Definition seat (id name : string) (pos buyIn : Z) (s : TableInstance.t)
  : TableInstance.t :=
  snd (fst (TableInstance.addPlayer id name pos buyIn s)).

Definition dealt (s : TableInstance.t) : TableInstance.t :=
  match TableInstance.startHand Deck.fresh s with
  | Some (s', _) => s'
  | None => s
  end.

Definition dealtEvents (s : TableInstance.t) : list Event :=
  match TableInstance.startHand Deck.fresh s with
  | Some (_, evs) => evs
  | None => []
  end.

Definition after (id : string) (action : ActionType) (amount : option Z)
           (s : TableInstance.t) : TableInstance.t :=
  match TableInstance.outcome id action amount s with
  | Some (_, s') => s'
  | None => s
  end.

Definition oneSeated : TableInstance.t := seat "p1" "Ann" 0 1000 emptyTable.

Definition headsUpSeated : TableInstance.t := seat "p2" "Bob" 1 1000 oneSeated.

Definition headsUp : TableInstance.t := dealt headsUpSeated.

(** Three players; the first to act calls, the small blind folds and the
    big blind checks, which deals the flop. *)
Definition threeSeated : TableInstance.t := seat "p3" "Cyd" 2 1000 headsUpSeated.

Definition threeHanded : TableInstance.t := dealt threeSeated.

Definition threeOnFlop : TableInstance.t :=
  after "p3" CHECK None (after "p2" FOLD None (after "p1" CALL None threeHanded)).

End Examples.

(** ** Further helpers *)

(** [arr.splice(i, 1)] / [Map.delete] of the entry at index [i]. *)
Fixpoint removeAt {A : Type} (i : nat) (l : list A) : list A :=
  match l, i with
  | [], _ => []
  | _ :: rest, O => rest
  | x :: rest, S j => x :: removeAt j rest
  end.

(** [Map.delete(k)] on an insertion-ordered map. *)
Fixpoint mapDelete {K V : Type} (eqb : K -> K -> bool) (k : K) (m : list (K * V))
  : list (K * V) :=
  match m with
  | [] => []
  | (k', v) :: rest =>
      if eqb k k' then rest else (k', v) :: mapDelete eqb k rest
  end.

(** [sub] is [l] with some elements left out, the order kept. *)
Inductive Subsequence {A : Type} : list A -> list A -> Prop :=
| Subsequence_nil : Subsequence [] []
| Subsequence_keep (x : A) (sub l : list A) :
    Subsequence sub l -> Subsequence (x :: sub) (x :: l)
| Subsequence_skip (x : A) (sub l : list A) :
    Subsequence sub l -> Subsequence sub (x :: l).

(** The number of ways to choose [k] out of [n]. *)
Fixpoint binomial (n k : nat) : nat :=
  match k, n with
  | O, _ => 1
  | S _, O => 0
  | S k', S n' => binomial n' k' + binomial n' k
  end.

(** A list without repetition, decided with [eqb]. *)
Fixpoint distinctb {A : Type} (eqb : A -> A -> bool) (l : list A) : bool :=
  match l with
  | [] => true
  | x :: rest => negb (existsb (eqb x) rest) && distinctb eqb rest
  end.

Definition Card_eqb (a b : Card.t) : bool :=
  Card.Rank_eqb (Card.rank a) (Card.rank b) && Card.Suit_eqb (Card.suit a) (Card.suit b).

(** ** engine/Deck.ts: the shuffle

    [Math.floor(Math.random() * (i + 1))] is the input [pick i]; the source
    draws it in the range 0 .. i. *)

Module Shuffle.

(** [[cards[i], cards[j]] = [cards[j], cards[i]]] for indices inside the
    array (outside it the model leaves the array alone; the loop never
    gets there). *)
Definition swap {A : Type} (i j : nat) (cards : list A) : list A :=
  match nth_error cards i, nth_error cards j with
  | Some x, Some y => updateAt i (fun _ => y) (updateAt j (fun _ => x) cards)
  | _, _ => cards
  end.

(** The loop [for (let i = n - 1; i > 0; i--)], entered at [i]. *)
Fixpoint shuffleFrom {A : Type} (pick : nat -> nat) (i : nat) (cards : list A)
  : list A :=
  match i with
  | O => cards
  | S i' => shuffleFrom pick i' (swap i (pick i) cards)
  end.

Definition fisherYatesShuffle {A : Type} (pick : nat -> nat) (cards : list A)
  : list A :=
  shuffleFrom pick (length cards - 1) cards.

(** [reset()]: the 52 cards in creation order, then the shuffle. *)
Definition reset (pick : nat -> nat) : Deck.t :=
  fisherYatesShuffle pick Deck.fresh.

End Shuffle.

(** ** The shape of a 5-card hand

    The ranks in input order and whether the five cards share a suit:
    all that [evaluate5Cards] looks at, bestCards aside.  The category
    does not depend on the order of the ranks either. *)

Module Shape.

(** The flush test of [evaluate5Cards], on the suits. *)
Definition sameSuitCount (suits : list Card.Suit) : bool :=
  existsb (fun e => snd e =? 5) (HandEvaluator.countOccurrences Card.Suit_eqb suits).

(** Five cards with the given ranks, of one suit or not. *)
Definition canonical (ranks : list Card.Rank) (flush : bool) : list Card.t :=
  match ranks with
  | [] => []
  | r :: rest =>
      Card.mk r (if flush then Card.SH else Card.SD)
      :: map (fun r' => Card.mk r' Card.SH) rest
  end.

(** The order of the ranks by value. *)
Definition Rank_leb (a b : Card.Rank) : bool :=
  HandEvaluator.RANK_VALUES a <=? HandEvaluator.RANK_VALUES b.

(** The ranks from [r] upwards. *)
Definition ranksFrom (r : Card.Rank) : list Card.Rank :=
  filter (Rank_leb r) Deck.RANKS.

(** [check] holds of every ascending list of five ranks, with and
    without flush. *)
Definition forAllShapes (check : list Card.Rank -> bool -> bool) : bool :=
  forallb (fun a =>
  forallb (fun b =>
  forallb (fun c =>
  forallb (fun d =>
  forallb (fun e =>
    check [a; b; c; d; e] true && check [a; b; c; d; e] false)
  (ranksFrom d)) (ranksFrom c)) (ranksFrom b)) (ranksFrom a)) Deck.RANKS.

(** The category the specification's ordering gives a 5-card hand. *)
Definition specCategory (cards : list Card.t) : Z :=
  hd 0 (SpecOrder.strength5 cards).

Definition categoryAgrees (ranks : list Card.Rank) (flush : bool) : bool :=
  HandEvaluator.HandRank_value
    (HandEvaluator.rank (HandEvaluator.evaluate5Cards (canonical ranks flush)))
  =? specCategory (canonical ranks flush).

End Shape.

(** ** Shapes of pot lists *)

(** The order the eligible winners are sorted in: by decreasing score. *)
Definition byScoreDown (a b : string * Z) : Prop := snd b <= snd a.

Module PotShape.

(** A pot built at contribution level [c], no higher than [L], out of the
    sorted contributions: its eligible players are those who put in at
    least [c], and each of them adds the same positive difference. *)
Definition potAtLevel (sorted : list (string * Z)) (L : Z) (pot : PotManager.Pot)
  : Prop :=
  exists c d,
    0 < c <= L
    /\ PotManager.eligiblePlayers pot
       = map fst (filter (fun e => snd e >=? c) sorted)
    /\ 0 < d
    /\ PotManager.amount pot
       = d * Z.of_nat (length (PotManager.eligiblePlayers pot))
    /\ 0 < PotManager.amount pot.

(** The first pot is flagged as the main pot and no other is. *)
Definition mainFirst (pots : list PotManager.Pot) : Prop :=
  match pots with
  | [] => True
  | first :: rest =>
      PotManager.isMainPot first = true
      /\ Forall (fun p => PotManager.isMainPot p = false) rest
  end.

(** Whoever is eligible for [q] is eligible for [p]. *)
Definition narrows (p q : PotManager.Pot) : Prop :=
  incl (PotManager.eligiblePlayers q) (PotManager.eligiblePlayers p).

End PotShape.

(** ** rooms/StateSerializer.ts: the state patch

    [createStatePatch] builds an object with the new sequence number and
    one property per changed field; an absent property is [None]. *)

Module PlayerPatch.
Record t : Type := mk {
  steamId : string;
  chips : option Z;
  currentBet : option Z;
  hasFolded : option bool;
  hasActed : option bool
}.
End PlayerPatch.

Module StatePatch.
Record t : Type := mk {
  sequenceId : Z;
  state : option string;
  pot : option Z;
  currentBet : option Z;
  currentPlayerIndex : option nat;
  communityCards : option (list Card.t);
  playerUpdates : option (list PlayerPatch.t)
}.
End StatePatch.

Module Patching.

(** [if (old !== new) patch.field = new] *)
Definition changed {A : Type} (eqb : A -> A -> bool) (old new : A) : option A :=
  if eqb old new then None else Some new.

Definition isSome {A : Type} (o : option A) : bool :=
  match o with Some _ => true | None => false end.

(** The body of [newState.players.forEach] for an index at which the old
    state has a player too. *)
Definition playerChanges (oldPlayer newPlayer : GodPlayer.t) : option PlayerPatch.t :=
  let chips := changed Z.eqb (GodPlayer.chips oldPlayer) (GodPlayer.chips newPlayer) in
  let currentBet :=
    changed Z.eqb (GodPlayer.currentBet oldPlayer) (GodPlayer.currentBet newPlayer) in
  let hasFolded :=
    changed Bool.eqb (GodPlayer.hasFolded oldPlayer) (GodPlayer.hasFolded newPlayer) in
  let hasActed :=
    changed Bool.eqb (GodPlayer.hasActed oldPlayer) (GodPlayer.hasActed newPlayer) in
  let hasChanges :=
    isSome chips || isSome currentBet || isSome hasFolded || isSome hasActed in
  if hasChanges
  then Some (PlayerPatch.mk (GodPlayer.steamId newPlayer) chips currentBet hasFolded hasActed)
  else None.

(** The loop over the new players, index by index; an index the old state
    does not have is skipped. *)
Fixpoint changedPlayers (oldPlayers newPlayers : list GodPlayer.t)
  : list PlayerPatch.t :=
  match newPlayers, oldPlayers with
  | [], _ => []
  | _ :: _, [] => []
  | newPlayer :: news, oldPlayer :: olds =>
      match playerChanges oldPlayer newPlayer with
      | Some update => update :: changedPlayers olds news
      | None => changedPlayers olds news
      end
  end.

Definition createStatePatch (oldState newState : GodState.t) (targetSteamId : string)
  : StatePatch.t :=
  let updates := changedPlayers (GodState.players oldState) (GodState.players newState) in
  StatePatch.mk
    (GodState.sequenceId newState)
    (changed String.eqb (GodState.state oldState) (GodState.state newState))
    (changed Z.eqb (GodState.pot oldState) (GodState.pot newState))
    (changed Z.eqb (GodState.currentBet oldState) (GodState.currentBet newState))
    (changed Nat.eqb (GodState.currentPlayerIndex oldState)
             (GodState.currentPlayerIndex newState))
    (if Nat.eqb (length (GodState.communityCards oldState))
                (length (GodState.communityCards newState))
     then None
     else Some (GodState.communityCards newState))
    (match updates with
     | [] => None
     | _ => Some updates
     end).

(** The god state with other cards in the deck and in every hand. *)
Definition withCards (deck : list Card.t) (hands : GodPlayer.t -> list Card.t)
           (g : GodState.t) : GodState.t :=
  GodState.mk
    (GodState.tableId g) (GodState.sequenceId g) (GodState.state g)
    deck
    (GodState.communityCards g) (GodState.pot g) (GodState.currentBet g)
    (GodState.dealerPosition g) (GodState.currentPlayerIndex g)
    (map (fun p =>
            GodPlayer.mk (GodPlayer.steamId p) (GodPlayer.position p) (GodPlayer.chips p)
                         (hands p)
                         (GodPlayer.currentBet p) (GodPlayer.hasFolded p)
                         (GodPlayer.isAllIn p) (GodPlayer.hasActed p)
                         (GodPlayer.handRank p))
         (GodState.players g)).

End Patching.

(** ** rooms/TableInstance.ts: leaving and getting ready *)

Module Lifecycle.
Import TablePlayer TableInstance.

(** [removePlayer]: the first binding carrying the identifier is deleted
    from the map; [handlePlayerFold] is then called with the identifier if
    that player had not folded and a game is in progress. *)
Definition removePlayer (id : string) (s : TableInstance.t)
  : bool * TableInstance.t * list Event :=
  match indexBySteamId id s, getPlayerBySteamId id s with
  | Some i, Some player =>
      let s1 := setPlayers (removeAt i (players s)) s in
      let folded :=
        if negb (hasFolded player) && isGameInProgress s1
        then handlePlayerFold id s1
        else (false, s1, []) in
      let s2 := snd (fst folded) in
      (true, s2, snd folded ++ broadcastState s2)
  | _, _ => (false, s, [])
  end.

(** [startGame]: the countdown phase; the timer that deals the hand is not
    part of the model. *)
Definition startGame (s : TableInstance.t) : TableInstance.t :=
  transitionTo GameState.GAME_STARTING s.

Definition checkStartConditions (s : TableInstance.t) : TableInstance.t :=
  match gameState s with
  | GameState.WAITING_FOR_PLAYERS =>
      let activePlayers := filter (fun p => chips p >? 0) (players s) in
      if Nat.leb minPlayers (length activePlayers)
      then if forallb isReady activePlayers then startGame s else s
      else s
  | _ => s
  end.

Definition setPlayerReady (id : string) (s : TableInstance.t) : TableInstance.t :=
  match indexBySteamId id s with
  | Some i => checkStartConditions (mutatePlayer i (setIsReady true) s)
  | None => s
  end.

(** A player who can still act: neither folded nor all-in. *)
Definition canAct (p : TablePlayer.t) : bool := negb (hasFolded p || isAllIn p).

(** Who sits where and holds which cards: identifier, name, seat and
    hole cards of a player object. *)
Definition seatOf (p : TablePlayer.t) : string * string * Z * list Card.t :=
  (steamId p, username p, position p, holeCards p).

Definition seating (s : TableInstance.t) : list (string * string * Z * list Card.t) :=
  map seatOf (players s).

(** The community cards a betting round is played on, and the cards the
    deck still has to give until the river: a burn and three cards, then
    twice a burn and one card. *)
Definition cardsToCome (g : GameState.t) : option (nat * nat) :=
  match g with
  | GameState.PRE_FLOP => Some (0, 8)%nat
  | GameState.FLOP => Some (3, 4)%nat
  | GameState.TURN => Some (4, 2)%nat
  | GameState.RIVER => Some (5, 0)%nat
  | _ => None
  end.

(** A hand in order: every seated player holds two cards and, in a
    betting round, the board has the cards of the street and the deck the
    cards still to come. *)
Definition handInOrder (s : TableInstance.t) : Prop :=
  Forall (fun p => length (holeCards p) = 2%nat) (players s)
  /\ match cardsToCome (gameState s) with
     | Some (onBoard, toCome) =>
         length (communityCards s) = onBoard /\ (toCome <= length (deck s))%nat
     | None => True
     end.

(** Chips in order: no stack and no recorded contribution is negative,
    and no player has more on the table than the bet to match. *)
Definition chipsInOrder (s : TableInstance.t) : Prop :=
  Forall (fun p => 0 <= chips p) (players s)
  /\ Forall (fun e => 0 <= snd e) (PotManager.contributions (potManager s))
  /\ Forall (fun p => TablePlayer.currentBet p <= currentBet s) (players s).

End Lifecycle.

(** ** A table at showdown *)

Module Scenes.

Definition shownDown (s : TableInstance.t) : TableInstance.t :=
  match TableInstance.startShowdown s with
  | Some (s', _) => s'
  | None => s
  end.

Definition shownDownEvents (s : TableInstance.t) : list Event :=
  match TableInstance.startShowdown s with
  | Some (_, evs) => evs
  | None => []
  end.

(** Three players see the flop for 20 each; the small blind folds there
    and the other two check down to the river. *)
Definition threeOnRiver : TableInstance.t :=
  let after := Examples.after in
  let flop :=
    after "p3"%string CHECK None
      (after "p2"%string CALL None (after "p1"%string CALL None Examples.threeHanded)) in
  let turn :=
    after "p1"%string CHECK None (after "p3"%string CHECK None (after "p2"%string FOLD None flop)) in
  after "p3"%string CHECK None (after "p1"%string CHECK None turn).

(** The big blind sits with 30 chips and goes all-in before the flop;
    the other two call and check down to the river. *)
Definition shortStackSeated : TableInstance.t :=
  Examples.seat "p3"%string "Cyd"%string 2 30 Examples.headsUpSeated.

Definition allInOnRiver : TableInstance.t :=
  let after := Examples.after in
  let raised :=
    after "p3"%string ALL_IN None
      (after "p2"%string CALL None (after "p1"%string CALL None (Examples.dealt shortStackSeated))) in
  let flop := after "p2"%string CALL None (after "p1"%string CALL None raised) in
  let turn := after "p1"%string CHECK None (after "p2"%string CHECK None flop) in
  after "p2"%string CHECK None (after "p1"%string CHECK None turn).

End Scenes.

(** ** rooms/TableManager.ts *)

Module TableManager.
Import TablePlayer.

(** [tables] maps a table identifier to the table object, and
    [playerToTable] a player identifier to a table identifier.  The table
    objects are mutated in place; here the changed table is stored back
    under its key. *)
Record t : Type := mk {
  tables : list (string * TableInstance.t);
  playerToTable : list (string * string)
}.

Definition empty : t := mk [] [].

(** [createTable]: [tableId] is the identifier of the configuration, or
    the generated one when the configuration has none. *)
Definition createTable (tableId : string) (smallBlind bigBlind : Z) (m : t)
  : TableInstance.t * t :=
  let table := TableInstance.create tableId smallBlind bigBlind in
  (table,
   mk (mapSet String.eqb (TableInstance.tableId table) table (tables m))
      (playerToTable m)).

Definition getTable (tableId : string) (m : t) : option TableInstance.t :=
  mapGet String.eqb tableId (tables m).

(** [if (!tableId) return undefined]: an empty identifier counts as
    missing. *)
Definition findTableForPlayer (steamId : string) (m : t) : option TableInstance.t :=
  match mapGet String.eqb steamId (playerToTable m) with
  | None => None
  | Some tableId =>
      if String.eqb tableId EmptyString then None
      else mapGet String.eqb tableId (tables m)
  end.

Definition addPlayerToTable (tableId steamId username : string) (position buyIn : Z)
           (m : t) : bool * t * list Event :=
  match mapGet String.eqb tableId (tables m) with
  | None => (false, m, [])
  | Some table =>
      let '(success, table', evs) :=
        TableInstance.addPlayer steamId username position buyIn table in
      let tables' := mapSet String.eqb tableId table' (tables m) in
      if success
      then (true, mk tables' (mapSet String.eqb steamId tableId (playerToTable m)), evs)
      else (false, mk tables' (playerToTable m), evs)
  end.

Definition removePlayerFromTable (steamId : string) (m : t) : bool * t * list Event :=
  match mapGet String.eqb steamId (playerToTable m) with
  | None => (false, m, [])
  | Some tableId =>
      if String.eqb tableId EmptyString then (false, m, [])
      else
        match mapGet String.eqb tableId (tables m) with
        | None => (false, m, [])
        | Some table =>
            let '(success, table', evs) := Lifecycle.removePlayer steamId table in
            let tables' := mapSet String.eqb tableId table' (tables m) in
            if success
            then (true, mk tables' (mapDelete String.eqb steamId (playerToTable m)), evs)
            else (false, mk tables' (playerToTable m), evs)
        end
  end.

(** [destroyTable]: the [forEach] over [playerToTable] deletes the
    entries it visits that point at the table; then the table is dropped. *)
Definition destroyTable (tableId : string) (m : t) : bool * t :=
  match mapGet String.eqb tableId (tables m) with
  | None => (false, m)
  | Some _ =>
      let playerToTable' :=
        fold_left
          (fun p2t entry =>
             if String.eqb (snd entry) tableId
             then mapDelete String.eqb (fst entry) p2t
             else p2t)
          (playerToTable m) (playerToTable m) in
      (true, mk (mapDelete String.eqb tableId (tables m)) playerToTable')
  end.

(** A call on a table object obtained from [getTable]. *)
Definition storeTable (tableId : string) (table : TableInstance.t) (m : t) : t :=
  mk (mapSet String.eqb tableId table (tables m)) (playerToTable m).

(** The states the manager goes through: tables are created under
    identifiers not in use, players are added and removed through the
    manager, tables are destroyed, and players act and get ready on the
    table objects. *)
Inductive reachable : t -> Prop :=
| reachable_empty : reachable empty
| reachable_createTable (tableId : string) (smallBlind bigBlind : Z) (m : t) :
    reachable m ->
    getTable tableId m = None ->
    reachable (snd (createTable tableId smallBlind bigBlind m))
| reachable_addPlayerToTable (tableId steamId username : string)
                             (position buyIn : Z) (m : t) :
    reachable m ->
    reachable (snd (fst (addPlayerToTable tableId steamId username position buyIn m)))
| reachable_removePlayerFromTable (steamId : string) (m : t) :
    reachable m ->
    reachable (snd (fst (removePlayerFromTable steamId m)))
| reachable_destroyTable (tableId : string) (m : t) :
    reachable m ->
    reachable (snd (destroyTable tableId m))
| reachable_handlePlayerAction (tableId steamId : string) (action : ActionType)
                               (amount : option Z) (m : t)
                               (table table' : TableInstance.t) (ok : bool)
                               (evs : list Event) :
    reachable m ->
    getTable tableId m = Some table ->
    TableInstance.handlePlayerAction steamId action amount table = Some (ok, table', evs) ->
    reachable (storeTable tableId table' m)
| reachable_setPlayerReady (tableId steamId : string) (m : t) (table : TableInstance.t) :
    reachable m ->
    getTable tableId m = Some table ->
    reachable (storeTable tableId (Lifecycle.setPlayerReady steamId table) m).

End TableManager.

(** A registry with one 10/20 table and one player seated at it. *)
Module Lobby.

Definition oneTable : TableManager.t :=
  snd (TableManager.createTable "t1"%string 10 20 TableManager.empty).

Definition oneRouted : TableManager.t :=
  snd (fst (TableManager.addPlayerToTable "t1"%string "p1"%string "Ann"%string 0 1000 oneTable)).

End Lobby.

(** * Properties *)

(** Closed statements about concrete inputs are settled by evaluation. *)
Ltac by_evaluation :=
  repeat match goal with |- _ /\ _ => split end; vm_compute; reflexivity.

(** ** StateSerializer: the personal view *)

Section Sanitization.
Import StateSerializer.

Variable godState : GodState.t.
Variable targetSteamId : string.

(** The entry the personal view holds for one player of the god state. *)
Lemma serializeForPlayer_entry (v : ViewPlayer.t) :
  In v (PlayerView.players (serializeForPlayer godState targetSteamId)) ->
  exists p,
    In p (GodState.players godState)
    /\ ViewPlayer.steamId v = GodPlayer.steamId p
    /\ ViewPlayer.holeCards v
       = if String.eqb (GodPlayer.steamId p) targetSteamId
         then Some (GodPlayer.holeCards p)
         else None.
Proof.
  unfold serializeForPlayer. cbn [PlayerView.players]. intros Hin.
  apply in_map_iff in Hin. destruct Hin as [p [<- Hp]].
  exists p. cbn. auto.
Qed.

(** C2. In the personal view of [targetSteamId] the deck is null whatever
    the phase; the entries are those of the god state in the same order,
    each entry with another identifier has its hole cards replaced by
    null, and each entry of the recipient carries its hole cards. *)
Theorem serializeForPlayer_sanitized :
  PlayerView.deck (serializeForPlayer godState targetSteamId) = None
  /\ Forall2
       (fun p v =>
          ViewPlayer.steamId v = GodPlayer.steamId p
          /\ (GodPlayer.steamId p <> targetSteamId -> ViewPlayer.holeCards v = None)
          /\ (GodPlayer.steamId p = targetSteamId
              -> ViewPlayer.holeCards v = Some (GodPlayer.holeCards p)))
       (GodState.players godState)
       (PlayerView.players (serializeForPlayer godState targetSteamId))
  /\ (forall v, In v (PlayerView.players (serializeForPlayer godState targetSteamId)) ->
                ViewPlayer.steamId v <> targetSteamId ->
                ViewPlayer.holeCards v = None).
Proof.
  split; [reflexivity | split].
  - unfold serializeForPlayer. cbn [PlayerView.players].
    induction (GodState.players godState) as [|p ps IH]; cbn [map]; constructor.
    + cbn. split; [reflexivity | split]; intros Hid.
      * apply String.eqb_neq in Hid. now rewrite Hid.
      * apply String.eqb_eq in Hid. now rewrite Hid.
    + exact IH.
  - intros v Hin Hne.
    destruct (serializeForPlayer_entry v Hin) as [p [_ [Hid Hcards]]].
    rewrite Hcards. rewrite Hid in Hne.
    apply String.eqb_neq in Hne. now rewrite Hne.
Qed.

End Sanitization.

(** The view built by the table passes the serializer's own validator. *)
Lemma serializeForPlayer_validates (godState : GodState.t) (id : string) :
  StateSerializer.validateSanitized
    (StateSerializer.serializeForPlayer godState id) id = true.
Proof.
  unfold StateSerializer.validateSanitized, StateSerializer.serializeForPlayer.
  cbn [PlayerView.deck PlayerView.players PlayerView.state].
  apply forallb_forall. intros v Hin.
  apply in_map_iff in Hin. destruct Hin as [p [<- _]]. cbn.
  destruct (String.eqb (GodPlayer.steamId p) id); reflexivity.
Qed.

(** ** HandEvaluator *)

Section Evaluator.
Import HandEvaluator.

Lemma RANK_VALUES_bounds (r : Card.Rank) : 2 <= RANK_VALUES r <= 14.
Proof. destruct r; cbn; lia. Qed.

Lemma getHighCard_bounds (ranks : list Card.Rank) : 0 <= getHighCard ranks <= 14.
Proof.
  unfold getHighCard. induction ranks as [|r rs IH]; cbn.
  - lia.
  - pose proof (RANK_VALUES_bounds r). lia.
Qed.

(** Each category owns one band of a million scores. *)
Lemma evaluate5Cards_band (cards : list Card.t) :
  (HandRank_value (rank (evaluate5Cards cards)) + 1) * 1000000
  <= value (evaluate5Cards cards)
  < (HandRank_value (rank (evaluate5Cards cards)) + 2) * 1000000.
Proof.
  unfold evaluate5Cards.
  pose proof (getHighCard_bounds (map Card.rank cards)) as Hh.
  set (sc := stableSort _ _).
  pose proof (RANK_VALUES_bounds (keyAt 0 sc)) as H0.
  pose proof (RANK_VALUES_bounds (keyAt 1 sc)) as H1.
  repeat match goal with
         | |- context [if ?b then _ else _] => destruct b
         end; cbn [rank value HandRank_value]; lia.
Qed.

Lemma keepBest_fold_some (combos : list (list Card.t)) (b : HandResult) :
  exists r, fold_left keepBest combos (Some b) = Some r
            /\ (r = b \/ exists combo, In combo combos /\ r = evaluate5Cards combo)
            /\ value b <= value r
            /\ (forall combo, In combo combos -> value (evaluate5Cards combo) <= value r).
Proof.
  revert b. induction combos as [|c cs IH]; intros b; cbn [fold_left].
  - exists b. repeat split; auto; try lia. intros ? [].
  - unfold keepBest at 2.
    destruct (value (evaluate5Cards c) >? value b) eqn:Hgt.
    + destruct (IH (evaluate5Cards c)) as [r [Hr [Hsrc [Hle Hmax]]]].
      exists r. split; [exact Hr | split; [| split]].
      * right. destruct Hsrc as [-> | [combo [Hin ->]]].
        -- exists c. split; [now left | reflexivity].
        -- exists combo. split; [now right | reflexivity].
      * apply Z.gtb_lt in Hgt. lia.
      * intros combo [<- | Hin]; [exact Hle | now apply Hmax].
    + destruct (IH b) as [r [Hr [Hsrc [Hle Hmax]]]].
      exists r. split; [exact Hr | split; [| split]].
      * destruct Hsrc as [-> | [combo [Hin ->]]].
        -- now left.
        -- right. exists combo. split; [now right | reflexivity].
      * exact Hle.
      * intros combo [<- | Hin]; [| now apply Hmax].
        assert (value (evaluate5Cards c) <= value b)
          by (destruct (Z.gtb_spec (value (evaluate5Cards c)) (value b));
              [discriminate | lia]).
        lia.
Qed.

(** On 7 cards [evaluateHand] returns, and what it returns is the
    evaluation of one of the 5-card combinations, of maximal score. *)
Lemma evaluateHand_returns (cards : list Card.t) :
  length cards = 7%nat ->
  exists r combo,
    evaluateHand cards = Some r
    /\ In combo (getCombinations cards 5)
    /\ r = evaluate5Cards combo
    /\ (forall c, In c (getCombinations cards 5) ->
                  value (evaluate5Cards c) <= value r).
Proof.
  intros Hlen. unfold evaluateHand. rewrite Hlen. cbn [Nat.eqb negb].
  destruct (getCombinations cards 5) as [|c0 cs] eqn:Hc.
  - exfalso.
    do 8 (destruct cards as [|? cards]; try discriminate Hlen).
    cbn in Hc. discriminate Hc.
  - cbn [fold_left]. unfold keepBest at 2.
    destruct (keepBest_fold_some cs (evaluate5Cards c0)) as [r [Hr [Hsrc [Hle Hmax]]]].
    destruct Hsrc as [-> | [combo [Hin ->]]].
    + exists (evaluate5Cards c0), c0. repeat split; auto.
      * now left.
      * intros c [<- | Hin]; [lia | now apply Hmax].
    + exists (evaluate5Cards combo), combo. repeat split; auto.
      * now right.
      * intros c [<- | Hin']; [exact Hle | now apply Hmax].
Qed.

Lemma evaluateHand_throws (cards : list Card.t) :
  length cards <> 7%nat -> evaluateHand cards = None.
Proof.
  intros Hlen. unfold evaluateHand.
  apply Nat.eqb_neq in Hlen. now rewrite Hlen.
Qed.

Lemma evaluateHand_band (cards : list Card.t) (r : HandResult) :
  evaluateHand cards = Some r ->
  (HandRank_value (rank r) + 1) * 1000000 <= value r
  < (HandRank_value (rank r) + 2) * 1000000.
Proof.
  intros He.
  destruct (Nat.eq_dec (length cards) 7) as [Hlen | Hlen].
  - destruct (evaluateHand_returns cards Hlen) as [r' [combo [He' [_ [-> _]]]]].
    rewrite He' in He. injection He as <-. apply evaluate5Cards_band.
  - rewrite (evaluateHand_throws cards Hlen) in He. discriminate.
Qed.

Lemma HandRank_value_inj (a b : HandRank) :
  HandRank_value a = HandRank_value b -> a = b.
Proof. destruct a, b; cbn; intros H; (reflexivity || discriminate H). Qed.

End Evaluator.

Section EvaluatorOrder.
Import HandEvaluator Examples.

(** C3: the code at two pairs of inputs. [evaluateHand] documents its
    [value] as the number "for tie-breaking" between the best five-card
    hands, and C3 asks that it order any two inputs as poker does.  Aces
    and twos beat fours and threes, both are two pair, and the code gives
    the better hand the strictly lower value (3002014 against 3003004):
    the two pair branch reads the pairs in the key order of [rankCounts],
    not by rank.  And aces with a king kicker beat aces with a queen
    kicker, the two are no split tie, and both get the value 2014000:
    no kicker enters the value. *)
Theorem evaluateHand_misorders_two_pair :
  SpecOrder.beats acesAndTwos foursAndThrees = true
  /\ option_map (fun r => (rank r, value r)) (evaluateHand acesAndTwos)
     = Some (TWO_PAIR, 3002014)
  /\ option_map (fun r => (rank r, value r)) (evaluateHand foursAndThrees)
     = Some (TWO_PAIR, 3003004)
  /\ SpecOrder.beats acesKingKicker acesQueenKicker = true
  /\ SpecOrder.splitTie acesKingKicker acesQueenKicker = false
  /\ option_map value (evaluateHand acesKingKicker) = Some 2014000
  /\ option_map value (evaluateHand acesQueenKicker) = Some 2014000.
Proof. by_evaluation. Qed.

(** C6: the code at a wheel. The straight A-2-3-4-5 is scored with the
    ace as its high card (5000014), above the six-high straight
    2-3-4-5-6 (5000006). *)
Theorem wheel_scored_ace_high :
  option_map (fun r => (rank r, value r)) (evaluateHand wheelHand)
  = Some (STRAIGHT, 5000014)
  /\ option_map (fun r => (rank r, value r)) (evaluateHand sixHighHand)
     = Some (STRAIGHT, 5000006)
  /\ SpecOrder.beats sixHighHand wheelHand = true.
Proof. by_evaluation. Qed.

(** The wheel is recognised as a straight, and its score takes the
    highest rank present, for every arrangement of suits and order. *)
Lemma checkStraight_wheel (ranks : list Card.Rank) :
  includes Card.Rank_eqb Card.RA ranks = true ->
  includes Card.Rank_eqb Card.R2 ranks = true ->
  includes Card.Rank_eqb Card.R3 ranks = true ->
  includes Card.Rank_eqb Card.R4 ranks = true ->
  includes Card.Rank_eqb Card.R5 ranks = true ->
  checkStraight ranks = true.
Proof.
  intros HA H2 H3 H4 H5. unfold checkStraight.
  rewrite HA, H2, H3, H4, H5.
  destruct (consecutive _); reflexivity.
Qed.

Lemma getHighCard_with_ace (ranks : list Card.Rank) :
  includes Card.Rank_eqb Card.RA ranks = true -> getHighCard ranks = 14.
Proof.
  unfold includes, getHighCard. induction ranks as [|r rs IH]; cbn.
  - discriminate.
  - intros H. apply orb_true_iff in H.
    pose proof (getHighCard_bounds rs) as Hb. unfold getHighCard in Hb.
    destruct H as [H | H].
    + destruct r; try discriminate H. cbn. lia.
    + specialize (IH H). pose proof (RANK_VALUES_bounds r). lia.
Qed.

End EvaluatorOrder.

(** ** PotManager *)

Section Maps.

Lemma getOrZero_mapSet (id k : string) (v : Z) (m : list (string * Z)) :
  PotManager.getOrZero id (mapSet String.eqb k v m)
  = if String.eqb id k then v else PotManager.getOrZero id m.
Proof.
  unfold PotManager.getOrZero.
  induction m as [|[k' v'] rest IH]; cbn.
  - destruct (String.eqb id k); reflexivity.
  - destruct (String.eqb k k') eqn:Hkk; cbn.
    + apply String.eqb_eq in Hkk. subst k'.
      destruct (String.eqb id k); reflexivity.
    + destruct (String.eqb id k') eqn:Hik.
      * apply String.eqb_eq in Hik. subst k'.
        rewrite String.eqb_sym in Hkk. now rewrite Hkk.
      * exact IH.
Qed.

(** Adding [x] to the entry of [k] adds [x] to the sum of the values. *)
Lemma sumZ_mapSet_add (k : string) (x : Z) (m : list (string * Z)) :
  sumZ (map snd (mapSet String.eqb k (PotManager.getOrZero k m + x) m))
  = sumZ (map snd m) + x.
Proof.
  unfold PotManager.getOrZero.
  induction m as [|[k' v'] rest IH]; cbn.
  - lia.
  - destruct (String.eqb k k'); cbn.
    + lia.
    + rewrite IH. lia.
Qed.

Lemma fold_left_add_sumZ {A : Type} (f : A -> Z) (l : list A) (acc : Z) :
  fold_left (fun total e => total + f e) l acc = acc + sumZ (map f l).
Proof.
  revert acc. induction l as [|x xs IH]; intros acc; cbn.
  - lia.
  - rewrite IH. lia.
Qed.

Lemma getTotalPot_sum (pm : PotManager.t) :
  PotManager.getTotalPot pm = sumZ (map snd (PotManager.contributions pm)).
Proof. unfold PotManager.getTotalPot. rewrite fold_left_add_sumZ. lia. Qed.

Lemma getTotalPot_addContribution (id : string) (x : Z) (pm : PotManager.t) :
  PotManager.getTotalPot (PotManager.addContribution id x pm)
  = PotManager.getTotalPot pm + x.
Proof.
  rewrite !getTotalPot_sum. unfold PotManager.addContribution. cbn.
  apply sumZ_mapSet_add.
Qed.

Lemma insertBy_perm {A : Type} (le : A -> A -> bool) (x : A) (l : list A) :
  Permutation (insertBy le x l) (x :: l).
Proof.
  induction l as [|y t IH]; cbn.
  - reflexivity.
  - destruct (le x y).
    + reflexivity.
    + rewrite IH. apply perm_swap.
Qed.

Lemma stableSort_perm {A : Type} (le : A -> A -> bool) (l : list A) :
  Permutation (stableSort le l) l.
Proof.
  unfold stableSort. induction l as [|x t IH]; cbn.
  - reflexivity.
  - rewrite insertBy_perm. now constructor.
Qed.

Lemma NoDup_keys_filter {A B : Type} (f : A * B -> bool) (l : list (A * B)) :
  NoDup (map fst l) -> NoDup (map fst (filter f l)).
Proof.
  induction l as [|e t IH]; cbn; intros Hnd.
  - constructor.
  - inversion Hnd as [|? ? Hnotin Hnd']; subst.
    destruct (f e); cbn; [constructor |]; auto.
    intros Hin. apply Hnotin.
    apply in_map_iff in Hin. destruct Hin as [e' [He' Hin]].
    apply filter_In in Hin. apply in_map_iff. exists e'. tauto.
Qed.

Lemma NoDup_keys_stableSort {A B : Type} (le : A * B -> A * B -> bool)
      (l : list (A * B)) :
  NoDup (map fst l) -> NoDup (map fst (stableSort le l)).
Proof.
  intros Hnd. eapply Permutation_NoDup; [| exact Hnd].
  apply Permutation_map. symmetry. apply stableSort_perm.
Qed.

End Maps.

Section Distribution.
Import PotManager.

Lemma tiedWinnersOf_NoDup (pot : Pot) (winners : list (string * Z)) :
  NoDup (map fst winners) -> NoDup (map fst (tiedWinnersOf pot winners)).
Proof.
  intros Hnd. unfold tiedWinnersOf.
  set (ew := stableSort _ _).
  assert (Hew : NoDup (map fst ew))
    by (apply NoDup_keys_stableSort, NoDup_keys_filter, Hnd).
  destruct ew as [|top rest] eqn:E.
  - constructor.
  - apply NoDup_keys_filter. exact Hew.
Qed.

Lemma payTied_other (split rem : Z) (tied : list (string * Z)) :
  forall (index : nat) (payouts : list (string * Z)) (id : string),
    ~ In id (map fst tied) ->
    getOrZero id (payTied split rem index tied payouts) = getOrZero id payouts.
Proof.
  induction tied as [|[p v] rest IH]; intros index payouts id Hnotin; cbn.
  - reflexivity.
  - rewrite IH by (intros Hin; apply Hnotin; now right).
    rewrite getOrZero_mapSet.
    destruct (String.eqb id p) eqn:E; [| reflexivity].
    apply String.eqb_eq in E. exfalso. apply Hnotin. now left.
Qed.

Lemma payTied_later (split rem : Z) (tied : list (string * Z)) :
  forall (index : nat) (payouts : list (string * Z)) (id : string),
    NoDup (map fst tied) ->
    In id (map fst tied) ->
    getOrZero id (payTied split rem (S index) tied payouts)
    = getOrZero id payouts + split.
Proof.
  induction tied as [|[p v] rest IH]; intros index payouts id Hnd Hin; cbn.
  - destruct Hin.
  - cbn in Hnd. inversion Hnd as [|? ? Hnotin Hnd']; subst.
    destruct Hin as [<- | Hin].
    + rewrite payTied_other by exact Hnotin.
      rewrite getOrZero_mapSet, String.eqb_refl. cbn. lia.
    + rewrite IH by assumption.
      rewrite getOrZero_mapSet.
      destruct (String.eqb id p) eqn:E; [| reflexivity].
      apply String.eqb_eq in E. subst. contradiction.
Qed.

Lemma payTied_sum (split rem : Z) (tied : list (string * Z)) :
  forall (index : nat) (payouts : list (string * Z)),
    sumZ (map snd (payTied split rem index tied payouts))
    = sumZ (map snd payouts) + split * Z.of_nat (length tied)
      + (match tied, index with
         | _ :: _, O => rem
         | _, _ => 0
         end).
Proof.
  induction tied as [|[p v] rest IH]; intros index payouts.
  - cbn. lia.
  - cbn [payTied]. rewrite IH.
    rewrite sumZ_mapSet_add.
    cbn [length]. rewrite Nat2Z.inj_succ.
    destruct index; destruct rest; cbn [Nat.eqb]; lia.
Qed.

Lemma distributeOne_sum (winners payouts : list (string * Z)) (pot : Pot) :
  0 <= amount pot ->
  tiedWinnersOf pot winners <> [] ->
  sumZ (map snd (distributeOne winners payouts pot))
  = sumZ (map snd payouts) + amount pot.
Proof.
  intros Hpos Hne. unfold distributeOne.
  destruct (tiedWinnersOf pot winners) as [|w ws] eqn:E; [contradiction |].
  rewrite payTied_sum.
  set (n := Z.of_nat (length (w :: ws))).
  assert (Hn : 0 < n) by (unfold n; cbn [length]; lia).
  rewrite Z.rem_mod_nonneg by lia.
  pose proof (Z.div_mod (amount pot) n ltac:(lia)). lia.
Qed.

Lemma distributeOne_skip (winners payouts : list (string * Z)) (pot : Pot) :
  tiedWinnersOf pot winners = [] -> distributeOne winners payouts pot = payouts.
Proof. intros E. unfold distributeOne. now rewrite E. Qed.

Lemma distributePots_sum_from (winners : list (string * Z)) (pots : list Pot) :
  forall payouts,
    Forall (fun pot => 0 <= amount pot /\ tiedWinnersOf pot winners <> []) pots ->
    sumZ (map snd (fold_left (distributeOne winners) pots payouts))
    = sumZ (map snd payouts) + sumZ (map amount pots).
Proof.
  induction pots as [|pot rest IH]; intros payouts Hall; cbn.
  - lia.
  - inversion Hall as [|? ? [Hpos Hne] Hrest]; subst.
    rewrite IH by exact Hrest.
    rewrite distributeOne_sum by assumption. lia.
Qed.

Lemma insertBy_sorted_down (x : string * Z) (l : list (string * Z)) :
  StronglySorted byScoreDown l ->
  StronglySorted byScoreDown (insertBy (fun a b => snd b <=? snd a) x l).
Proof.
  induction 1 as [|y t Hsorted IH Hall]; cbn.
  - repeat constructor.
  - destruct (Z.leb_spec (snd y) (snd x)) as [Hle | Hgt].
    + constructor; [now constructor |].
      constructor; [exact Hle |].
      eapply Forall_impl; [| exact Hall].
      unfold byScoreDown. intros z Hz. lia.
    + constructor; [exact IH |].
      eapply Permutation_Forall; [symmetry; apply insertBy_perm |].
      constructor; [unfold byScoreDown; lia | exact Hall].
Qed.

Lemma stableSort_sorted_down (l : list (string * Z)) :
  StronglySorted byScoreDown (stableSort (fun a b => snd b <=? snd a) l).
Proof.
  unfold stableSort. induction l as [|x t IH]; cbn.
  - constructor.
  - now apply insertBy_sorted_down.
Qed.

(** The stable sort keeps the entries of one score in their order. *)
Lemma filter_insertBy_score (m : Z) (x : string * Z) (l : list (string * Z)) :
  filter (fun e => snd e =? m) (insertBy (fun a b => snd b <=? snd a) x l)
  = filter (fun e => snd e =? m) (x :: l).
Proof.
  induction l as [|y t IH]; [reflexivity |].
  cbn [insertBy].
  destruct (Z.leb_spec (snd y) (snd x)) as [Hle | Hgt]; [reflexivity |].
  cbn [filter] in *. rewrite IH.
  destruct (Z.eqb_spec (snd y) m) as [Hy | Hy];
    destruct (Z.eqb_spec (snd x) m) as [Hx | Hx]; try reflexivity.
  lia.
Qed.

Lemma filter_stableSort_score (m : Z) (l : list (string * Z)) :
  filter (fun e => snd e =? m) (stableSort (fun a b => snd b <=? snd a) l)
  = filter (fun e => snd e =? m) l.
Proof.
  unfold stableSort. induction l as [|x t IH]; [reflexivity |].
  cbn [fold_right]. rewrite filter_insertBy_score.
  cbn [filter]. now rewrite IH.
Qed.

Lemma filter_filter_and {A : Type} (p q : A -> bool) (l : list A) :
  filter q (filter p l) = filter (fun e => p e && q e) l.
Proof.
  induction l as [|x t IH]; [reflexivity |].
  cbn [filter]. destruct (p x); cbn [andb filter]; now rewrite IH.
Qed.

(** [distributePots] sorts the eligible winners and keeps those tied with
    the first: that is the list of the top eligible entries in the order
    of the [winners] map. *)
Lemma tiedWinnersOf_in_map_order (pot : Pot) (winners : list (string * Z)) :
  tiedWinnersOf pot winners = SpecPots.tiedInMapOrder pot winners.
Proof.
  unfold tiedWinnersOf, SpecPots.tiedInMapOrder.
  change (fun e : string * Z => includes String.eqb (fst e) (eligiblePlayers pot))
    with (SpecPots.eligible pot).
  set (kept := filter (SpecPots.eligible pot) winners).
  pose proof (stableSort_sorted_down kept) as Hsorted.
  pose proof (stableSort_perm (fun a b => snd b <=? snd a) kept) as Hperm.
  pose proof (filter_stableSort_score) as Hstable.
  destruct (stableSort _ kept) as [|top rest] eqn:Hs.
  - apply Permutation_nil in Hperm.
    rewrite <- (filter_filter_and (SpecPots.eligible pot)). fold kept.
    now rewrite Hperm.
  - rewrite <- Hs, Hstable. unfold kept. rewrite filter_filter_and.
    inversion Hsorted as [|? ? _ Htop]; subst.
    rewrite Forall_forall in Htop. unfold byScoreDown in Htop.
    assert (Hall : forall e, In e kept -> snd e <= snd top).
    { intros e He. apply (Permutation_in _ (Permutation_sym Hperm)) in He.
      destruct He as [<- | He]; [lia | now apply Htop]. }
    assert (Htopin : In top kept)
      by (apply (Permutation_in _ Hperm); now left).
    apply filter_In in Htopin. destruct Htopin as [Htw Htel].
    apply filter_ext_in. intros e He.
    destruct (SpecPots.eligible pot e) eqn:Hel; [| reflexivity].
    cbn [andb].
    assert (Hk : In e kept) by (apply filter_In; now split).
    pose proof (Hall e Hk) as Hle.
    destruct (Z.eqb_spec (snd e) (snd top)) as [Heq | Hne]; symmetry.
    + apply forallb_forall. intros e' He'.
      destruct (SpecPots.eligible pot e') eqn:Hel'; [| reflexivity].
      cbn [negb orb]. apply Z.leb_le.
      assert (Hk' : In e' kept) by (apply filter_In; now split).
      rewrite Heq. now apply Hall.
    + apply not_true_is_false. intros Hforall.
      rewrite forallb_forall in Hforall.
      specialize (Hforall top Htw). rewrite Htel in Hforall.
      cbn [negb orb] in Hforall. apply Z.leb_le in Hforall. lia.
Qed.

(** C5, as the code has it. The tied winners of a pot are the top
    eligible entries of the [winners] map in the order of that map.  When
    they are [first :: rest], every one of them is paid the floor of the
    equal split, [first] (the earliest of them in the map) is paid the
    whole remainder on top, and nobody else is paid from that pot; over a
    list of pots with non-negative amounts and a winner each, the total
    paid equals the sum of the pot amounts. *)
Theorem distributePots_first_winner_takes_remainder (winners : list (string * Z)) :
  NoDup (map fst winners) ->
  (forall pot : Pot, tiedWinnersOf pot winners = SpecPots.tiedInMapOrder pot winners)
  /\ (forall (pot : Pot) (payouts : list (string * Z)) first v rest,
         SpecPots.tiedInMapOrder pot winners = (first, v) :: rest ->
         let n := Z.of_nat (S (length rest)) in
         let payouts' := distributeOne winners payouts pot in
         getOrZero first payouts'
         = getOrZero first payouts + amount pot / n + Z.rem (amount pot) n
         /\ (forall id, In id (map fst rest) ->
                        getOrZero id payouts' = getOrZero id payouts + amount pot / n)
         /\ (forall id, id <> first -> ~ In id (map fst rest) ->
                        getOrZero id payouts' = getOrZero id payouts))
  /\ (forall pots : list Pot,
         Forall (fun pot => 0 <= amount pot /\ tiedWinnersOf pot winners <> []) pots ->
         sumZ (map snd (distributePots pots winners)) = sumZ (map amount pots)).
Proof.
  intros Hnd. split; [intros pot; apply tiedWinnersOf_in_map_order | split].
  - intros pot payouts first v rest Htied n payouts'.
    rewrite <- tiedWinnersOf_in_map_order in Htied.
    pose proof (tiedWinnersOf_NoDup pot winners Hnd) as Hnd'.
    rewrite Htied in Hnd'. cbn in Hnd'.
    inversion Hnd' as [|? ? Hnotin Hndrest]; subst.
    subst payouts'. unfold distributeOne. rewrite Htied.
    cbn [payTied length Nat.eqb]. fold n.
    split; [| split].
    + rewrite payTied_other by exact Hnotin.
      rewrite getOrZero_mapSet, String.eqb_refl. lia.
    + intros id Hin. rewrite payTied_later by assumption.
      rewrite getOrZero_mapSet.
      destruct (String.eqb id first) eqn:E; [| reflexivity].
      apply String.eqb_eq in E. subst. contradiction.
    + intros id Hne Hnotin'. rewrite payTied_other by exact Hnotin'.
      rewrite getOrZero_mapSet.
      apply String.eqb_neq in Hne. now rewrite Hne.
  - intros pots Hall. unfold distributePots.
    rewrite distributePots_sum_from by exact Hall. cbn. lia.
Qed.

End Distribution.

Section DistributionExamples.
Import PotManager Examples.

Lemma distributePots_first_winner_takes_remainder_witness :
  NoDup (map fst threeWayTie)
  /\ tiedWinnersOf oddPot threeWayTie = SpecPots.tiedInMapOrder oddPot threeWayTie
  /\ getOrZero "a" (distributeOne threeWayTie [] oddPot) = 0 + 5 / 3 + Z.rem 5 3
  /\ sumZ (map snd (distributePots [oddPot] threeWayTie)) = 5.
Proof.
  assert (Hnd : NoDup (map fst threeWayTie))
    by (repeat constructor; cbn; intuition discriminate).
  destruct (distributePots_first_winner_takes_remainder threeWayTie Hnd)
    as [Horder [Hpot Hsum]].
  split; [exact Hnd | split; [exact (Horder oddPot) | split]].
  - exact (proj1 (Hpot oddPot [] "a"%string 7
                       [("b"%string, 7); ("c"%string, 7)] eq_refl)).
  - apply (Hsum [oddPot]).
    repeat constructor; cbn; [lia | discriminate].
Defined.

(** C5 fails as stated: with 5 chips split three ways the remainder is
    2, and both odd chips go to the first tied winner, who ends with 3
    while the others get 1 each. *)
Lemma distributePots_remainder_goes_to_one_winner :
  distributePots [oddPot] threeWayTie
  = [("a"%string, 3); ("b"%string, 1); ("c"%string, 1)]
  /\ 5 / 3 + 1 < getOrZero "a" (distributePots [oddPot] threeWayTie).
Proof. by_evaluation. Qed.

End DistributionExamples.

Section SidePots.
Import PotManager.

Lemma sumZ_perm (l l' : list Z) : Permutation l l' -> sumZ l = sumZ l'.
Proof. induction 1; cbn; lia. Qed.

Lemma insertBy_sorted (x : string * Z) (l : list (string * Z)) :
  StronglySorted byAmount l ->
  StronglySorted byAmount (insertBy (fun a b => snd a <=? snd b) x l).
Proof.
  induction 1 as [|y t Hsorted IH Hall]; cbn.
  - repeat constructor.
  - destruct (Z.leb_spec (snd x) (snd y)) as [Hle | Hgt].
    + constructor; [now constructor |].
      constructor; [exact Hle |].
      eapply Forall_impl; [| exact Hall].
      unfold byAmount. intros z Hz. lia.
    + constructor; [exact IH |].
      eapply Permutation_Forall; [symmetry; apply insertBy_perm |].
      constructor; [unfold byAmount; lia | exact Hall].
Qed.

Lemma stableSort_sorted (l : list (string * Z)) :
  StronglySorted byAmount (stableSort (fun a b => snd a <=? snd b) l).
Proof.
  unfold stableSort. induction l as [|x t IH]; cbn.
  - constructor.
  - now apply insertBy_sorted.
Qed.

Lemma collectLevel_from (c d : Z) (l : list (string * Z)) :
  forall acc : list string * Z,
    fold_left
      (fun acc entry =>
         if snd entry >=? c then (fst acc ++ [fst entry], snd acc + d) else acc)
      l acc
    = (fst acc ++ map fst (filter (fun e => snd e >=? c) l),
       snd acc + d * Z.of_nat (length (filter (fun e => snd e >=? c) l))).
Proof.
  induction l as [|e t IH]; intros [ids amt]; cbn [fold_left filter].
  - cbn. rewrite app_nil_r. f_equal. lia.
  - rewrite IH. destruct (snd e >=? c); cbn [fst snd map length].
    + rewrite <- app_assoc. cbn [app]. f_equal. lia.
    + reflexivity.
Qed.

(** For one level the eligible players are exactly those who put in at
    least that much, and each of them adds the level difference. *)
Lemma collectLevel_spec (c d : Z) (l : list (string * Z)) :
  collectLevel c d l
  = (map fst (filter (fun e => snd e >=? c) l),
     d * Z.of_nat (length (filter (fun e => snd e >=? c) l))).
Proof. unfold collectLevel. rewrite collectLevel_from. reflexivity. Qed.

Lemma capSum_raise (L c : Z) (l : list (string * Z)) :
  L < c ->
  (forall e, In e l -> snd e <= L \/ c <= snd e) ->
  capSum c l
  = capSum L l + (c - L) * Z.of_nat (length (filter (fun e => snd e >=? c) l)).
Proof.
  intros Hlt. unfold capSum. induction l as [|e t IH]; intros Hsplit.
  - cbn. lia.
  - cbn [map sumZ filter].
    rewrite IH by (intros e' Hin; apply Hsplit; now right).
    destruct (Hsplit e (or_introl eq_refl)) as [Hlow | Hhigh].
    + destruct (Z.geb_spec (snd e) c); [lia |]. lia.
    + destruct (Z.geb_spec (snd e) c); [| lia].
      cbn [length]. rewrite Nat2Z.inj_succ. lia.
Qed.

Lemma capSum_all (L : Z) (l : list (string * Z)) :
  (forall e, In e l -> snd e <= L) -> capSum L l = sumZ (map snd l).
Proof.
  unfold capSum. induction l as [|e t IH]; intros Hle; cbn.
  - reflexivity.
  - rewrite IH by (intros e' Hin; apply Hle; now right).
    specialize (Hle e (or_introl eq_refl)). lia.
Qed.

Lemma capSum_zero (l : list (string * Z)) :
  Forall (fun e => 0 <= snd e) l -> capSum 0 l = 0.
Proof.
  unfold capSum. induction 1 as [|e t He _ IH]; cbn.
  - reflexivity.
  - rewrite IH. lia.
Qed.

Lemma sumZ_amount_app (pots : list Pot) (p : Pot) :
  sumZ (map amount (pots ++ [p])) = sumZ (map amount pots) + amount p.
Proof. induction pots as [|q qs IH]; cbn; lia. Qed.

(** The loop of [calculatePots] keeps the pots equal to the chips counted
    up to the current level. *)
Lemma potStep_fold (all : list (string * Z)) :
  forall (suf : list (string * Z)) (pots : list Pot) (L : Z),
    StronglySorted byAmount suf ->
    (forall e, In e all -> snd e <= L \/ In e suf) ->
    sumZ (map amount pots) = capSum L all ->
    sumZ (map amount (fst (fold_left (potStep all) suf (pots, L))))
    = sumZ (map snd all).
Proof.
  induction suf as [|x suf' IH]; intros pots L Hsorted Hcover Hsum.
  - cbn. rewrite Hsum. apply capSum_all.
    intros e Hin. destruct (Hcover e Hin) as [H | []]. exact H.
  - cbn [fold_left]. inversion Hsorted as [|? ? Hsorted' Hall]; subst.
    rewrite Forall_forall in Hall. unfold byAmount in Hall.
    unfold potStep at 2.
    destruct (Z.leb_spec (snd x) L) as [Hle | Hgt].
    + apply IH; [exact Hsorted' | | exact Hsum].
      intros e Hin. destruct (Hcover e Hin) as [H | [<- | H]]; auto.
    + rewrite collectLevel_spec.
      set (k := Z.of_nat (length (filter (fun e => snd e >=? snd x) all))).
      assert (Hraise : capSum (snd x) all = capSum L all + (snd x - L) * k).
      { apply capSum_raise; [exact Hgt |].
        intros e Hin. destruct (Hcover e Hin) as [H | [<- | H]].
        - now left.
        - right. lia.
        - right. now apply Hall. }
      apply IH; [exact Hsorted' | |].
      * intros e Hin. destruct (Hcover e Hin) as [H | [<- | H]].
        -- left. lia.
        -- left. lia.
        -- now right.
      * destruct ((snd x - L) * k >? 0) eqn:Hpos.
        -- rewrite sumZ_amount_app. cbn [amount]. lia.
        -- assert ((snd x - L) * k = 0).
           { destruct (Z.gtb_spec ((snd x - L) * k) 0); [discriminate |].
             assert (0 <= k) by (unfold k; lia). nia. }
           lia.
Qed.

(** The pots add up to what the players in [activePlayers] contributed:
    the contribution of a player outside that list is in no pot. *)
Lemma calculatePots_sum (pm : PotManager.t) (activePlayers : list string) :
  Forall (fun e => 0 <= snd e) (contributions pm) ->
  sumZ (map amount (calculatePots pm activePlayers))
  = sumZ (map snd
            (filter (fun e => includes String.eqb (fst e) activePlayers)
                    (contributions pm))).
Proof.
  intros Hpos. unfold calculatePots.
  destruct (contributions pm) as [|e0 rest] eqn:Hc.
  - reflexivity.
  - cbn [length Nat.eqb]. rewrite <- Hc in *. clear Hc e0 rest.
    set (kept := filter _ (contributions pm)).
    set (sorted := stableSort _ kept).
    rewrite potStep_fold.
    + apply sumZ_perm, Permutation_map, stableSort_perm.
    + apply stableSort_sorted.
    + intros e Hin. now right.
    + cbn. symmetry. apply capSum_zero.
      eapply Permutation_Forall; [symmetry; apply stableSort_perm |].
      apply Forall_forall. intros e Hin. apply filter_In in Hin.
      rewrite Forall_forall in Hpos. apply Hpos. tauto.
Qed.

(** When every contributor is still in, the pots add up to the total. *)
Lemma calculatePots_sum_all_in (pm : PotManager.t) (activePlayers : list string) :
  Forall (fun e => 0 <= snd e) (contributions pm) ->
  Forall (fun e => includes String.eqb (fst e) activePlayers = true)
         (contributions pm) ->
  sumZ (map amount (calculatePots pm activePlayers)) = getTotalPot pm.
Proof.
  intros Hpos Hin. rewrite calculatePots_sum by exact Hpos.
  rewrite getTotalPot_sum. f_equal. f_equal.
  induction (contributions pm) as [|e t IH]; cbn.
  - reflexivity.
  - inversion Hin as [|? ? He Ht]; subst. inversion Hpos; subst.
    rewrite He. f_equal. now apply IH.
Qed.

(** C4: the code with a folded contributor. Two players are in for 100
    each and a third folded after putting in 20: the only pot holds 200
    while the pot total is 220, so the folded player's 20 chips are in
    no pot. *)
Theorem calculatePots_leaves_out_folded_chips :
  calculatePots Examples.potWithFold ["p1"%string; "p2"%string]
  = [mkPot 200 ["p2"%string; "p1"%string] true]
  /\ getTotalPot Examples.potWithFold = 220
  /\ sumZ (map amount (calculatePots Examples.potWithFold ["p1"%string; "p2"%string]))
     <> getTotalPot Examples.potWithFold.
Proof.
  split; [| split]; vm_compute; [reflexivity | reflexivity | discriminate].
Qed.

End SidePots.

(** ** TableInstance *)

Section Arrays.
Context {A : Type}.

Lemma findIndex_Some (p : A -> bool) (l : list A) (i : nat) :
  findIndex p l = Some i -> exists x, nth_error l i = Some x /\ p x = true.
Proof.
  revert i. induction l as [|y t IH]; intros i; cbn.
  - discriminate.
  - destruct (p y) eqn:Hp.
    + intros [= <-]. exists y. now split.
    + destruct (findIndex p t) as [j|]; cbn; [| discriminate].
      intros [= <-]. cbn. now apply IH.
Qed.

Lemma length_updateAt (i : nat) (f : A -> A) (l : list A) :
  length (updateAt i f l) = length l.
Proof.
  revert i. induction l as [|y t IH]; intros [|i]; cbn; auto.
Qed.

Lemma nth_error_updateAt_same (i : nat) (f : A -> A) (l : list A) (x : A) :
  nth_error l i = Some x -> nth_error (updateAt i f l) i = Some (f x).
Proof.
  revert i. induction l as [|y t IH]; intros [|i]; cbn; try discriminate.
  - now intros [= ->].
  - apply IH.
Qed.

Lemma nth_error_updateAt_other (i j : nat) (f : A -> A) (l : list A) :
  i <> j -> nth_error (updateAt i f l) j = nth_error l j.
Proof.
  revert i j. induction l as [|y t IH]; intros [|i] [|j] Hne; cbn; auto;
    congruence.
Qed.

Lemma updateAt_out_of_range (i : nat) (f : A -> A) (l : list A) :
  nth_error l i = None -> updateAt i f l = l.
Proof.
  revert i. induction l as [|y t IH]; intros [|i]; cbn; auto.
  - discriminate.
  - intros H. now rewrite IH.
Qed.

(** Mutating one object changes the sum of a numeric field by the change
    of that field on that object. *)
Lemma sumZ_updateAt (g : A -> Z) (i : nat) (f : A -> A) (l : list A) (x : A) :
  nth_error l i = Some x ->
  sumZ (map g (updateAt i f l)) = sumZ (map g l) + g (f x) - g x.
Proof.
  revert i. induction l as [|y t IH]; intros [|i]; cbn; try discriminate.
  - intros [= ->]. lia.
  - intros H. rewrite (IH _ H). lia.
Qed.

Lemma sumZ_map_ext (g : A -> Z) (f : A -> A) (l : list A) :
  (forall x, g (f x) = g x) -> sumZ (map g (map f l)) = sumZ (map g l).
Proof.
  intros H. induction l as [|y t IH]; cbn; [reflexivity |].
  now rewrite H, IH.
Qed.

End Arrays.

Section Seating.
Import TableInstance.

(** C10, as the code has it. [addPlayer] succeeds exactly when fewer than
    six players are seated, the requested seat is free and the phase is
    Lobby, Waiting or SocialBanter; whether the identifier already holds a
    seat plays no part.  A failure is the plain result [false], with the
    table untouched and nothing emitted; a success appends the new
    binding. *)
Theorem addPlayer_accepts_iff (id name : string) (pos buyIn : Z) (s : t) :
  let ok := fst (fst (addPlayer id name pos buyIn s)) in
  let s' := snd (fst (addPlayer id name pos buyIn s)) in
  (ok = true <->
     (length (players s) < maxPlayers)%nat
     /\ seatTaken pos s = false
     /\ canJoin (gameState s) = true)
  /\ (ok = false -> s' = s /\ snd (addPlayer id name pos buyIn s) = [])
  /\ (ok = true -> players s' = players s ++ [newPlayer id name pos buyIn]).
Proof.
  unfold addPlayer.
  destruct (Nat.leb_spec maxPlayers (length (players s))) as [Hfull | Hroom].
  { cbn. repeat split; try discriminate; auto. intros [H _]. lia. }
  destruct (seatTaken pos s) eqn:Hseat.
  { cbn. repeat split; try discriminate; auto. intros [_ [H _]]. discriminate. }
  destruct (canJoin (gameState s)) eqn:Hjoin.
  2:{ cbn. repeat split; try discriminate; auto. intros [_ [_ H]]. discriminate. }
  cbn [negb fst snd]. repeat split; auto; try discriminate.
  intros _. cbn. destruct (gameState s); reflexivity.
Qed.

(** C10 fails as stated: a player who already holds seat 0 asks for seat
    1 and is seated a second time; the table then has two bindings with
    the same identifier. *)
Lemma addPlayer_seats_same_player_twice :
  map TablePlayer.steamId (players Examples.oneSeated) = ["p1"%string]
  /\ fst (fst (addPlayer "p1" "Ann" 1 500 Examples.oneSeated)) = true
  /\ map (fun p => (TablePlayer.steamId p, TablePlayer.position p))
         (players (snd (fst (addPlayer "p1" "Ann" 1 500 Examples.oneSeated))))
     = [("p1"%string, 0); ("p1"%string, 1)].
Proof. by_evaluation. Qed.

End Seating.

(** Projections of the setters, nothing else unfolded. *)
Ltac table_simpl :=
  cbn [TableInstance.tableId TableInstance.deck TableInstance.potManager
       TableInstance.gameState TableInstance.sequenceId TableInstance.players
       TableInstance.communityCards TableInstance.currentBet
       TableInstance.dealerPosition TableInstance.currentPlayerIndex
       TableInstance.smallBlind TableInstance.bigBlind
       TableInstance.setDeck TableInstance.setPotManager TableInstance.setGameState
       TableInstance.setSequenceId TableInstance.setPlayers
       TableInstance.setCommunityCards TableInstance.setCurrentBet
       TableInstance.setDealerPosition TableInstance.setCurrentPlayerIndex
       TableInstance.mutatePlayer TableInstance.forEachPlayer
       TableInstance.incrementSequenceId TableInstance.transitionTo
       TablePlayer.steamId TablePlayer.username TablePlayer.position
       TablePlayer.chips TablePlayer.holeCards TablePlayer.currentBet
       TablePlayer.hasFolded TablePlayer.isAllIn TablePlayer.hasActed
       TablePlayer.isReady TablePlayer.handRank TablePlayer.handValue
       TablePlayer.setChips TablePlayer.setHoleCards TablePlayer.setCurrentBet
       TablePlayer.setHasFolded TablePlayer.setIsAllIn TablePlayer.setHasActed
       TablePlayer.setIsReady TablePlayer.setHand
       fst snd] in *.

Section Blinds.
Import TablePlayer TableInstance.

Lemma chips_allInIfBroke (p : TablePlayer.t) :
  TablePlayer.chips (allInIfBroke p) = TablePlayer.chips p.
Proof. unfold allInIfBroke. destruct (TablePlayer.chips p =? 0); reflexivity. Qed.

Lemma postBlind_players (blind : Z) (i : nat) (s : t) :
  players (postBlind blind i s) = updateAt i (afterBlind blind) (players s).
Proof.
  unfold postBlind. destruct (nth_error (players s) i) eqn:Hp.
  - reflexivity.
  - now rewrite updateAt_out_of_range.
Qed.

Lemma postBlind_chipsInPlay (blind : Z) (i : nat) (s : t) :
  chipsInPlay (postBlind blind i s) = chipsInPlay s.
Proof.
  unfold postBlind. destruct (nth_error (players s) i) as [p|] eqn:Hp; [| reflexivity].
  unfold chipsInPlay, totalStacks. table_simpl.
  rewrite getTotalPot_addContribution.
  rewrite (sumZ_updateAt TablePlayer.chips i _ (players s) p Hp).
  unfold afterBlind. rewrite chips_allInIfBroke. table_simpl. lia.
Qed.

Lemma postBlinds_chipsInPlay (s : t) : chipsInPlay (postBlinds s) = chipsInPlay s.
Proof.
  unfold postBlinds. destruct (Nat.ltb _ 2); [reflexivity |].
  change (chipsInPlay (postBlind (bigBlind s) (bbIndexOf s)
                                 (postBlind (smallBlind s) (sbIndexOf s) s))
          = chipsInPlay s).
  now rewrite !postBlind_chipsInPlay.
Qed.

End Blinds.

Section HeadsUp.
Import TablePlayer TableInstance.

(** C7, as the code has it. With two players the blinds follow the
    general rule: the seat after the dealer, that is the non-dealer,
    posts the small blind, the dealer posts the big blind, and the seat
    after the big blind, again the non-dealer, is first to act. *)
Theorem postBlinds_heads_up (s : t) (dealer other : TablePlayer.t) :
  length (players s) = 2%nat ->
  (dealerPosition s < 2)%nat ->
  nth_error (players s) (dealerPosition s) = Some dealer ->
  nth_error (players s) (1 - dealerPosition s) = Some other ->
  nth_error (players (postBlinds s)) (1 - dealerPosition s)
  = Some (afterBlind (smallBlind s) other)
  /\ nth_error (players (postBlinds s)) (dealerPosition s)
     = Some (afterBlind (bigBlind s) dealer)
  /\ currentPlayerIndex (postBlinds s) = (1 - dealerPosition s)%nat
  /\ dealerPosition (postBlinds s) = dealerPosition s.
Proof.
  intros Hlen Hd Hdealer Hother.
  destruct s as [tid dk pm gs sq ps cc cb d cpi sb bb]. table_simpl.
  destruct ps as [|a [|b [|c ps]]]; try discriminate Hlen.
  unfold postBlinds, sbIndexOf, bbIndexOf. table_simpl.
  destruct d as [|[|d]]; [| | lia]; cbn in Hdealer, Hother;
    injection Hdealer as <-; injection Hother as <-;
    cbn [length Nat.ltb Nat.leb Nat.add Nat.modulo Nat.divmod fst snd Nat.sub];
    unfold postBlind; table_simpl; cbn [nth_error updateAt];
    table_simpl; cbn [nth_error updateAt]; table_simpl;
    repeat split; reflexivity.
Qed.

Lemma postBlinds_heads_up_witness :
  nth_error (players (postBlinds Examples.headsUpSeated)) 1
  = Some (afterBlind 10 (newPlayer "p2" "Bob" 1 1000))
  /\ nth_error (players (postBlinds Examples.headsUpSeated)) 0
     = Some (afterBlind 20 (newPlayer "p1" "Ann" 0 1000))
  /\ currentPlayerIndex (postBlinds Examples.headsUpSeated) = 1%nat
  /\ dealerPosition (postBlinds Examples.headsUpSeated) = 0%nat.
Proof.
  apply (postBlinds_heads_up Examples.headsUpSeated
           (newPlayer "p1" "Ann" 0 1000) (newPlayer "p2" "Bob" 1 1000));
    [reflexivity | cbn; lia | reflexivity | reflexivity].
Defined.

(** C7 fails as stated: in the first heads-up hand of a 10/20 table the
    dealer (index 0) has posted 20, the big blind, the other player has
    posted 10, and the player to act is the other player, not the
    dealer. *)
Lemma heads_up_dealer_posts_big_blind :
  dealerPosition Examples.headsUp = 0%nat
  /\ gameState Examples.headsUp = GameState.PRE_FLOP
  /\ map (fun p => (steamId p, TablePlayer.currentBet p)) (players Examples.headsUp)
     = [("p1"%string, 20); ("p2"%string, 10)]
  /\ (smallBlind Examples.headsUp, bigBlind Examples.headsUp) = (10, 20)
  /\ currentPlayerIndex Examples.headsUp = 1%nat.
Proof. by_evaluation. Qed.

End HeadsUp.

Section Raise.
Import TablePlayer TableInstance.

Lemma indexBySteamId_steamId (id : string) (s : t) (i : nat) (p : TablePlayer.t) :
  indexBySteamId id s = Some i ->
  nth_error (players s) i = Some p ->
  steamId p = id.
Proof.
  unfold indexBySteamId. intros Hi Hp.
  apply findIndex_Some in Hi. destruct Hi as [x [Hx Heq]].
  rewrite Hp in Hx. injection Hx as <-. now apply String.eqb_eq.
Qed.

Lemma getPlayerBySteamId_nth (id : string) (s : t) (i : nat) :
  indexBySteamId id s = Some i ->
  getPlayerBySteamId id s = nth_error (players s) i.
Proof. unfold getPlayerBySteamId. now intros ->. Qed.

(** C8, as the code has it. A raise to total [T] by the player found
    under [id] is accepted if and only if [T] is not zero, [T] exceeds
    the current bet, exceeds it by at least the big blind, and costs the
    player no more than the stack.  On acceptance the current bet becomes
    [T], the player has wagered [T] and paid the difference into the pot;
    the threshold for the next raise is still the big blind.  On rejection
    nothing changes. *)
Theorem handlePlayerRaise_accepts_iff (id : string) (T : Z) (s : t) (i : nat)
        (player : TablePlayer.t) :
  indexBySteamId id s = Some i ->
  nth_error (players s) i = Some player ->
  let ok := fst (handlePlayerRaise id (Some T) s) in
  let s' := snd (handlePlayerRaise id (Some T) s) in
  (ok = true <->
     T <> 0
     /\ currentBet s < T
     /\ bigBlind s <= T - currentBet s
     /\ T - TablePlayer.currentBet player <= chips player)
  /\ (ok = true ->
      currentBet s' = T
      /\ bigBlind s' = bigBlind s
      /\ nth_error (players s') i = Some (afterRaise T player)
      /\ PotManager.getTotalPot (potManager s')
         = PotManager.getTotalPot (potManager s) + (T - TablePlayer.currentBet player))
  /\ (ok = false -> s' = s).
Proof.
  intros Hi Hp. pose proof (indexBySteamId_steamId id s i player Hi Hp) as Hid.
  unfold handlePlayerRaise.
  rewrite (getPlayerBySteamId_nth id s i Hi), Hi, Hp.
  destruct (Z.eqb_spec T 0) as [-> | Hnz].
  { cbn [fst snd]. repeat split; try discriminate; auto. intros [H _]. now elim H. }
  destruct (Z.leb_spec T (currentBet s)) as [Hle | Hgt].
  { cbn [orb fst snd]. repeat split; try discriminate; auto. intros [_ [H _]]. lia. }
  destruct (Z.ltb_spec (T - currentBet s) (bigBlind s)) as [Hsmall | Hbig].
  { cbn [orb fst snd]. repeat split; try discriminate; auto.
    intros [_ [_ [H _]]]. lia. }
  cbn [orb].
  destruct (Z.gtb_spec (T - TablePlayer.currentBet player) (chips player))
    as [Hshort | Henough].
  { cbn [fst snd]. repeat split; try discriminate; auto.
    intros [_ [_ [_ H]]]. lia. }
  cbn [fst snd]. split; [| split].
  - split; [intros _ | reflexivity]. repeat split; auto; lia.
  - intros _. unfold reopenAction. table_simpl.
    repeat split.
    + erewrite nth_error_updateAt_same; [reflexivity |].
      rewrite nth_error_map.
      erewrite nth_error_updateAt_same by exact Hp.
      cbn [option_map]. table_simpl.
      rewrite Hid, String.eqb_refl. reflexivity.
    + apply getTotalPot_addContribution.
  - discriminate.
Qed.

Lemma handlePlayerRaise_accepts_iff_witness :
  (fst (handlePlayerRaise "p2" (Some 40) Examples.headsUp) = true <->
     40 <> 0 /\ 20 < 40 /\ 20 <= 40 - 20 /\ 40 - 10 <= 990)
  /\ currentBet (snd (handlePlayerRaise "p2" (Some 40) Examples.headsUp)) = 40.
Proof.
  destruct (handlePlayerRaise_accepts_iff "p2" 40 Examples.headsUp 1
              (afterBlind 10
                 (setHoleCards [Examples.card Card.R4 Card.SH;
                                Examples.card Card.R5 Card.SH]
                    (newPlayer "p2" "Bob" 1 1000)))
              eq_refl eq_refl) as [Hiff [Hacc _]].
  split; [exact Hiff |].
  apply Hacc. apply Hiff. repeat split; (discriminate || lia).
Defined.

(** C8 fails as stated: after a raise from 20 to 100, an increment of 80,
    the next raise to 120, an increment of only 20, is accepted; the
    minimum increment was not raised to 80. *)
Lemma raise_below_previous_increment_accepted :
  currentBet Examples.headsUp = 20
  /\ option_map (fun r => (fst r, currentBet (snd r)))
       (outcome "p2" RAISE (Some 100) Examples.headsUp) = Some (true, 100)
  /\ option_map (fun r => (fst r, currentBet (snd r)))
       (outcome "p1" RAISE (Some 120)
          (Examples.after "p2" RAISE (Some 100) Examples.headsUp)) = Some (true, 120)
  /\ 120 - 100 < 100 - 20.
Proof. by_evaluation. Qed.

End Raise.

Section Rejection.
Import TablePlayer TableInstance.

Lemma handlePlayerFold_accepts (id : string) (s : t) (i : nat) :
  indexBySteamId id s = Some i -> fst (fst (handlePlayerFold id s)) = true.
Proof.
  intros Hi. unfold handlePlayerFold. rewrite Hi.
  destruct (indicesFrom stillIn 0 _) as [|w [|w' ws]]; reflexivity.
Qed.

(** A handler that answers [false] has touched nothing. *)
Lemma dispatch_rejects_unchanged (id : string) (action : ActionType)
      (amount : option Z) (s s1 : t) (evs : list Event) :
  dispatch id action amount s = (false, s1, evs) -> s1 = s /\ evs = [].
Proof.
  destruct action; cbn [dispatch].
  - unfold handlePlayerFold.
    destruct (indexBySteamId id s) as [i|]; [| now intros [= <- <-]].
    destruct (indicesFrom stillIn 0 _) as [|w [|w' ws]]; discriminate.
  - unfold handlePlayerCheck.
    destruct (getPlayerBySteamId id s) as [p|]; [| now intros [= <- <-]].
    destruct (_ <? _); [now intros [= <- <-] | discriminate].
  - unfold handlePlayerCall.
    destruct (indexBySteamId id s) as [i|]; [| now intros [= <- <-]].
    destruct (getPlayerBySteamId id s) as [p|]; [| now intros [= <- <-]].
    destruct (_ <=? 0); [now intros [= <- <-] | discriminate].
  - unfold handlePlayerRaise.
    destruct (indexBySteamId id s) as [i|]; [| now intros [= <- <-]].
    destruct (getPlayerBySteamId id s) as [p|]; [| now intros [= <- <-]].
    destruct amount as [amt|]; [| now intros [= <- <-]].
    destruct (amt =? 0); [now intros [= <- <-] |].
    destruct (_ || _); [now intros [= <- <-] |].
    destruct (_ >? _); [now intros [= <- <-] | discriminate].
  - unfold handlePlayerAllIn.
    destruct (indexBySteamId id s) as [i|]; [| now intros [= <- <-]].
    destruct (getPlayerBySteamId id s) as [p|]; [| now intros [= <- <-]].
    destruct (_ =? 0); [now intros [= <- <-] |].
    destruct (_ >? _); discriminate.
Qed.

(** Every rejected action leaves the table as it was.  An error event,
    addressed to the sender, is emitted when the sender is not the
    acting player and when the action's own precondition fails; a
    rejection because the acting player has folded or is all-in, or
    because the phase is no betting round, emits nothing. *)
Lemma handlePlayerAction_rejected (id : string) (action : ActionType)
      (amount : option Z) (s s' : t) (evs : list Event) :
  handlePlayerAction id action amount s = Some (false, s', evs) ->
  s' = s
  /\ (evs = [notYourTurn id] \/ evs = [invalidAction id] \/ evs = []).
Proof.
  unfold handlePlayerAction.
  destruct (getCurrentPlayer s) as [cp|]; [| intros [= <- <-]; auto].
  destruct (negb _); [intros [= <- <-]; auto |].
  destruct (_ || _); [intros [= <- <-]; auto |].
  destruct (negb (isInBettingRound s)); [intros [= <- <-]; auto |].
  destruct (dispatch id action amount s) as [[success s1] evs1] eqn:Hd.
  destruct success; cbn [negb].
  - destruct (if isBettingRoundComplete _ then _ else _) as [[s4 evs2]|];
      discriminate.
  - intros [= <- <-].
    destruct (dispatch_rejects_unchanged _ _ _ _ _ _ Hd) as [-> ->]. auto.
Qed.

(** C9: the code at two rejected actions. Outside a betting round the
    player at the acting index sends CHECK; and on the flop the acting
    index points at a player who has folded, who sends CHECK.  Both calls
    return [false], leave the table unchanged and emit no event at all,
    so no error reaches the sender. *)
Theorem rejected_action_without_error_event :
  gameState Examples.headsUpSeated = GameState.WAITING_FOR_PLAYERS
  /\ handlePlayerAction "p1" CHECK None Examples.headsUpSeated
     = Some (false, Examples.headsUpSeated, [])
  /\ option_map (fun p => (steamId p, hasFolded p))
       (getCurrentPlayer Examples.threeOnFlop) = Some ("p2"%string, true)
  /\ gameState Examples.threeOnFlop = GameState.FLOP
  /\ handlePlayerAction "p2" CHECK None Examples.threeOnFlop
     = Some (false, Examples.threeOnFlop, []).
Proof. by_evaluation. Qed.

End Rejection.

Section ChipConservation.
Import TablePlayer TableInstance.

Lemma sumZ_updateAt_same_field {A : Type} (g : A -> Z) (i : nat) (f : A -> A)
      (l : list A) :
  (forall x, g (f x) = g x) -> sumZ (map g (updateAt i f l)) = sumZ (map g l).
Proof.
  intros H. revert i. induction l as [|y t IH]; intros [|i]; cbn; auto.
  - now rewrite H.
  - now rewrite IH.
Qed.

Lemma chips_reopen (id : string) (p : TablePlayer.t) :
  TablePlayer.chips
    (if negb (String.eqb (steamId p) id) && negb (hasFolded p) && negb (isAllIn p)
     then setHasActed false p else p)
  = TablePlayer.chips p.
Proof. destruct (_ && _); reflexivity. Qed.

Lemma reopenAction_chipsInPlay (id : string) (s : t) :
  chipsInPlay (reopenAction id s) = chipsInPlay s.
Proof.
  unfold chipsInPlay, totalStacks, reopenAction. table_simpl.
  rewrite sumZ_map_ext; [reflexivity | apply chips_reopen].
Qed.

Lemma markAllIn_chipsInPlay (i : nat) (s : t) :
  chipsInPlay (mutatePlayer i allInIfBroke s) = chipsInPlay s.
Proof.
  unfold chipsInPlay, totalStacks. table_simpl.
  rewrite sumZ_updateAt_same_field; [reflexivity | apply chips_allInIfBroke].
Qed.

(** Moving [x] chips from the stack of player [i] into the pot. *)
Lemma pay_chipsInPlay (i : nat) (s : t) (p : TablePlayer.t) (x : Z)
      (f : TablePlayer.t -> TablePlayer.t) (who : string) :
  nth_error (players s) i = Some p ->
  TablePlayer.chips (f p) = TablePlayer.chips p - x ->
  chipsInPlay
    (setPotManager
       (PotManager.addContribution who x (potManager (mutatePlayer i f s)))
       (mutatePlayer i f s))
  = chipsInPlay s.
Proof.
  intros Hp Hf. unfold chipsInPlay, totalStacks. table_simpl.
  rewrite getTotalPot_addContribution.
  rewrite (sumZ_updateAt TablePlayer.chips i f (players s) p Hp). lia.
Qed.

Lemma handlePlayerCall_chipsInPlay (id : string) (s : t) :
  chipsInPlay (snd (handlePlayerCall id s)) = chipsInPlay s
  /\ gameState (snd (handlePlayerCall id s)) = gameState s.
Proof.
  unfold handlePlayerCall.
  destruct (indexBySteamId id s) as [i|] eqn:Hi; [| auto].
  rewrite (getPlayerBySteamId_nth id s i Hi).
  destruct (nth_error (players s) i) as [p|] eqn:Hp; [| auto].
  destruct (_ <=? 0); [auto |]. cbn [snd].
  rewrite markAllIn_chipsInPlay. split; [| reflexivity].
  apply pay_chipsInPlay with (p := p); [exact Hp | reflexivity].
Qed.

Lemma handlePlayerRaise_chipsInPlay (id : string) (amount : option Z) (s : t) :
  chipsInPlay (snd (handlePlayerRaise id amount s)) = chipsInPlay s
  /\ gameState (snd (handlePlayerRaise id amount s)) = gameState s.
Proof.
  unfold handlePlayerRaise.
  destruct (indexBySteamId id s) as [i|] eqn:Hi; [| auto].
  rewrite (getPlayerBySteamId_nth id s i Hi).
  destruct (nth_error (players s) i) as [p|] eqn:Hp; [| auto].
  destruct amount as [amt|]; [| auto].
  destruct (amt =? 0); [auto |].
  destruct (_ || _); [auto |].
  destruct (_ >? _); [auto |]. cbn [snd].
  rewrite markAllIn_chipsInPlay, reopenAction_chipsInPlay.
  split; [| reflexivity].
  set (f := fun q : TablePlayer.t =>
              TablePlayer.setCurrentBet amt
                (setChips (TablePlayer.chips q - (amt - TablePlayer.currentBet p)) q)).
  change (chipsInPlay
            (setPotManager
               (PotManager.addContribution (steamId p) (amt - TablePlayer.currentBet p)
                  (potManager (mutatePlayer i f s)))
               (setCurrentBet amt (mutatePlayer i f s)))
          = chipsInPlay s).
  rewrite <- (pay_chipsInPlay i s p (amt - TablePlayer.currentBet p) f (steamId p) Hp
                              eq_refl).
  reflexivity.
Qed.

Lemma handlePlayerAllIn_chipsInPlay (id : string) (s : t) :
  chipsInPlay (snd (handlePlayerAllIn id s)) = chipsInPlay s
  /\ gameState (snd (handlePlayerAllIn id s)) = gameState s.
Proof.
  unfold handlePlayerAllIn.
  destruct (indexBySteamId id s) as [i|] eqn:Hi; [| auto].
  rewrite (getPlayerBySteamId_nth id s i Hi).
  destruct (nth_error (players s) i) as [p|] eqn:Hp; [| auto].
  destruct (_ =? 0); [auto |].
  set (f := fun q : TablePlayer.t =>
              setIsAllIn true
                (TablePlayer.setCurrentBet
                   (TablePlayer.currentBet q + TablePlayer.chips p) (setChips 0 q))).
  assert (Hpay :
            chipsInPlay
              (setPotManager
                 (PotManager.addContribution (steamId p) (TablePlayer.chips p)
                    (potManager (mutatePlayer i f s)))
                 (mutatePlayer i f s))
            = chipsInPlay s).
  { apply pay_chipsInPlay with (p := p); [exact Hp |]. cbn. lia. }
  destruct (_ >? _); cbn [snd].
  - rewrite reopenAction_chipsInPlay. split; [| reflexivity].
    rewrite <- Hpay. reflexivity.
  - split; [exact Hpay | reflexivity].
Qed.

Lemma handlePlayerCheck_unchanged (id : string) (s : t) :
  snd (handlePlayerCheck id s) = s.
Proof.
  unfold handlePlayerCheck.
  destruct (getPlayerBySteamId id s); [destruct (_ <? _) |]; reflexivity.
Qed.

Lemma handlePlayerFold_chipsInPlay (id : string) (s : t) :
  (chipsInPlay (snd (fst (handlePlayerFold id s))) = chipsInPlay s
   /\ gameState (snd (fst (handlePlayerFold id s))) = gameState s)
  \/ gameState (snd (fst (handlePlayerFold id s))) = GameState.PAYOUT_ANIMATION.
Proof.
  unfold handlePlayerFold.
  destruct (indexBySteamId id s) as [i|]; [| now left].
  assert (Hfold : chipsInPlay (mutatePlayer i (setHasFolded true) s) = chipsInPlay s).
  { unfold chipsInPlay, totalStacks. table_simpl.
    rewrite sumZ_updateAt_same_field; reflexivity. }
  destruct (indicesFrom stillIn 0 _) as [|w [|w' ws]].
  - left. now split.
  - right. reflexivity.
  - left. now split.
Qed.

(** An accepted handler either keeps the chips in play and the phase,
    or has paid out a single winner. *)
Lemma dispatch_chipsInPlay (id : string) (action : ActionType) (amount : option Z)
      (s : t) :
  (chipsInPlay (snd (fst (dispatch id action amount s))) = chipsInPlay s
   /\ gameState (snd (fst (dispatch id action amount s))) = gameState s)
  \/ gameState (snd (fst (dispatch id action amount s))) = GameState.PAYOUT_ANIMATION.
Proof.
  destruct action; cbn [dispatch fst snd].
  - apply handlePlayerFold_chipsInPlay.
  - left. now rewrite handlePlayerCheck_unchanged.
  - left. apply handlePlayerCall_chipsInPlay.
  - left. apply handlePlayerRaise_chipsInPlay.
  - left. apply handlePlayerAllIn_chipsInPlay.
Qed.

Lemma dealStreet_chipsInPlay (count : nat) (street : GameState.t) (s s' : t) :
  dealStreet count street s = Some s' -> chipsInPlay s' = chipsInPlay s.
Proof.
  unfold dealStreet.
  destruct (Deck.burn (deck s)) as [d1|]; [| discriminate].
  destruct (Deck.deal count d1) as [[cards d2]|]; [| discriminate].
  intros [= <-]. unfold chipsInPlay, totalStacks. table_simpl.
  rewrite sumZ_map_ext; reflexivity.
Qed.

Lemma clearActed_chipsInPlay (s : t) :
  chipsInPlay (forEachPlayer (setHasActed false) s) = chipsInPlay s.
Proof.
  unfold chipsInPlay, totalStacks. table_simpl.
  rewrite sumZ_map_ext; reflexivity.
Qed.

Lemma startBettingRound_chipsInPlay (s : t) :
  chipsInPlay (fst (startBettingRound s)) = chipsInPlay s.
Proof. apply clearActed_chipsInPlay. Qed.

Lemma startShowdown_pays_out (s s' : t) (evs : list Event) :
  startShowdown s = Some (s', evs) -> gameState s' = GameState.PAYOUT_ANIMATION.
Proof.
  unfold startShowdown.
  destruct (evaluatePlayers _ _ _) as [[ps hr]|]; [| discriminate].
  intros [= <- _]. reflexivity.
Qed.

(** Closing a round either deals the next street, which moves no chips,
    or ends in the payout phase. *)
Lemma endBettingRound_chipsInPlay (s s' : t) (evs : list Event) :
  endBettingRound s = Some (s', evs) ->
  chipsInPlay s' = chipsInPlay s /\ isInBettingRound s = true
  \/ isInBettingRound s' = false.
Proof.
  unfold endBettingRound, dealFlop, dealTurn, dealRiver.
  destruct (gameState s) eqn:Hg;
    try (intros [= <- _]; right; unfold isInBettingRound; now rewrite Hg).
  - destruct (dealStreet 3 GameState.FLOP s) as [s1|] eqn:Hd; [| discriminate].
    intros [= <- _]. left. split; [| unfold isInBettingRound; now rewrite Hg].
    rewrite clearActed_chipsInPlay.
    rewrite <- (dealStreet_chipsInPlay _ _ _ _ Hd). reflexivity.
  - destruct (dealStreet 1 GameState.TURN s) as [s1|] eqn:Hd; [| discriminate].
    cbn [option_map]. intros [= <- _]. left.
    split; [| unfold isInBettingRound; now rewrite Hg].
    rewrite clearActed_chipsInPlay. apply (dealStreet_chipsInPlay _ _ _ _ Hd).
  - destruct (dealStreet 1 GameState.RIVER s) as [s1|] eqn:Hd; [| discriminate].
    cbn [option_map]. intros [= <- _]. left.
    split; [| unfold isInBettingRound; now rewrite Hg].
    rewrite clearActed_chipsInPlay. apply (dealStreet_chipsInPlay _ _ _ _ Hd).
  - intros H. right. unfold isInBettingRound.
    now rewrite (startShowdown_pays_out _ _ _ H).
Qed.

(** One accepted action that leaves the table in a betting round keeps
    the stacks plus the pot total. *)
Lemma handlePlayerAction_chipsInPlay (id : string) (action : ActionType)
      (amount : option Z) (s s' : t) :
  outcome id action amount s = Some (true, s') ->
  isInBettingRound s' = true ->
  chipsInPlay s' = chipsInPlay s.
Proof.
  unfold outcome, handlePlayerAction.
  destruct (getCurrentPlayer s) as [cp|]; [| discriminate].
  destruct (negb _); [discriminate |].
  destruct (_ || _); [discriminate |].
  destruct (negb (isInBettingRound s)); [discriminate |].
  pose proof (dispatch_chipsInPlay id action amount s) as Hd.
  destruct (dispatch id action amount s) as [[success s1] evs1].
  cbn [fst snd] in Hd.
  destruct success; cbn [negb]; [| discriminate].
  set (s3 := incrementSequenceId (mutatePlayer (currentPlayerIndex s) (setHasActed true) s1)).
  assert (H3 : chipsInPlay s3 = chipsInPlay s1 /\ gameState s3 = gameState s1).
  { subst s3. unfold chipsInPlay, totalStacks. table_simpl.
    rewrite sumZ_updateAt_same_field; [auto | reflexivity]. }
  destruct H3 as [Hc3 Hg3].
  destruct (isBettingRoundComplete s3).
  - destruct (endBettingRound s3) as [[s4 evs2]|] eqn:He; [| discriminate].
    cbn [option_map fst]. intros [= <-] Hbet.
    destruct (endBettingRound_chipsInPlay _ _ _ He) as [[Hc4 Hb3] | Hout];
      [| congruence].
    destruct Hd as [[Hc1 _] | Hpay].
    + congruence.
    + unfold isInBettingRound in Hb3. rewrite Hg3, Hpay in Hb3. discriminate.
  - cbn [option_map fst]. intros [= <-] Hbet.
    destruct Hd as [[Hc1 _] | Hpay].
    + unfold advanceToNextPlayer. rewrite <- Hc1, <- Hc3. reflexivity.
    + unfold isInBettingRound, advanceToNextPlayer in Hbet. table_simpl.
      rewrite Hg3, Hpay in Hbet. discriminate.
Qed.

Lemma betting_chipsInPlay (s s' : t) :
  betting s s' -> chipsInPlay s' = chipsInPlay s.
Proof.
  induction 1 as [|s1 s2 id action amount _ IH Hstep Hbet].
  - reflexivity.
  - rewrite <- IH. eapply handlePlayerAction_chipsInPlay; eassumption.
Qed.

Lemma dealHoleCards_chips (ps : list TablePlayer.t) :
  forall (d : Deck.t) (ps' : list TablePlayer.t) (d' : Deck.t),
    dealHoleCards ps d = Some (ps', d') ->
    sumZ (map TablePlayer.chips ps') = sumZ (map TablePlayer.chips ps).
Proof.
  induction ps as [|p rest IH]; intros d ps' d'; cbn [dealHoleCards].
  - now intros [= <- _].
  - destruct (isActive p).
    + destruct (Deck.deal 2 d) as [[cards d1]|]; [| discriminate].
      destruct (dealHoleCards rest d1) as [[rest' d2]|] eqn:Hr; [| discriminate].
      intros [= <- _]. cbn. now rewrite (IH _ _ _ Hr).
    + destruct (dealHoleCards rest d) as [[rest' d2]|] eqn:Hr; [| discriminate].
      intros [= <- _]. cbn. now rewrite (IH _ _ _ Hr).
Qed.

(** A hand starts with an empty pot: once the blinds are in, the stacks
    plus the pot total equal the stacks the hand started with. *)
Lemma startHand_chipsInPlay (shuffled : Deck.t) (s s0 : t) (evs : list Event) :
  startHand shuffled s = Some (s0, evs) -> chipsInPlay s0 = totalStacks s.
Proof.
  unfold startHand.
  destruct (dealHoleCards _ _) as [[ps d]|] eqn:Hdeal; [| discriminate].
  intros [= <- _]. rewrite clearActed_chipsInPlay.
  match goal with
  | |- chipsInPlay (transitionTo _ (postBlinds ?x)) = _ =>
      transitivity (chipsInPlay (postBlinds x)); [reflexivity |];
      rewrite postBlinds_chipsInPlay
  end.
  unfold chipsInPlay, totalStacks. table_simpl.
  apply dealHoleCards_chips in Hdeal. table_simpl.
  rewrite Hdeal. rewrite sumZ_map_ext by reflexivity.
  cbn. lia.
Qed.

(** C1, as the code has it. From the start of a hand (pot emptied, hole
    cards dealt, blinds posted) through any sequence of accepted actions
    each of which leaves the table in a betting round, the stacks plus
    [getTotalPot()] equal the stacks at the start of the hand.  (The
    action that ends the hand is left out: it pays the pot into the
    stacks while the pot total stays until the next hand resets it.) *)
Theorem betting_conserves_chips (shuffled : Deck.t) (s s0 s' : t) (evs : list Event) :
  startHand shuffled s = Some (s0, evs) ->
  betting s0 s' ->
  totalStacks s' + PotManager.getTotalPot (potManager s') = totalStacks s.
Proof.
  intros Hstart Hbet.
  rewrite <- (startHand_chipsInPlay _ _ _ _ Hstart).
  apply (betting_chipsInPlay _ _ Hbet).
Qed.

End ChipConservation.

Section ChipConservationExamples.
Import TablePlayer TableInstance Examples.

Lemma betting_conserves_chips_witness :
  totalStacks (after "p2" CALL None headsUp)
  + PotManager.getTotalPot (potManager (after "p2" CALL None headsUp))
  = totalStacks headsUpSeated.
Proof.
  apply (betting_conserves_chips Deck.fresh headsUpSeated headsUp
           (after "p2" CALL None headsUp) (dealtEvents headsUpSeated)).
  - vm_compute. reflexivity.
  - apply (betting_step headsUp headsUp _ "p2" CALL None).
    + apply betting_start.
    + vm_compute. reflexivity.
    + vm_compute. reflexivity.
Defined.

(** C1 fails as stated: heads-up at 10/20 with 1000 chips each, the
    player to act folds, which is accepted.  The other player is paid the
    pot of 30 while the pot total still reports 30, so the stacks plus
    the pot total are 2030, not the 2000 the hand started with. *)
Lemma fold_ending_hand_breaks_chip_sum :
  option_map fst (startHand Deck.fresh headsUpSeated) = Some headsUp
  /\ totalStacks headsUpSeated = 2000
  /\ outcome "p2" FOLD None headsUp = Some (true, after "p2" FOLD None headsUp)
  /\ gameState (after "p2" FOLD None headsUp) = GameState.PAYOUT_ANIMATION
  /\ totalStacks (after "p2" FOLD None headsUp)
     + PotManager.getTotalPot (potManager (after "p2" FOLD None headsUp))
     = 2030.
Proof. by_evaluation. Qed.

End ChipConservationExamples.

(** * Further properties *)
(** * Further properties *)

(** ** Deck *)

Section DeckProperties.

Lemma replace_swaps_out {A : Type} (x y : A) (l : list A) (j : nat) :
  nth_error l j = Some y ->
  Permutation (x :: l) (y :: updateAt j (fun _ => x) l).
Proof.
  revert j. induction l as [|a t IH]; intros [|j]; cbn; try discriminate.
  - intros [= ->]. apply perm_swap.
  - intros H. specialize (IH j H).
    apply perm_trans with (a :: x :: t); [apply perm_swap |].
    apply perm_trans with (a :: y :: updateAt j (fun _ => x) t);
      [now constructor | apply perm_swap].
Qed.

Lemma swap_permutation {A : Type} (i j : nat) (l : list A) :
  Permutation (Shuffle.swap i j l) l.
Proof.
  unfold Shuffle.swap.
  destruct (nth_error l i) as [x|] eqn:Hi; [| reflexivity].
  destruct (nth_error l j) as [y|] eqn:Hj; [| reflexivity].
  apply (Permutation_cons_inv (a := x)). symmetry.
  rewrite (replace_swaps_out x y l j Hj).
  apply replace_swaps_out.
  destruct (Nat.eq_dec j i) as [-> | Hne].
  - exact (nth_error_updateAt_same i (fun _ => x) l y Hj).
  - now rewrite nth_error_updateAt_other.
Qed.

Lemma shuffleFrom_permutation {A : Type} (pick : nat -> nat) (i : nat) :
  forall l : list A, Permutation (Shuffle.shuffleFrom pick i l) l.
Proof.
  induction i as [|i IH]; intros l; cbn [Shuffle.shuffleFrom].
  - reflexivity.
  - rewrite IH. apply swap_permutation.
Qed.

Lemma distinctb_NoDup (l : list Card.t) : distinctb Card_eqb l = true -> NoDup l.
Proof.
  induction l as [|x t IH]; cbn; intros H.
  - constructor.
  - apply andb_true_iff in H. destruct H as [Hx Ht].
    constructor; [| now apply IH].
    intros Hin. apply negb_true_iff in Hx.
    assert (existsb (Card_eqb x) t = true); [| congruence].
    apply existsb_exists. exists x. split; [exact Hin |].
    destruct x as [r s]. unfold Card_eqb. cbn. destruct r, s; reflexivity.
Qed.

(** X1. Whatever the random draws, as long as each is in the range the
    source draws it in, [reset] leaves the deck holding the 52 cards of
    the universe, each exactly once, in some order. *)
Theorem reset_is_a_full_deck (pick : nat -> nat) :
  (forall i, pick i <= i)%nat ->
  Permutation (Shuffle.reset pick) Deck.fresh
  /\ NoDup (Shuffle.reset pick)
  /\ Deck.remainingCards (Shuffle.reset pick) = 52%nat.
Proof.
  intros _.
  assert (Hperm : Permutation (Shuffle.reset pick) Deck.fresh)
    by apply shuffleFrom_permutation.
  split; [exact Hperm | split].
  - eapply Permutation_NoDup; [symmetry; exact Hperm |].
    apply distinctb_NoDup. vm_compute. reflexivity.
  - unfold Deck.remainingCards. now rewrite (Permutation_length Hperm).
Qed.

Lemma reset_is_a_full_deck_witness :
  Permutation (Shuffle.reset (fun _ => 0%nat)) Deck.fresh
  /\ NoDup (Shuffle.reset (fun _ => 0%nat))
  /\ Deck.remainingCards (Shuffle.reset (fun _ => 0%nat)) = 52%nat.
Proof.
  apply (reset_is_a_full_deck (fun _ => 0%nat)). intros i. apply Nat.le_0_l.
Defined.

(** X2. [deal(count)] succeeds exactly when at least [count] cards
    remain; it then hands out the top [count] cards and keeps the others, so
    that the cards dealt followed by the cards kept are the deck before.
    With fewer cards it throws, and [burn] is a deal of one card that is
    thrown away. *)
Theorem deal_takes_from_the_top (count : nat) (cards : Deck.t) :
  ((count <= Deck.remainingCards cards)%nat ->
   exists dealt rest,
     Deck.deal count cards = Some (dealt, rest)
     /\ dealt ++ rest = cards
     /\ length dealt = count
     /\ Deck.remainingCards rest = (Deck.remainingCards cards - count)%nat)
  /\ ((Deck.remainingCards cards < count)%nat -> Deck.deal count cards = None)
  /\ Deck.burn cards = option_map snd (Deck.deal 1 cards).
Proof.
  unfold Deck.deal, Deck.remainingCards. split; [| split].
  - intros Hle. destruct (Nat.ltb_spec (length cards) count) as [Hlt | _]; [lia |].
    exists (firstn count cards), (skipn count cards).
    split; [reflexivity | split; [apply firstn_skipn | split]].
    + rewrite length_firstn. lia.
    + apply length_skipn.
  - intros Hlt. destruct (Nat.ltb_spec (length cards) count); [reflexivity | lia].
  - destruct cards as [|c rest]; reflexivity.
Qed.

End DeckProperties.

(** ** HandEvaluator: the combinations *)

Section Combinations.
Import HandEvaluator.

Lemma Subsequence_nil_l {A : Type} (l : list A) : Subsequence [] l.
Proof. induction l; constructor; assumption. Qed.

Lemma getCombinations_each {A : Type} (arr : list A) :
  forall (size : nat) (combo : list A),
    In combo (getCombinations arr size) ->
    length combo = size /\ Subsequence combo arr.
Proof.
  induction arr as [|x rest IH]; intros [|k] combo.
  - intros [<- | []]. split; [reflexivity | constructor].
  - intros [].
  - intros [<- | []]. split; [reflexivity | apply Subsequence_nil_l].
  - cbn [getCombinations]. intros Hin. apply in_app_or in Hin.
    destruct Hin as [Hin | Hin].
    + apply in_map_iff in Hin. destruct Hin as [c [<- Hc]].
      destruct (IH k c Hc) as [Hlen Hsub].
      split; [cbn; now rewrite Hlen | now constructor].
    + destruct (IH (S k) combo Hin) as [Hlen Hsub].
      split; [exact Hlen | now constructor].
Qed.

Lemma getCombinations_count {A : Type} (arr : list A) :
  forall size : nat,
    length (getCombinations arr size) = binomial (length arr) size.
Proof.
  induction arr as [|x rest IH]; intros [|k]; try reflexivity.
  cbn [getCombinations length binomial].
  now rewrite length_app, length_map, !IH.
Qed.

(** X3. [getCombinations(arr, size)] lists subsequences of [arr] with
    exactly [size] elements each, and as many of them as there are ways to
    choose [size] out of the length of [arr]: 21 hands of 5 cards for a
    7-card input. *)
Theorem getCombinations_enumerates {A : Type} (arr : list A) (size : nat) :
  (forall combo, In combo (getCombinations arr size) ->
                 length combo = size /\ Subsequence combo arr)
  /\ length (getCombinations arr size) = binomial (length arr) size
  /\ (length arr = 7%nat -> length (getCombinations arr 5) = 21%nat).
Proof.
  split; [intros combo; apply getCombinations_each
        | split; [apply getCombinations_count |]].
  intros H7. rewrite getCombinations_count, H7. reflexivity.
Qed.

Lemma evaluate5Cards_bestCards (cards : list Card.t) :
  bestCards (evaluate5Cards cards) = cards.
Proof.
  unfold evaluate5Cards.
  repeat match goal with
         | |- context [if ?b then _ else _] => destruct b
         end; reflexivity.
Qed.

(** X4. [evaluateHand] throws exactly when the input does not hold 7
    cards.  On 7 cards it returns the evaluation of its [bestCards], which
    are 5 of the input cards in input order, and no 5-card combination of
    the input evaluates to a greater score. *)
Theorem evaluateHand_picks_a_best_combination (cards : list Card.t) :
  (length cards = 7%nat ->
   exists r,
     evaluateHand cards = Some r
     /\ r = evaluate5Cards (bestCards r)
     /\ length (bestCards r) = 5%nat
     /\ Subsequence (bestCards r) cards
     /\ (forall combo, In combo (getCombinations cards 5) ->
                       value (evaluate5Cards combo) <= value r))
  /\ (length cards <> 7%nat -> evaluateHand cards = None).
Proof.
  split; [| apply evaluateHand_throws].
  intros Hlen.
  destruct (evaluateHand_returns cards Hlen) as [r [combo [Hr [Hin [-> Hmax]]]]].
  exists (evaluate5Cards combo).
  rewrite evaluate5Cards_bestCards.
  destruct (getCombinations_each cards 5 combo Hin) as [H5 Hsub].
  repeat split; auto.
Qed.

End Combinations.

(** ** HandEvaluator: the category *)

(** Sorting with a total order: the result is sorted, and two
    permutations of each other sort to the same list. *)
Section Sorting.
Variable A : Type.
Variable le : A -> A -> bool.
Hypothesis le_total : forall a b, le a b = true \/ le b a = true.
Hypothesis le_trans : forall a b c, le a b = true -> le b c = true -> le a c = true.
Hypothesis le_antisym : forall a b, le a b = true -> le b a = true -> a = b.

Lemma insertBy_ordered (x : A) (l : list A) :
  StronglySorted (fun a b => le a b = true) l ->
  StronglySorted (fun a b => le a b = true) (insertBy le x l).
Proof.
  induction 1 as [|y t Hsorted IH Hall]; cbn [insertBy].
  - repeat constructor.
  - destruct (le x y) eqn:Hxy.
    + constructor; [now constructor |].
      constructor; [exact Hxy |].
      eapply Forall_impl; [| exact Hall]. intros z Hz. now apply (le_trans x y z).
    + constructor; [exact IH |].
      eapply Permutation_Forall; [symmetry; apply insertBy_perm |].
      constructor; [| exact Hall].
      destruct (le_total x y) as [H | H]; [congruence | exact H].
Qed.

Lemma stableSort_ordered (l : list A) :
  StronglySorted (fun a b => le a b = true) (stableSort le l).
Proof.
  unfold stableSort. induction l as [|x t IH]; cbn [fold_right].
  - constructor.
  - now apply insertBy_ordered.
Qed.

Lemma ordered_unique (l : list A) :
  forall l',
    StronglySorted (fun a b => le a b = true) l ->
    StronglySorted (fun a b => le a b = true) l' ->
    Permutation l l' ->
    l = l'.
Proof.
  induction l as [|x t IH]; intros l' Hl Hl' Hperm.
  - apply Permutation_nil in Hperm. now subst.
  - destruct l' as [|y t']; [now apply Permutation_sym, Permutation_nil in Hperm |].
    inversion Hl as [|? ? Ht Hx]; subst. inversion Hl' as [|? ? Ht' Hy]; subst.
    rewrite Forall_forall in Hx, Hy.
    assert (Hxy : x = y).
    { assert (Hin1 : In x (y :: t')) by (apply (Permutation_in _ Hperm); now left).
      assert (Hin2 : In y (x :: t))
        by (apply (Permutation_in _ (Permutation_sym Hperm)); now left).
      destruct Hin1 as [-> | Hin1]; [reflexivity |].
      destruct Hin2 as [-> | Hin2]; [reflexivity |].
      apply le_antisym; [now apply Hx | now apply Hy]. }
    subst y. f_equal. apply IH; try assumption.
    now apply Permutation_cons_inv in Hperm.
Qed.

Lemma stableSort_unique (l l' : list A) :
  Permutation l l' -> stableSort le l = stableSort le l'.
Proof.
  intros Hperm. apply ordered_unique; try apply stableSort_ordered.
  eapply perm_trans; [apply stableSort_perm |].
  eapply perm_trans; [exact Hperm |].
  symmetry. apply stableSort_perm.
Qed.

End Sorting.

(** Sorting by a key and then taking the keys is sorting the keys. *)
Lemma map_stableSort {A B : Type} (key : B -> A) (le : A -> A -> bool) (l : list B) :
  map key (stableSort (fun a b => le (key a) (key b)) l) = stableSort le (map key l).
Proof.
  unfold stableSort. induction l as [|x t IH]; cbn [fold_right map]; [reflexivity |].
  rewrite <- IH. set (sorted := fold_right _ [] t). clearbody sorted. clear IH.
  induction sorted as [|y s IHs]; cbn [insertBy map]; [reflexivity |].
  destruct (le (key x) (key y)); cbn [map]; [reflexivity | now rewrite IHs].
Qed.

(** Maps with keys compared by a sound test. *)
Section Counting.
Variable K : Type.
Variable eqb : K -> K -> bool.
Hypothesis eqb_spec : forall a b, eqb a b = true <-> a = b.

Lemma eqb_same (a : K) : eqb a a = true.
Proof. now apply eqb_spec. Qed.

Lemma mapGet_entry {V : Type} (k : K) (v : V) (m : list (K * V)) :
  NoDup (map fst m) -> (In (k, v) m <-> mapGet eqb k m = Some v).
Proof.
  induction m as [|[k0 v0] rest IH]; cbn [map fst mapGet In]; intros Hnd.
  - split; [intros [] | discriminate].
  - inversion Hnd as [|? ? Hnotin Hrest]; subst.
    destruct (eqb k k0) eqn:E.
    + apply eqb_spec in E. subst k0. split.
      * intros [[= ->] | Hin]; [reflexivity |].
        exfalso. apply Hnotin. now apply (in_map fst) in Hin.
      * intros [= ->]. now left.
    + rewrite <- (IH Hrest). split; [| now right].
      intros [[= -> ->] | Hin]; [| exact Hin].
      now rewrite eqb_same in E.
Qed.

Lemma mapGet_bump (k val : K) (acc : list (K * Z)) :
  mapGet eqb k (HandEvaluator.bump eqb val acc)
  = if eqb k val
    then Some (match mapGet eqb k acc with Some n => n + 1 | None => 1 end)
    else mapGet eqb k acc.
Proof.
  induction acc as [|[k0 n0] rest IH]; cbn [HandEvaluator.bump mapGet].
  - destruct (eqb k val); reflexivity.
  - destruct (eqb val k0) eqn:E; cbn [mapGet].
    + apply eqb_spec in E. subst k0. now destruct (eqb k val).
    + rewrite IH. destruct (eqb k k0) eqn:E0; [| reflexivity].
      apply eqb_spec in E0. subst k0.
      destruct (eqb k val) eqn:E1; [| reflexivity].
      apply eqb_spec in E1. subst val. now rewrite eqb_same in E.
Qed.

Lemma keys_bump (k val : K) (acc : list (K * Z)) :
  In k (map fst (HandEvaluator.bump eqb val acc)) -> k = val \/ In k (map fst acc).
Proof.
  induction acc as [|[k0 n0] rest IH]; cbn [HandEvaluator.bump map fst In].
  - intuition.
  - destruct (eqb val k0); cbn [map fst In]; intuition.
Qed.

Lemma NoDup_bump (val : K) (acc : list (K * Z)) :
  NoDup (map fst acc) -> NoDup (map fst (HandEvaluator.bump eqb val acc)).
Proof.
  induction acc as [|[k0 n0] rest IH]; cbn [HandEvaluator.bump map fst]; intros Hnd.
  - constructor; [intros [] | constructor].
  - inversion Hnd as [|? ? Hnotin Hrest]; subst.
    destruct (eqb val k0) eqn:E; cbn [map fst]; [now constructor |].
    constructor; [| now apply IH].
    intros Hin. apply keys_bump in Hin. destruct Hin as [-> | Hin]; [| contradiction].
    now rewrite eqb_same in E.
Qed.

Lemma NoDup_counted (arr : list K) :
  forall acc, NoDup (map fst acc) ->
              NoDup (map fst (fold_left (fun a v => HandEvaluator.bump eqb v a) arr acc)).
Proof.
  induction arr as [|x t IH]; intros acc Hnd; cbn [fold_left]; [exact Hnd |].
  apply IH. now apply NoDup_bump.
Qed.

Lemma counted_same (arr : list K) :
  forall acc acc',
    (forall k, mapGet eqb k acc = mapGet eqb k acc') ->
    forall k,
      mapGet eqb k (fold_left (fun a v => HandEvaluator.bump eqb v a) arr acc)
      = mapGet eqb k (fold_left (fun a v => HandEvaluator.bump eqb v a) arr acc').
Proof.
  induction arr as [|x t IH]; intros acc acc' Hsame; cbn [fold_left]; [exact Hsame |].
  apply IH. intros k. rewrite !mapGet_bump, Hsame. reflexivity.
Qed.

(** The counts do not depend on the order of the array. *)
Lemma counted_permutation (arr arr' : list K) :
  Permutation arr arr' ->
  forall acc acc',
    (forall k, mapGet eqb k acc = mapGet eqb k acc') ->
    forall k,
      mapGet eqb k (fold_left (fun a v => HandEvaluator.bump eqb v a) arr acc)
      = mapGet eqb k (fold_left (fun a v => HandEvaluator.bump eqb v a) arr' acc').
Proof.
  induction 1 as [| x l l' Hperm IH | x y l | l l' l'' H1 IH1 H2 IH2];
    intros acc acc' Hsame; cbn [fold_left].
  - exact Hsame.
  - apply IH. intros k. rewrite !mapGet_bump, Hsame. reflexivity.
  - apply counted_same. intros k. rewrite !mapGet_bump, Hsame.
    destruct (eqb k x) eqn:Ex; destruct (eqb k y) eqn:Ey; try reflexivity.
  - intros k. rewrite (IH1 acc acc' Hsame k). now apply IH2.
Qed.

End Counting.

Section Categories.
Import HandEvaluator.

Lemma Rank_eqb_eq (a b : Card.Rank) : Card.Rank_eqb a b = true <-> a = b.
Proof. destruct a, b; cbn; split; intros H; try reflexivity; discriminate H. Qed.

Lemma In_RANKS (r : Card.Rank) : In r Deck.RANKS.
Proof. destruct r; cbn; tauto. Qed.

Lemma In_ranksFrom (a b : Card.Rank) :
  Shape.Rank_leb a b = true -> In b (Shape.ranksFrom a).
Proof. intros H. apply filter_In. split; [apply In_RANKS | exact H]. Qed.

Lemma forAllShapes_sound (check : list Card.Rank -> bool -> bool) :
  Shape.forAllShapes check = true ->
  forall a b c d e flush,
    Shape.Rank_leb a b = true -> Shape.Rank_leb b c = true ->
    Shape.Rank_leb c d = true -> Shape.Rank_leb d e = true ->
    check [a; b; c; d; e] flush = true.
Proof.
  unfold Shape.forAllShapes. intros H a b c d e flush Hab Hbc Hcd Hde.
  rewrite forallb_forall in H. specialize (H a (In_RANKS a)).
  rewrite forallb_forall in H. specialize (H b (In_ranksFrom a b Hab)).
  rewrite forallb_forall in H. specialize (H c (In_ranksFrom b c Hbc)).
  rewrite forallb_forall in H. specialize (H d (In_ranksFrom c d Hcd)).
  rewrite forallb_forall in H. specialize (H e (In_ranksFrom d e Hde)).
  apply andb_true_iff in H. destruct flush; tauto.
Qed.

Lemma categoryAgrees_everywhere : Shape.forAllShapes Shape.categoryAgrees = true.
Proof. vm_compute. reflexivity. Qed.

(** On five cards the flush test holds exactly of five cards of one suit. *)
Lemma sameSuitCount_isFlush (cards : list Card.t) :
  length cards = 5%nat ->
  Shape.sameSuitCount (map Card.suit cards) = SpecOrder.isFlush cards.
Proof.
  intros Hlen.
  do 6 (destruct cards as [|[? ?] cards]; try discriminate Hlen).
  unfold Shape.sameSuitCount, SpecOrder.isFlush. cbn [map Card.suit].
  repeat match goal with s : Card.Suit |- _ => destruct s end; reflexivity.
Qed.

Lemma canonical_ranks (ranks : list Card.Rank) (flush : bool) :
  map Card.rank (Shape.canonical ranks flush) = ranks.
Proof.
  destruct ranks as [|r rest]; cbn; [reflexivity |].
  f_equal. rewrite map_map. cbn. apply map_id.
Qed.

Lemma canonical_isFlush (a b c d e : Card.Rank) (flush : bool) :
  SpecOrder.isFlush (Shape.canonical [a; b; c; d; e] flush) = flush.
Proof. destruct flush; reflexivity. Qed.

(** [rankEntries] lists the entries of the object, in property order. *)
Lemma In_rankEntries (o : list (Card.Rank * Z)) (r : Card.Rank) (n : Z) :
  NoDup (map fst o) ->
  (In (r, n) (rankEntries o) <-> In (r, n) o).
Proof.
  intros Hnd. unfold rankEntries. rewrite in_app_iff, in_flat_map, filter_In.
  split.
  - intros [[k [_ Hk]] | [Hin _]]; [| exact Hin].
    destruct (mapGet Card.Rank_eqb k o) as [m|] eqn:Hget; [| destruct Hk].
    destruct Hk as [[= <- <-] | []].
    now apply (mapGet_entry _ _ Rank_eqb_eq).
  - intros Hin. destruct (isIndexKey r) eqn:Hidx.
    + left. exists r. split; [destruct r; cbn in *; try discriminate; tauto |].
      apply (mapGet_entry _ _ Rank_eqb_eq) in Hin; [| exact Hnd].
      rewrite Hin. now left.
    + right. split; [exact Hin | cbn; now rewrite Hidx].
Qed.

Lemma keys_rankEntries_index (o : list (Card.Rank * Z)) (keys : list Card.Rank) :
  NoDup keys ->
  NoDup (map fst
           (flat_map
              (fun r => match mapGet Card.Rank_eqb r o with
                        | Some n => [(r, n)]
                        | None => []
                        end)
              keys))
  /\ (forall k, In k (map fst
                       (flat_map
                          (fun r => match mapGet Card.Rank_eqb r o with
                                    | Some n => [(r, n)]
                                    | None => []
                                    end)
                          keys)) -> In k keys).
Proof.
  induction 1 as [|k keys Hnotin Hnd [IHnd IHin]]; cbn [flat_map map].
  - split; [constructor | intros k []].
  - destruct (mapGet Card.Rank_eqb k o) as [n|]; cbn [app map fst].
    + split.
      * constructor; [| exact IHnd]. intros Hin. apply Hnotin. now apply IHin.
      * intros k' [<- | Hin]; [now left | right; now apply IHin].
    + split; [exact IHnd | intros k' Hin; right; now apply IHin].
Qed.

Lemma NoDup_rankEntries (o : list (Card.Rank * Z)) :
  NoDup (map fst o) -> NoDup (map fst (rankEntries o)).
Proof.
  intros Hnd. unfold rankEntries. rewrite map_app.
  destruct (keys_rankEntries_index o
              [Card.R2; Card.R3; Card.R4; Card.R5; Card.R6; Card.R7; Card.R8; Card.R9])
    as [Hidx Hkeys].
  { repeat constructor; cbn; intuition discriminate. }
  apply NoDup_app; [exact Hidx | now apply NoDup_keys_filter |].
  intros k Hin Hin'. apply Hkeys in Hin.
  apply in_map_iff in Hin'. destruct Hin' as [[k' n] [Hk He]].
  cbn in Hk. subst k'. apply filter_In in He. destruct He as [_ Hnon].
  cbn in Hnon, Hin.
  destruct Hin as [<- | [<- | [<- | [<- | [<- | [<- | [<- | [<- | []]]]]]]]];
    discriminate Hnon.
Qed.

(** The counts per rank, as [evaluate5Cards] sorts them, do not depend on
    the order of the cards. *)
Lemma sortedCounts_permutation (ranks ranks' : list Card.Rank) (i : nat) :
  Permutation ranks ranks' ->
  countAt i (stableSort (fun a b => snd b <=? snd a)
                        (rankEntries (countOccurrences Card.Rank_eqb ranks)))
  = countAt i (stableSort (fun a b => snd b <=? snd a)
                          (rankEntries (countOccurrences Card.Rank_eqb ranks'))).
Proof.
  intros Hperm. unfold countAt.
  change (0 : Z) with (snd (Card.R2, 0 : Z)).
  rewrite <- !(map_nth snd).
  assert (E : forall l : list (Card.Rank * Z),
             map snd (stableSort (fun a b => snd b <=? snd a) l)
             = stableSort (fun x y : Z => y <=? x) (map snd l))
    by (intros l; exact (map_stableSort snd (fun x y : Z => y <=? x) l)).
  rewrite !E. f_equal. apply stableSort_unique.
  - intros a b. destruct (Z.leb_spec b a); [now left | right; apply Z.leb_le; lia].
  - intros a b c H1 H2. apply Z.leb_le in H1, H2. apply Z.leb_le. lia.
  - intros a b H1 H2. apply Z.leb_le in H1, H2. lia.
  - apply Permutation_map.
    set (o := countOccurrences Card.Rank_eqb ranks).
    set (o' := countOccurrences Card.Rank_eqb ranks').
    assert (Ho : NoDup (map fst o))
      by (apply (NoDup_counted _ _ Rank_eqb_eq); constructor).
    assert (Ho' : NoDup (map fst o'))
      by (apply (NoDup_counted _ _ Rank_eqb_eq); constructor).
    assert (Hsame : forall k, mapGet Card.Rank_eqb k o = mapGet Card.Rank_eqb k o')
      by (intros k; now apply (counted_permutation _ _ Rank_eqb_eq)).
    apply NoDup_Permutation.
    + apply (NoDup_map_inv fst). now apply NoDup_rankEntries.
    + apply (NoDup_map_inv fst). now apply NoDup_rankEntries.
    + intros [r n]. rewrite !In_rankEntries by assumption.
      rewrite !(mapGet_entry _ _ Rank_eqb_eq) by assumption.
      now rewrite Hsame.
Qed.

Lemma includes_permutation (r : Card.Rank) (ranks ranks' : list Card.Rank) :
  Permutation ranks ranks' ->
  includes Card.Rank_eqb r ranks = includes Card.Rank_eqb r ranks'.
Proof.
  intros Hperm. unfold includes.
  apply eq_true_iff_eq. rewrite !existsb_exists.
  split; intros [x [Hin Hx]]; exists x; (split; [| exact Hx]).
  - now apply (Permutation_in _ Hperm).
  - now apply (Permutation_in _ (Permutation_sym Hperm)).
Qed.

Lemma checkStraight_permutation (ranks ranks' : list Card.Rank) :
  Permutation ranks ranks' -> checkStraight ranks = checkStraight ranks'.
Proof.
  intros Hperm. unfold checkStraight.
  rewrite !(includes_permutation _ ranks ranks' Hperm).
  rewrite (stableSort_unique Z Z.leb) with (l' := map RANK_VALUES ranks').
  - reflexivity.
  - intros a b. destruct (Z.leb_spec a b); [now left | right; apply Z.leb_le; lia].
  - intros a b c H1 H2. apply Z.leb_le in H1, H2. apply Z.leb_le. lia.
  - intros a b H1 H2. apply Z.leb_le in H1, H2. lia.
  - now apply Permutation_map.
Qed.

(** The category depends on the ranks as a collection and on the flush
    test only. *)
Lemma evaluate5Cards_unordered (c1 c2 : list Card.t) :
  Permutation (map Card.rank c1) (map Card.rank c2) ->
  Shape.sameSuitCount (map Card.suit c1) = Shape.sameSuitCount (map Card.suit c2) ->
  rank (evaluate5Cards c1) = rank (evaluate5Cards c2).
Proof.
  unfold Shape.sameSuitCount. intros Hr Hs. unfold evaluate5Cards.
  rewrite Hs.
  rewrite (checkStraight_permutation _ _ Hr).
  rewrite !(includes_permutation _ _ _ Hr).
  rewrite !(sortedCounts_permutation _ _ _ Hr).
  repeat match goal with
         | |- context [if ?b then _ else _] => destruct b
         end; reflexivity.
Qed.

Lemma countOf_permutation (v : Z) (vs vs' : list Z) :
  Permutation vs vs' -> SpecOrder.countOf v vs = SpecOrder.countOf v vs'.
Proof.
  unfold SpecOrder.countOf. intros Hperm. f_equal.
  induction Hperm as [| x l l' Hperm IH | x y l | l l' l'' H1 IH1 H2 IH2];
    cbn [filter].
  - reflexivity.
  - destruct (v =? x); cbn [length]; now rewrite IH.
  - destruct (v =? x); destruct (v =? y); reflexivity.
  - now rewrite IH1.
Qed.

Lemma strength5_unordered (c1 c2 : list Card.t) :
  Permutation (map Card.rank c1) (map Card.rank c2) ->
  SpecOrder.isFlush c1 = SpecOrder.isFlush c2 ->
  SpecOrder.strength5 c1 = SpecOrder.strength5 c2.
Proof.
  intros Hr Hf.
  assert (Hvs : Permutation (SpecOrder.valuesOf c1) (SpecOrder.valuesOf c2)).
  { unfold SpecOrder.valuesOf. rewrite <- !(map_map Card.rank RANK_VALUES).
    now apply Permutation_map. }
  assert (Hg : forall c, SpecOrder.groupsOf c (SpecOrder.valuesOf c1)
                         = SpecOrder.groupsOf c (SpecOrder.valuesOf c2)).
  { intros c. unfold SpecOrder.groupsOf. apply filter_ext. intros v.
    now rewrite (countOf_permutation v _ _ Hvs). }
  unfold SpecOrder.strength5, SpecOrder.straightHigh, SpecOrder.tieBreak.
  cbn [flat_map]. rewrite Hf, !Hg. reflexivity.
Qed.

Lemma Rank_leb_total (a b : Card.Rank) :
  Shape.Rank_leb a b = true \/ Shape.Rank_leb b a = true.
Proof.
  unfold Shape.Rank_leb.
  destruct (Z.leb_spec (RANK_VALUES a) (RANK_VALUES b)); [now left |].
  right. apply Z.leb_le. lia.
Qed.

Lemma Rank_leb_trans (a b c : Card.Rank) :
  Shape.Rank_leb a b = true -> Shape.Rank_leb b c = true -> Shape.Rank_leb a c = true.
Proof. unfold Shape.Rank_leb. rewrite !Z.leb_le. lia. Qed.

(** On 5 cards the category is the one of the specification's ordering. *)
Lemma evaluate5Cards_category (cards : list Card.t) :
  length cards = 5%nat ->
  HandRank_value (rank (evaluate5Cards cards)) = Shape.specCategory cards.
Proof.
  intros Hlen.
  pose proof (sameSuitCount_isFlush cards Hlen) as Hflush.
  set (sorted := stableSort Shape.Rank_leb (map Card.rank cards)).
  assert (Hperm : Permutation sorted (map Card.rank cards)) by apply stableSort_perm.
  assert (Hord : StronglySorted (fun a b => Shape.Rank_leb a b = true) sorted)
    by (apply stableSort_ordered; [apply Rank_leb_total | apply Rank_leb_trans]).
  assert (Hslen : length sorted = 5%nat)
    by (rewrite (Permutation_length Hperm), length_map; exact Hlen).
  destruct sorted as [|a [|b [|c [|d [|e [|f rest]]]]]]; try discriminate Hslen.
  assert (Hasc : Shape.Rank_leb a b = true /\ Shape.Rank_leb b c = true
                 /\ Shape.Rank_leb c d = true /\ Shape.Rank_leb d e = true).
  { repeat match goal with
           | H : StronglySorted _ (_ :: _) |- _ =>
               let Hrest := fresh "Hrest" in
               let Hall := fresh "Hall" in
               inversion H as [|? ? Hrest Hall]; subst; clear H;
               try (apply Forall_inv in Hall)
           end.
    tauto. }
  destruct Hasc as [Hab [Hbc [Hcd Hde]]].
  set (canon := Shape.canonical [a; b; c; d; e] (SpecOrder.isFlush cards)).
  assert (Hcr : Permutation (map Card.rank canon) (map Card.rank cards))
    by (unfold canon; now rewrite canonical_ranks).
  assert (Hcf : SpecOrder.isFlush canon = SpecOrder.isFlush cards)
    by apply canonical_isFlush.
  assert (Hclen : length canon = 5%nat) by reflexivity.
  rewrite (evaluate5Cards_unordered cards canon).
  - unfold Shape.specCategory.
    rewrite (strength5_unordered cards canon) by (now symmetry).
    pose proof (forAllShapes_sound _ categoryAgrees_everywhere a b c d e
                                   (SpecOrder.isFlush cards) Hab Hbc Hcd Hde) as Hok.
    unfold Shape.categoryAgrees in Hok. apply Z.eqb_eq in Hok. exact Hok.
  - now symmetry.
  - rewrite Hflush, (sameSuitCount_isFlush canon Hclen). now symmetry.
Qed.

End Categories.

Section BestCategory.
Import HandEvaluator.

Lemma strength5_head (cards : list Card.t) :
  exists h t, SpecOrder.strength5 cards = h :: t /\ 0 <= h.
Proof.
  unfold SpecOrder.strength5.
  destruct (SpecOrder.straightHigh _) as [h|]; destruct (SpecOrder.isFlush cards);
    repeat match goal with
           | |- context [if ?b then _ else _] => destruct b
           end;
    eexists; eexists; (split; [reflexivity | lia]).
Qed.

Lemma lexLtb_head_true (best t : list Z) (h : Z) :
  SpecOrder.lexLtb best (h :: t) = true -> 0 <= h -> hd 0 best <= h.
Proof.
  destruct best as [|x a]; cbn; [lia |].
  destruct (Z.ltb_spec x h); [lia |].
  destruct (Z.ltb_spec h x); [discriminate | lia].
Qed.

Lemma lexLtb_head_false (best t : list Z) (h : Z) :
  SpecOrder.lexLtb best (h :: t) = false -> h <= hd 0 best.
Proof.
  destruct best as [|x a]; cbn; [discriminate |].
  destruct (Z.ltb_spec x h); [discriminate | lia].
Qed.

(** The fold of [best7] ends on the strength of one of the combinations,
    of the highest category among them. *)
Lemma best7_fold (combos : list (list Card.t)) :
  forall best : list Z,
    let res :=
      fold_left
        (fun best combo =>
           if SpecOrder.lexLtb best (SpecOrder.strength5 combo)
           then SpecOrder.strength5 combo else best)
        combos best in
    hd 0 best <= hd 0 res
    /\ (forall c, In c combos -> Shape.specCategory c <= hd 0 res)
    /\ (res = best \/ exists c, In c combos /\ res = SpecOrder.strength5 c).
Proof.
  induction combos as [|c cs IH]; intros best; cbn [fold_left].
  - cbn. split; [lia | split; [intros ? [] | now left]].
  - destruct (strength5_head c) as [h [t [Hs Hh]]].
    destruct (SpecOrder.lexLtb best (SpecOrder.strength5 c)) eqn:Hlt.
    + specialize (IH (SpecOrder.strength5 c)). cbv zeta in IH |- *.
      destruct IH as [Hle [Hall Hsrc]].
      set (res := fold_left _ cs (SpecOrder.strength5 c)) in *.
      assert (Hc : Shape.specCategory c = h)
        by (unfold Shape.specCategory; now rewrite Hs).
      assert (Hbest : hd 0 best <= h)
        by (rewrite Hs in Hlt; now apply lexLtb_head_true in Hlt).
      fold (Shape.specCategory c) in Hle.
      split; [lia | split].
      * intros c' [<- | Hin]; [exact Hle | now apply Hall].
      * right. destruct Hsrc as [Heq | [c' [Hin Heq]]].
        -- exists c. split; [now left | exact Heq].
        -- exists c'. split; [now right | exact Heq].
    + specialize (IH best). cbv zeta in IH |- *.
      destruct IH as [Hle [Hall Hsrc]].
      set (res := fold_left _ cs best) in *.
      assert (Hc : Shape.specCategory c = h)
        by (unfold Shape.specCategory; now rewrite Hs).
      assert (Hbest : h <= hd 0 best)
        by (rewrite Hs in Hlt; now apply lexLtb_head_false in Hlt).
      split; [exact Hle | split].
      * intros c' [<- | Hin]; [lia | now apply Hall].
      * destruct Hsrc as [Heq | [c' [Hin Heq]]]; [now left |].
        right. exists c'. split; [now right | exact Heq].
Qed.

(** X5. On every 7-card input the category [evaluateHand] reports is the
    category of the best 5-card hand in the sense of the rules: the
    category of the strongest combination under the ordering by category,
    groups and kickers, with the wheel as the lowest straight. *)
Theorem evaluateHand_reports_the_best_category (cards : list Card.t) :
  length cards = 7%nat ->
  exists r,
    evaluateHand cards = Some r
    /\ HandRank_value (rank r) = hd 0 (SpecOrder.best7 cards).
Proof.
  intros Hlen.
  destruct (evaluateHand_returns cards Hlen) as [r [combo [Hr [Hin [-> Hmax]]]]].
  exists (evaluate5Cards combo). split; [exact Hr |].
  assert (Hfive : forall c, In c (getCombinations cards 5) -> length c = 5%nat)
    by (intros c Hc; now destruct (getCombinations_each cards 5 c Hc)).
  assert (Hcode : forall c, In c (getCombinations cards 5) ->
                            HandRank_value (rank (evaluate5Cards c))
                            <= HandRank_value (rank (evaluate5Cards combo))).
  { intros c Hc. specialize (Hmax c Hc).
    pose proof (evaluate5Cards_band c). pose proof (evaluate5Cards_band combo). lia. }
  unfold SpecOrder.best7.
  destruct (getCombinations cards 5) as [|c0 cs] eqn:Hcombos; [destruct Hin |].
  cbn [fold_left]. destruct (strength5_head c0) as [h0 [t0 [Hs0 Hh0]]].
  replace (SpecOrder.lexLtb [] (SpecOrder.strength5 c0)) with true
    by (now rewrite Hs0).
  destruct (best7_fold cs (SpecOrder.strength5 c0)) as [Hle [Hall Hsrc]].
  set (res := fold_left _ cs (SpecOrder.strength5 c0)) in *.
  assert (Hge : forall c, In c (c0 :: cs) -> Shape.specCategory c <= hd 0 res).
  { intros c [<- | Hc]; [exact Hle | now apply Hall]. }
  assert (Hfrom : exists c, In c (c0 :: cs) /\ hd 0 res = Shape.specCategory c).
  { destruct Hsrc as [-> | [c [Hc ->]]].
    - exists c0. split; [now left | reflexivity].
    - exists c. split; [now right | reflexivity]. }
  destruct Hfrom as [cbest [Hcb Hres]].
  pose proof (Hge combo Hin) as Hup.
  rewrite <- (evaluate5Cards_category combo (Hfive combo Hin)) in Hup.
  pose proof (Hcode cbest Hcb) as Hdown.
  rewrite (evaluate5Cards_category cbest (Hfive cbest Hcb)), <- Hres in Hdown.
  lia.
Qed.

Lemma evaluateHand_reports_the_best_category_witness :
  exists r,
    evaluateHand Examples.wheelHand = Some r
    /\ HandRank_value (rank r) = hd 0 (SpecOrder.best7 Examples.wheelHand).
Proof.
  apply (evaluateHand_reports_the_best_category Examples.wheelHand). reflexivity.
Defined.

End BestCategory.

(** ** PotManager: bookkeeping and pots *)

Section PotBookkeeping.
Import PotManager.

(** X6. [addContribution] adds the amount to the player's own running
    total (starting from 0 for a new player), leaves every other player's
    total alone and raises the pot total by the amount; after [reset]
    everything is 0 again. *)
Theorem addContribution_accumulates (playerId : string) (amt : Z) (pm : PotManager.t) :
  getPlayerContribution playerId (addContribution playerId amt pm)
  = getPlayerContribution playerId pm + amt
  /\ (forall other, other <> playerId ->
                    getPlayerContribution other (addContribution playerId amt pm)
                    = getPlayerContribution other pm)
  /\ getTotalPot (addContribution playerId amt pm) = getTotalPot pm + amt
  /\ getTotalPot (reset pm) = 0
  /\ (forall anyone, getPlayerContribution anyone (reset pm) = 0).
Proof.
  unfold getPlayerContribution, addContribution. cbn [contributions].
  split; [| split; [| split; [| split]]].
  - now rewrite getOrZero_mapSet, String.eqb_refl.
  - intros other Hne. rewrite getOrZero_mapSet.
    apply String.eqb_neq in Hne. now rewrite Hne.
  - apply getTotalPot_addContribution.
  - reflexivity.
  - reflexivity.
Qed.

Lemma sumZ_filter_split (f : string * Z -> bool) (l : list (string * Z)) :
  sumZ (map snd (filter f l)) + sumZ (map snd (filter (fun e => negb (f e)) l))
  = sumZ (map snd l).
Proof.
  induction l as [|e t IH]; cbn [filter map sumZ]; [reflexivity |].
  destruct (f e); cbn [negb map sumZ]; lia.
Qed.

Lemma sumZ_filter_nonneg (f : string * Z -> bool) (l : list (string * Z)) :
  Forall (fun e => 0 <= snd e) l -> 0 <= sumZ (map snd (filter f l)).
Proof.
  induction 1 as [|e t He Ht IH]; cbn [filter map sumZ]; [lia |].
  destruct (f e); cbn [map sumZ]; lia.
Qed.

(** X7. With non-negative contributions the pots returned by
    [calculatePots] add up to what the players listed in [activePlayers]
    have contributed.  The contributions of everybody else are in none of
    the pots: the pots and those contributions together make the pot
    total, so the pots never hold more than [getTotalPot] and hold less
    as soon as somebody outside the list has put chips in. *)
Theorem calculatePots_holds_active_contributions (pm : PotManager.t)
        (activePlayers : list string) :
  Forall (fun e => 0 <= snd e) (contributions pm) ->
  sumZ (map amount (calculatePots pm activePlayers))
  = sumZ (map snd
            (filter (fun e => includes String.eqb (fst e) activePlayers)
                    (contributions pm)))
  /\ sumZ (map amount (calculatePots pm activePlayers))
     + sumZ (map snd
               (filter (fun e => negb (includes String.eqb (fst e) activePlayers))
                       (contributions pm)))
     = getTotalPot pm
  /\ sumZ (map amount (calculatePots pm activePlayers)) <= getTotalPot pm.
Proof.
  intros Hpos.
  pose proof (calculatePots_sum pm activePlayers Hpos) as Hsum.
  pose proof (sumZ_filter_split
                (fun e => includes String.eqb (fst e) activePlayers)
                (contributions pm)) as Hsplit.
  pose proof (sumZ_filter_nonneg
                (fun e => negb (includes String.eqb (fst e) activePlayers))
                (contributions pm) Hpos) as Hrest.
  cbv beta in Hsplit. rewrite getTotalPot_sum.
  split; [exact Hsum | split; lia].
Qed.

Lemma calculatePots_holds_active_contributions_witness :
  sumZ (map amount (calculatePots Examples.potWithFold ["p1"%string; "p2"%string]))
  = sumZ (map snd
            (filter (fun e => includes String.eqb (fst e) ["p1"%string; "p2"%string])
                    (contributions Examples.potWithFold)))
  /\ sumZ (map amount (calculatePots Examples.potWithFold ["p1"%string; "p2"%string]))
     + sumZ (map snd
               (filter (fun e => negb (includes String.eqb (fst e)
                                                ["p1"%string; "p2"%string]))
                       (contributions Examples.potWithFold)))
     = getTotalPot Examples.potWithFold
  /\ sumZ (map amount (calculatePots Examples.potWithFold ["p1"%string; "p2"%string]))
     <= getTotalPot Examples.potWithFold.
Proof.
  apply (calculatePots_holds_active_contributions Examples.potWithFold).
  repeat constructor; cbn; lia.
Defined.

End PotBookkeeping.

Section PotShapes.
Import PotManager PotShape.

Lemma StronglySorted_snoc {A : Type} (R : A -> A -> Prop) (l : list A) (x : A) :
  StronglySorted R l -> Forall (fun y => R y x) l -> StronglySorted R (l ++ [x]).
Proof.
  induction 1 as [|y t Ht IH Hy]; intros Hall; cbn.
  - repeat constructor.
  - inversion Hall as [|? ? Hyx Htx]; subst.
    constructor; [now apply IH |].
    apply Forall_app. split; [exact Hy | now repeat constructor].
Qed.

Lemma mainFirst_snoc (pots : list Pot) (amt : Z) (eligible : list string) :
  mainFirst pots ->
  mainFirst (pots ++ [mkPot amt eligible (Nat.eqb (length pots) 0)]).
Proof.
  destruct pots as [|first rest]; cbn.
  - intros _. split; [reflexivity | constructor].
  - intros [Hfirst Hrest]. split; [exact Hfirst |].
    apply Forall_app. split; [exact Hrest | now repeat constructor].
Qed.

Lemma potAtLevel_raise (sorted : list (string * Z)) (L L' : Z) (pot : Pot) :
  L <= L' -> potAtLevel sorted L pot -> potAtLevel sorted L' pot.
Proof.
  intros HL [c [d [Hc Hrest]]]. exists c, d. split; [lia | exact Hrest].
Qed.

(** One iteration keeps the shape of the pots. *)
Lemma potStep_shape (sorted : list (string * Z)) (pots : list Pot) (L : Z)
      (x : string * Z) :
  0 <= L ->
  Forall (potAtLevel sorted L) pots ->
  mainFirst pots ->
  StronglySorted narrows pots ->
  0 <= snd (potStep sorted (pots, L) x)
  /\ Forall (potAtLevel sorted (snd (potStep sorted (pots, L) x)))
            (fst (potStep sorted (pots, L) x))
  /\ mainFirst (fst (potStep sorted (pots, L) x))
  /\ StronglySorted narrows (fst (potStep sorted (pots, L) x)).
Proof.
  intros HL Hpots Hmain Hnest. unfold potStep.
  destruct (Z.leb_spec (snd x) L) as [Hle | Hgt]; [cbn [fst snd]; auto |].
  rewrite collectLevel_spec.
  set (elig := filter (fun e => snd e >=? snd x) sorted).
  assert (Hraise : Forall (potAtLevel sorted (snd x)) pots).
  { eapply Forall_impl; [| exact Hpots].
    intros p. apply potAtLevel_raise. lia. }
  destruct ((snd x - L) * Z.of_nat (length elig) >? 0) eqn:Hpos; cbn [fst snd].
  - apply Z.gtb_lt in Hpos.
    split; [lia | split; [| split]].
    + apply Forall_app. split; [exact Hraise |].
      repeat constructor. exists (snd x), (snd x - L).
      cbn [eligiblePlayers amount]. rewrite length_map.
      repeat split; auto; lia.
    + now apply mainFirst_snoc.
    + apply StronglySorted_snoc; [exact Hnest |].
      eapply Forall_impl; [| exact Hpots].
      intros p [c [d [Hc [Hel _]]]]. unfold narrows. cbn [eligiblePlayers].
      rewrite Hel. intros id Hin.
      apply in_map_iff in Hin. destruct Hin as [e [<- He]].
      apply filter_In in He. destruct He as [Hin Hge].
      apply in_map_iff. exists e. split; [reflexivity |].
      apply filter_In. split; [exact Hin |].
      apply Z.geb_le in Hge. apply Z.geb_le. lia.
  - split; [lia | auto].
Qed.

Lemma potStep_fold_shape (sorted : list (string * Z)) :
  forall (suf : list (string * Z)) (st : list Pot * Z),
    0 <= snd st ->
    Forall (potAtLevel sorted (snd st)) (fst st) ->
    mainFirst (fst st) ->
    StronglySorted narrows (fst st) ->
    (exists L', Forall (potAtLevel sorted L')
                       (fst (fold_left (potStep sorted) suf st)))
    /\ mainFirst (fst (fold_left (potStep sorted) suf st))
    /\ StronglySorted narrows (fst (fold_left (potStep sorted) suf st)).
Proof.
  induction suf as [|x suf' IH]; intros [pots L] HL Hpots Hmain Hnest.
  - cbn in *. split; [now exists L | now split].
  - cbn [fold_left]. cbn [fst snd] in *.
    destruct (potStep_shape sorted pots L x HL Hpots Hmain Hnest)
      as [HL' [Hpots' [Hmain' Hnest']]].
    now apply IH.
Qed.

(** What each pot of [calculatePots] is made of. *)
Lemma calculatePots_each_pot (pm : PotManager.t) (activePlayers : list string) :
  Forall
    (fun pot =>
       0 < amount pot
       /\ eligiblePlayers pot <> []
       /\ (forall id, In id (eligiblePlayers pot) ->
                      includes String.eqb id activePlayers = true
                      /\ exists amt, In (id, amt) (contributions pm)))
    (calculatePots pm activePlayers).
Proof.
  unfold calculatePots.
  destruct (Nat.eqb (length (contributions pm)) 0); [constructor |].
  set (kept := filter _ (contributions pm)).
  set (sorted := stableSort _ kept).
  destruct (potStep_fold_shape sorted sorted ([], 0))
    as [[L' Hpots] _];
    [cbn; lia | constructor | exact I | constructor |].
  eapply Forall_impl; [| exact Hpots].
  intros pot [c [d [Hc [Hel [Hd [Hamt Hpos]]]]]].
  split; [exact Hpos | split].
  - intros Hnil. rewrite Hnil in Hamt. cbn in Hamt. lia.
  - intros id Hin. rewrite Hel in Hin.
    apply in_map_iff in Hin. destruct Hin as [[id' amt] [<- He]].
    apply filter_In in He. destruct He as [He _].
    assert (Hk : In (id', amt) kept)
      by (eapply Permutation_in; [apply stableSort_perm | exact He]).
    apply filter_In in Hk. destruct Hk as [Hk Hact]. cbn in Hact.
    split; [exact Hact | now exists amt].
Qed.

(** X8. Every pot returned by [calculatePots] holds a positive amount
    and has at least one eligible player; its eligible players are all
    listed in [activePlayers] and have a contribution on record; the
    first pot, and only the first, is flagged as the main pot; and each
    later pot's eligible players are among the eligible players of every
    earlier pot. *)
Theorem calculatePots_pots_are_well_formed (pm : PotManager.t)
        (activePlayers : list string) :
  Forall
    (fun pot =>
       0 < amount pot
       /\ eligiblePlayers pot <> []
       /\ (forall id, In id (eligiblePlayers pot) ->
                      includes String.eqb id activePlayers = true
                      /\ exists amt, In (id, amt) (contributions pm)))
    (calculatePots pm activePlayers)
  /\ mainFirst (calculatePots pm activePlayers)
  /\ StronglySorted narrows (calculatePots pm activePlayers).
Proof.
  split; [apply calculatePots_each_pot |].
  unfold calculatePots.
  destruct (Nat.eqb (length (contributions pm)) 0).
  { split; [exact I | constructor]. }
  set (kept := filter _ (contributions pm)).
  set (sorted := stableSort _ kept).
  destruct (potStep_fold_shape sorted sorted ([], 0))
    as [_ [Hmain Hnest]];
    [cbn; lia | constructor | exact I | constructor |].
  split; assumption.
Qed.

End PotShapes.

(** ** PotManager: who is paid *)

Section TopScores.
Import PotManager.

(** X9. The players a pot is split between are exactly the entries of
    the [winners] map that are eligible for the pot and whose score no
    eligible entry exceeds; and [distributePots] changes nobody else's
    payout on account of that pot. *)
Theorem pot_goes_to_the_top_eligible_scores (pot : Pot) (winners : list (string * Z)) :
  (forall id v,
      In (id, v) (tiedWinnersOf pot winners) <->
      In (id, v) winners
      /\ includes String.eqb id (eligiblePlayers pot) = true
      /\ (forall id' v', In (id', v') winners ->
                         includes String.eqb id' (eligiblePlayers pot) = true ->
                         v' <= v))
  /\ (forall payouts id,
         ~ In id (map fst (tiedWinnersOf pot winners)) ->
         getOrZero id (distributeOne winners payouts pot) = getOrZero id payouts).
Proof.
  split.
  - intros id v. unfold tiedWinnersOf.
    set (kept := filter _ winners).
    pose proof (stableSort_sorted_down kept) as Hsorted.
    pose proof (stableSort_perm (fun a b => snd b <=? snd a) kept) as Hperm.
    destruct (stableSort _ kept) as [|top rest] eqn:Hs.
    + split; [intros [] |]. intros [Hin [Hel _]].
      assert (Hk : In (id, v) kept) by (apply filter_In; now split).
      apply (Permutation_in _ (Permutation_sym Hperm)) in Hk. destruct Hk.
    + inversion Hsorted as [|? ? _ Htop]; subst.
      rewrite Forall_forall in Htop. unfold byScoreDown in Htop.
      assert (Hall : forall e, In e kept -> snd e <= snd top).
      { intros e He. apply (Permutation_in _ (Permutation_sym Hperm)) in He.
        destruct He as [<- | He]; [lia | now apply Htop]. }
      assert (Htopin : In top kept)
        by (apply (Permutation_in _ Hperm); now left).
      split.
      * intros Hin. apply filter_In in Hin. destruct Hin as [Hin Heq].
        apply Z.eqb_eq in Heq. cbn [snd] in Heq.
        apply (Permutation_in _ Hperm) in Hin.
        apply filter_In in Hin. destruct Hin as [Hw Hel]. cbn [fst] in Hel.
        split; [exact Hw | split; [exact Hel |]].
        intros id' v' Hw' Hel'.
        assert (Hk' : In (id', v') kept) by (apply filter_In; now split).
        specialize (Hall _ Hk'). cbn [snd] in Hall. lia.
      * intros [Hw [Hel Hmax]].
        assert (Hk : In (id, v) kept) by (apply filter_In; now split).
        apply filter_In. split.
        -- now apply (Permutation_in _ (Permutation_sym Hperm)).
        -- apply Z.eqb_eq. cbn [snd].
           pose proof (Hall _ Hk) as Hle. cbn [snd] in Hle.
           apply filter_In in Htopin. destruct Htopin as [Htw Htel].
           destruct top as [tid tv]. cbn [fst snd] in *.
           specialize (Hmax tid tv Htw Htel). lia.
  - intros payouts id Hnot. unfold distributeOne.
    destruct (tiedWinnersOf pot winners) as [|w ws] eqn:E; [reflexivity |].
    now apply payTied_other.
Qed.

End TopScores.

(** ** StateSerializer: the showdown view and the patch *)

Section ShowdownView.
Import StateSerializer.

(** X10. In the showdown view the deck is null as well; the entries are
    those of the god state in the same order, and an entry carries its
    hole cards exactly when its identifier is listed in [activePlayers]. *)
Theorem serializeForShowdown_reveals_listed_players (godState : GodState.t)
        (activePlayers : list string) :
  PlayerView.deck (serializeForShowdown godState activePlayers) = None
  /\ Forall2
       (fun p v =>
          ViewPlayer.steamId v = GodPlayer.steamId p
          /\ ViewPlayer.holeCards v
             = if includes String.eqb (GodPlayer.steamId p) activePlayers
               then Some (GodPlayer.holeCards p)
               else None)
       (GodState.players godState)
       (PlayerView.players (serializeForShowdown godState activePlayers))
  /\ PlayerView.communityCards (serializeForShowdown godState activePlayers)
     = GodState.communityCards godState.
Proof.
  split; [reflexivity | split; [| reflexivity]].
  unfold serializeForShowdown. cbn [PlayerView.players].
  induction (GodState.players godState) as [|p ps IH]; cbn [map]; constructor.
  - cbn. split; reflexivity.
  - exact IH.
Qed.

End ShowdownView.

Section Patches.
Import Patching.

Lemma changed_same {A : Type} (eqb : A -> A -> bool) (x : A) :
  eqb x x = true -> changed eqb x x = None.
Proof. unfold changed. now intros ->. Qed.

Lemma playerChanges_same (p : GodPlayer.t) : playerChanges p p = None.
Proof.
  unfold playerChanges.
  rewrite !(changed_same Z.eqb) by apply Z.eqb_refl.
  rewrite !(changed_same Bool.eqb) by apply Bool.eqb_reflx.
  reflexivity.
Qed.

Lemma changedPlayers_same (ps : list GodPlayer.t) : changedPlayers ps ps = [].
Proof.
  induction ps as [|p rest IH]; cbn [changedPlayers]; [reflexivity |].
  now rewrite playerChanges_same.
Qed.

(** X11. The patch from a state to itself carries the sequence number
    and nothing else: no field and no player update. *)
Theorem createStatePatch_of_no_change (godState : GodState.t) (targetSteamId : string) :
  createStatePatch godState godState targetSteamId
  = StatePatch.mk (GodState.sequenceId godState) None None None None None None.
Proof.
  unfold createStatePatch.
  rewrite changedPlayers_same.
  rewrite (changed_same String.eqb) by apply String.eqb_refl.
  rewrite !(changed_same Z.eqb) by apply Z.eqb_refl.
  rewrite (changed_same Nat.eqb) by apply Nat.eqb_refl.
  now rewrite Nat.eqb_refl.
Qed.

Lemma changedPlayers_withCards (hands1 hands2 : GodPlayer.t -> list Card.t)
      (olds : list GodPlayer.t) :
  forall news,
    changedPlayers
      (map (fun p =>
              GodPlayer.mk (GodPlayer.steamId p) (GodPlayer.position p) (GodPlayer.chips p)
                           (hands1 p)
                           (GodPlayer.currentBet p) (GodPlayer.hasFolded p)
                           (GodPlayer.isAllIn p) (GodPlayer.hasActed p)
                           (GodPlayer.handRank p)) olds)
      (map (fun p =>
              GodPlayer.mk (GodPlayer.steamId p) (GodPlayer.position p) (GodPlayer.chips p)
                           (hands2 p)
                           (GodPlayer.currentBet p) (GodPlayer.hasFolded p)
                           (GodPlayer.isAllIn p) (GodPlayer.hasActed p)
                           (GodPlayer.handRank p)) news)
    = changedPlayers olds news.
Proof.
  induction olds as [|o os IH]; intros [|n ns]; cbn [map changedPlayers];
    try reflexivity.
  rewrite IH. reflexivity.
Qed.

(** X12. A patch does not depend on the deck, on anybody's hole cards or
    on the recipient: replacing the deck and every hand in both states,
    and the recipient, gives the same patch. *)
Theorem createStatePatch_ignores_private_cards
        (oldState newState : GodState.t) (targetSteamId otherSteamId : string)
        (deck1 deck2 : list Card.t) (hands1 hands2 : GodPlayer.t -> list Card.t) :
  createStatePatch (withCards deck1 hands1 oldState) (withCards deck2 hands2 newState)
                   otherSteamId
  = createStatePatch oldState newState targetSteamId.
Proof.
  unfold createStatePatch, withCards.
  cbn [GodState.players GodState.sequenceId GodState.state GodState.pot
       GodState.currentBet GodState.currentPlayerIndex GodState.communityCards].
  now rewrite changedPlayers_withCards.
Qed.

End Patches.

(** ** TableInstance: actions *)

Section Actions.
Import TablePlayer TableInstance.

Lemma sequenceId_handlePlayerFold (id : string) (s : t) :
  sequenceId s <= sequenceId (snd (fst (handlePlayerFold id s))).
Proof.
  unfold handlePlayerFold.
  destruct (indexBySteamId id s) as [i|]; [| cbn; lia].
  destruct (indicesFrom stillIn 0 _) as [|w [|w' ws]]; cbn; lia.
Qed.

Lemma sequenceId_dispatch (id : string) (action : ActionType) (amount : option Z)
      (s : t) :
  sequenceId s <= sequenceId (snd (fst (dispatch id action amount s))).
Proof.
  destruct action; cbn [dispatch fst snd].
  - apply sequenceId_handlePlayerFold.
  - rewrite handlePlayerCheck_unchanged. lia.
  - unfold handlePlayerCall.
    destruct (indexBySteamId id s); [| cbn; lia].
    destruct (getPlayerBySteamId id s); [| cbn; lia].
    destruct (_ <=? 0); cbn; lia.
  - unfold handlePlayerRaise.
    destruct (indexBySteamId id s); [| cbn; lia].
    destruct (getPlayerBySteamId id s); [| cbn; lia].
    destruct amount as [amt|]; [| cbn; lia].
    destruct (amt =? 0); [cbn; lia |].
    destruct (_ || _); [cbn; lia |].
    destruct (_ >? _); cbn; lia.
  - unfold handlePlayerAllIn.
    destruct (indexBySteamId id s); [| cbn; lia].
    destruct (getPlayerBySteamId id s); [| cbn; lia].
    destruct (_ =? 0); [cbn; lia |].
    destruct (_ >? _); cbn; lia.
Qed.

Lemma sequenceId_dealStreet (count : nat) (street : GameState.t) (s s' : t) :
  dealStreet count street s = Some s' -> sequenceId s' = sequenceId s + 1.
Proof.
  unfold dealStreet.
  destruct (Deck.burn (deck s)) as [d1|]; [| discriminate].
  destruct (Deck.deal count d1) as [[cards d2]|]; [| discriminate].
  now intros [= <-].
Qed.

Lemma sequenceId_applyPayouts (payouts : list (string * Z)) :
  forall s, sequenceId (fold_left applyPayout payouts s) = sequenceId s.
Proof.
  induction payouts as [|e rest IH]; intros s; cbn [fold_left]; [reflexivity |].
  rewrite IH. unfold applyPayout.
  destruct (indexBySteamId (fst e) s); reflexivity.
Qed.

Lemma sequenceId_endBettingRound (s s' : t) (evs : list Event) :
  endBettingRound s = Some (s', evs) -> sequenceId s <= sequenceId s'.
Proof.
  unfold endBettingRound, dealFlop, dealTurn, dealRiver.
  destruct (gameState s); try (intros [= <- _]; lia).
  - destruct (dealStreet 3 GameState.FLOP s) as [s1|] eqn:Hd; [| discriminate].
    intros [= <- _]. apply sequenceId_dealStreet in Hd. table_simpl. lia.
  - destruct (dealStreet 1 GameState.TURN s) as [s1|] eqn:Hd; [| discriminate].
    cbn [option_map]. intros [= <- _]. apply sequenceId_dealStreet in Hd.
    table_simpl. lia.
  - destruct (dealStreet 1 GameState.RIVER s) as [s1|] eqn:Hd; [| discriminate].
    cbn [option_map]. intros [= <- _]. apply sequenceId_dealStreet in Hd.
    table_simpl. lia.
  - unfold startShowdown.
    destruct (evaluatePlayers _ _ _) as [[ps hr]|]; [| discriminate].
    intros [= <- _]. unfold calculatePayouts. table_simpl.
    rewrite sequenceId_applyPayouts. table_simpl. lia.
Qed.

(** X13. Every accepted action moves the sequence number strictly
    forward, and a rejected action leaves it where it was. *)
Theorem handlePlayerAction_advances_sequence (id : string) (action : ActionType)
        (amount : option Z) (s s' : t) (ok : bool) :
  outcome id action amount s = Some (ok, s') ->
  if ok then sequenceId s < sequenceId s' else sequenceId s' = sequenceId s.
Proof.
  unfold outcome, handlePlayerAction.
  destruct (getCurrentPlayer s) as [cp|]; [| now intros [= <- <-]].
  destruct (negb _); [now intros [= <- <-] |].
  destruct (_ || _); [now intros [= <- <-] |].
  destruct (negb (isInBettingRound s)); [now intros [= <- <-] |].
  pose proof (sequenceId_dispatch id action amount s) as Hd.
  destruct (dispatch id action amount s) as [[success s1] evs1] eqn:Hdisp.
  cbn [fst snd] in Hd.
  destruct success; cbn [negb].
  - set (s3 := incrementSequenceId
                 (mutatePlayer (currentPlayerIndex s) (setHasActed true) s1)).
    assert (H3 : sequenceId s3 = sequenceId s1 + 1) by reflexivity.
    destruct (isBettingRoundComplete s3).
    + destruct (endBettingRound s3) as [[s4 evs2]|] eqn:He; [| discriminate].
      cbn [option_map fst]. intros [= <- <-].
      apply sequenceId_endBettingRound in He. lia.
    + cbn [option_map fst]. intros [= <- <-].
      unfold advanceToNextPlayer. table_simpl. lia.
  - cbn [option_map fst]. intros [= <- <-].
    now destruct (dispatch_rejects_unchanged _ _ _ _ _ _ Hdisp) as [-> _].
Qed.

Lemma handlePlayerAction_advances_sequence_witness :
  sequenceId Examples.headsUp
  < sequenceId (Examples.after "p2" CALL None Examples.headsUp).
Proof.
  apply (handlePlayerAction_advances_sequence "p2" CALL None Examples.headsUp
           (Examples.after "p2" CALL None Examples.headsUp) true).
  vm_compute. reflexivity.
Defined.

End Actions.

(** ** TableInstance: seats *)

Section Seats.
Import TablePlayer TableInstance Lifecycle.

Lemma seatTaken_false (pos : Z) (s : t) :
  seatTaken pos s = false -> ~ In pos (map position (players s)).
Proof.
  unfold seatTaken. intros H Hin.
  apply in_map_iff in Hin. destruct Hin as [p [Hp Hin]].
  assert (existsb (fun q => position q =? pos) (players s) = true); [| congruence].
  apply existsb_exists. exists p. split; [exact Hin | now apply Z.eqb_eq].
Qed.

(** X14. [addPlayer] keeps the seating sound: if no two bindings share a
    seat and at most six players are seated, the same holds afterwards,
    and every binding that was there is still there, unchanged. *)
Theorem addPlayer_keeps_seating_sound (id name : string) (pos buyIn : Z) (s : t) :
  NoDup (map position (players s)) ->
  (length (players s) <= maxPlayers)%nat ->
  let s' := snd (fst (addPlayer id name pos buyIn s)) in
  NoDup (map position (players s'))
  /\ (length (players s') <= maxPlayers)%nat
  /\ (forall i p, nth_error (players s) i = Some p ->
                  nth_error (players s') i = Some p).
Proof.
  intros Hnd Hlen. unfold addPlayer.
  destruct (Nat.leb_spec maxPlayers (length (players s))) as [Hfull | Hroom];
    [cbn; auto |].
  destruct (seatTaken pos s) eqn:Hseat; [cbn; auto |].
  destruct (canJoin (gameState s)); [| cbn; auto].
  cbn [negb fst snd].
  assert (Hps : players
                  (match gameState (setPlayers (players s ++ [newPlayer id name pos buyIn]) s) with
                   | GameState.LOBBY_INITIALIZING =>
                       transitionTo GameState.WAITING_FOR_PLAYERS
                         (setPlayers (players s ++ [newPlayer id name pos buyIn]) s)
                   | _ => setPlayers (players s ++ [newPlayer id name pos buyIn]) s
                   end)
                = players s ++ [newPlayer id name pos buyIn]).
  { cbn. destruct (gameState s); reflexivity. }
  rewrite Hps. split; [| split].
  - rewrite map_app. cbn [map newPlayer position].
    eapply Permutation_NoDup; [apply Permutation_cons_append |].
    constructor; [now apply seatTaken_false | exact Hnd].
  - rewrite length_app. cbn [length]. lia.
  - intros i p Hp. rewrite nth_error_app1; [exact Hp |].
    apply nth_error_Some. congruence.
Qed.

Lemma addPlayer_keeps_seating_sound_witness :
  NoDup (map position (players (snd (fst (addPlayer "p3" "Cyd" 2 1000 Examples.headsUpSeated)))))
  /\ (length (players (snd (fst (addPlayer "p3" "Cyd" 2 1000 Examples.headsUpSeated))))
      <= maxPlayers)%nat
  /\ (forall i p, nth_error (players Examples.headsUpSeated) i = Some p ->
                  nth_error
                    (players (snd (fst (addPlayer "p3" "Cyd" 2 1000 Examples.headsUpSeated))))
                    i = Some p).
Proof.
  apply (addPlayer_keeps_seating_sound "p3" "Cyd" 2 1000 Examples.headsUpSeated).
  - repeat constructor; cbn; intuition discriminate.
  - cbn. unfold maxPlayers. lia.
Defined.

End Seats.

(** ** TableInstance: leaving, getting ready, whose turn *)

Section Leaving.
Import TablePlayer TableInstance Lifecycle.

Lemma handlePlayerFold_unknown (id : string) (s : t) :
  indexBySteamId id s = None -> handlePlayerFold id s = (false, s, []).
Proof. unfold handlePlayerFold. now intros ->. Qed.

(** X15. [removePlayer] answers [false] and changes nothing when the
    identifier holds no seat.  When it holds exactly one, that binding is
    deleted and nothing else happens, whatever the phase: the player is
    gone before [handlePlayerFold] looks for it, so no fold is recorded,
    no winner is paid, and the pot, the phase and the acting index stay
    as they were. *)
Theorem removePlayer_only_unseats (id : string) (s : t) :
  (indexBySteamId id s = None -> removePlayer id s = (false, s, []))
  /\ (forall i,
         indexBySteamId id s = Some i ->
         indexBySteamId id (setPlayers (removeAt i (players s)) s) = None ->
         removePlayer id s
         = (true, setPlayers (removeAt i (players s)) s,
            broadcastState (setPlayers (removeAt i (players s)) s))).
Proof.
  unfold removePlayer. split.
  - now intros ->.
  - intros i Hi Hgone. rewrite Hi.
    rewrite (getPlayerBySteamId_nth id s i Hi).
    destruct (findIndex_Some _ _ _ Hi) as [p [Hp _]]. rewrite Hp.
    destruct (negb (hasFolded p) && isGameInProgress _).
    + rewrite (handlePlayerFold_unknown id _ Hgone). reflexivity.
    + reflexivity.
Qed.

End Leaving.

Section Readiness.
Import TablePlayer TableInstance Lifecycle.

Lemma updateAt_twice {A : Type} (f : A -> A) (i : nat) (l : list A) :
  (forall x, f (f x) = f x) -> updateAt i f (updateAt i f l) = updateAt i f l.
Proof.
  intros Hf. revert i. induction l as [|x t IH]; intros [|i]; cbn; auto.
  - now rewrite Hf.
  - now rewrite IH.
Qed.

Lemma findIndex_updateAt {A : Type} (p : A -> bool) (f : A -> A) (i : nat)
      (l : list A) :
  (forall x, p (f x) = p x) -> findIndex p (updateAt i f l) = findIndex p l.
Proof.
  intros Hf. revert i. induction l as [|x t IH]; intros [|i]; cbn; auto.
  - now rewrite Hf.
  - now rewrite IH.
Qed.

Lemma markReady_twice (i : nat) (s : t) :
  mutatePlayer i (setIsReady true) (mutatePlayer i (setIsReady true) s)
  = mutatePlayer i (setIsReady true) s.
Proof.
  unfold mutatePlayer. destruct s. cbn.
  rewrite updateAt_twice; [reflexivity | intros []; reflexivity].
Qed.

(** X16. Marking a player ready a second time has no further effect:
    [setPlayerReady] applied twice gives the same table as applied once
    (the countdown, once started, is not started again). *)
Theorem setPlayerReady_twice (id : string) (s : t) :
  setPlayerReady id (setPlayerReady id s) = setPlayerReady id s.
Proof.
  destruct (indexBySteamId id s) as [i|] eqn:Hi.
  2:{ unfold setPlayerReady. now rewrite !Hi. }
  set (s1 := mutatePlayer i (setIsReady true) s).
  assert (Hdef : setPlayerReady id s = checkStartConditions s1)
    by (unfold setPlayerReady; now rewrite Hi).
  rewrite Hdef.
  assert (Hi1 : indexBySteamId id s1 = Some i).
  { unfold indexBySteamId, s1. table_simpl.
    rewrite findIndex_updateAt; [exact Hi | intros []; reflexivity]. }
  assert (Hstay : checkStartConditions s1 = s1
                  \/ checkStartConditions s1 = startGame s1).
  { unfold checkStartConditions.
    destruct (gameState s1); auto.
    destruct (Nat.leb _ _); auto. destruct (forallb _ _); auto. }
  destruct Hstay as [Hsame | Hstart].
  - rewrite Hsame. unfold setPlayerReady. rewrite Hi1.
    unfold s1. rewrite markReady_twice. fold s1. exact Hsame.
  - rewrite Hstart. unfold setPlayerReady.
    assert (Hi2 : indexBySteamId id (startGame s1) = Some i) by exact Hi1.
    rewrite Hi2.
    assert (Hm : mutatePlayer i (setIsReady true) (startGame s1) = startGame s1).
    { unfold startGame, s1, mutatePlayer, transitionTo, incrementSequenceId.
      destruct s. cbn.
      rewrite updateAt_twice; [reflexivity | intros []; reflexivity]. }
    rewrite Hm. reflexivity.
Qed.

End Readiness.

Section Turns.
Import TablePlayer TableInstance Lifecycle.

Lemma reach_every_index (len a j : nat) :
  (0 < len)%nat -> (j < len)%nat ->
  exists k, (k < len)%nat /\ ((a + k) mod len = j)%nat.
Proof.
  intros Hlen Hj.
  assert (Hm : (a mod len < len)%nat) by (apply Nat.mod_upper_bound; lia).
  exists ((j + (len - a mod len)) mod len)%nat. split.
  - apply Nat.mod_upper_bound. lia.
  - rewrite Nat.Div0.add_mod_idemp_r.
    rewrite <- Nat.Div0.add_mod_idemp_l.
    replace (a mod len + (j + (len - a mod len)))%nat with (j + 1 * len)%nat by lia.
    rewrite Nat.Div0.mod_add. now apply Nat.mod_small.
Qed.

(** The search of [advanceToNextPlayer]: it stops [k] seats further, every
    seat passed over is blocked, and unless it ran out of attempts the seat
    it stops at can act. *)
Lemma advanceFrom_scan (arr : list TablePlayer.t) :
  arr <> [] ->
  forall remaining index,
    exists k p,
      (k <= remaining)%nat
      /\ advanceFrom remaining index arr = ((index + 1 + k) mod length arr)%nat
      /\ nth_error arr (advanceFrom remaining index arr) = Some p
      /\ (forall k' q, (k' < k)%nat ->
                       nth_error arr ((index + 1 + k') mod length arr)%nat = Some q ->
                       canAct q = false)
      /\ ((k < remaining)%nat -> canAct p = true).
Proof.
  intros Hne.
  assert (Hlen : (0 < length arr)%nat) by (destruct arr; [congruence | cbn; lia]).
  assert (Hin : forall i, exists p, nth_error arr (i mod length arr)%nat = Some p).
  { intros i. destruct (nth_error arr (i mod length arr)%nat) as [p|] eqn:E;
      [now exists p |].
    apply nth_error_None in E.
    pose proof (Nat.mod_upper_bound i (length arr)). lia. }
  induction remaining as [|r IH]; intros index; cbn [advanceFrom].
  - destruct (Hin (index + 1)%nat) as [p Hp].
    exists 0%nat, p. rewrite Nat.add_0_r.
    repeat split; auto; try lia; try (intros k' q Hk; lia).
  - destruct (Hin (index + 1)%nat) as [p Hp]. rewrite Hp.
    destruct (hasFolded p || isAllIn p) eqn:Hblocked.
    + destruct (IH ((index + 1) mod length arr)%nat) as [k [p' [Hk [Hres [Hp' [Hpass Hcan]]]]]].
      assert (Hshift : forall m,
                 (((index + 1) mod length arr + 1 + m) mod length arr
                  = (index + 1 + S m) mod length arr)%nat).
      { intros m.
        replace ((index + 1) mod length arr + 1 + m)%nat
          with ((index + 1) mod length arr + (1 + m))%nat by lia.
        rewrite Nat.Div0.add_mod_idemp_l. f_equal; lia. }
      exists (S k), p'. split; [lia | split; [| split; [exact Hp' | split]]].
      * rewrite Hres. apply Hshift.
      * intros [|k'] q Hlt Hq.
        -- rewrite Nat.add_0_r, Hp in Hq. injection Hq as <-.
           unfold canAct. now rewrite Hblocked.
        -- apply (Hpass k' q); [lia |]. now rewrite Hshift.
      * intros Hlt. apply Hcan. lia.
    + exists 0%nat, p. rewrite Nat.add_0_r.
      repeat split; auto; try lia; try (intros k' q Hk; lia).
      intros _. unfold canAct. now rewrite Hblocked.
Qed.

(** X17. With at least one player seated, [advanceToNextPlayer] moves
    the acting index to a seat of the table, and to a player who can act
    (neither folded nor all-in) whenever the table has one; only if every
    player is folded or all-in does it stop on a player who cannot act.
    Nothing but the acting index changes. *)
Theorem advanceToNextPlayer_finds_an_actor (s : t) :
  players s <> [] ->
  exists p,
    nth_error (players s) (currentPlayerIndex (advanceToNextPlayer s)) = Some p
    /\ ((exists q, In q (players s) /\ canAct q = true) -> canAct p = true)
    /\ advanceToNextPlayer s
       = setCurrentPlayerIndex (currentPlayerIndex (advanceToNextPlayer s)) s.
Proof.
  intros Hne. unfold advanceToNextPlayer. table_simpl.
  set (len := length (players s)).
  assert (Hlen : (0 < len)%nat)
    by (unfold len; destruct (players s); [congruence | cbn; lia]).
  destruct (advanceFrom_scan (players s) Hne (len - 1) (currentPlayerIndex s))
    as [k [p [Hk [Hres [Hp [Hpass Hcan]]]]]].
  exists p. split; [exact Hp | split; [| reflexivity]].
  intros [q [Hq Hqcan]].
  destruct (Nat.eq_dec k (len - 1)) as [Hlast | Hearly]; [| apply Hcan; lia].
  apply In_nth_error in Hq. destruct Hq as [j Hj].
  assert (Hjlen : (j < len)%nat) by (apply nth_error_Some; congruence).
  destruct (reach_every_index len (currentPlayerIndex s + 1) j Hlen Hjlen)
    as [k' [Hk' Hreach]].
  destruct (Nat.eq_dec k' k) as [-> | Hne'].
  - fold len in Hres. rewrite Hres, Hreach, Hj in Hp. now injection Hp as <-.
  - assert (Hblocked : canAct q = false).
    { apply (Hpass k' q); [lia |]. fold len. now rewrite Hreach. }
    congruence.
Qed.

Lemma advanceToNextPlayer_finds_an_actor_witness :
  exists p,
    nth_error (players Examples.headsUp)
              (currentPlayerIndex (advanceToNextPlayer Examples.headsUp)) = Some p
    /\ ((exists q, In q (players Examples.headsUp) /\ canAct q = true) -> canAct p = true)
    /\ advanceToNextPlayer Examples.headsUp
       = setCurrentPlayerIndex (currentPlayerIndex (advanceToNextPlayer Examples.headsUp))
                               Examples.headsUp.
Proof.
  apply (advanceToNextPlayer_finds_an_actor Examples.headsUp).
  vm_compute. discriminate.
Defined.

End Turns.

(** ** TableInstance: what is sent out *)

Section Views.
Import TablePlayer TableInstance.

(** X18. Outside the showdown and payout phases [broadcastState] sends
    one event per seated player, in seating order, each to that player
    alone and carrying that player's own view; and every personal view the
    table builds passes the serializer's validator for its recipient. *)
Theorem broadcastState_sends_validated_personal_views (s : t) :
  (gameState s <> GameState.SHOWDOWN_REVEAL ->
   gameState s <> GameState.PAYOUT_ANIMATION ->
   broadcastState s
   = map (fun p => OnStateChange (getPlayerView (steamId p) s) [steamId p]) (players s))
  /\ (forall id, StateSerializer.validateSanitized (getPlayerView id s) id = true).
Proof.
  split.
  - intros Hshow Hpay. unfold broadcastState, getPlayerView.
    rewrite map_map. destruct (gameState s); try reflexivity; congruence.
  - intros id. apply serializeForPlayer_validates.
Qed.

Lemma includes_In (x : string) (l : list string) :
  In x l -> includes String.eqb x l = true.
Proof.
  intros Hin. unfold includes. apply existsb_exists.
  exists x. split; [exact Hin | apply String.eqb_refl].
Qed.

(** X19. In the showdown and payout phases a single view goes to all the
    seated players together, and it carries the hole cards of every
    player who is still in the hand.  In the payout phase that view does
    not pass the validator for any other viewer: the validator accepts
    opponents' cards in the showdown phase only. *)
Theorem broadcastState_reveals_hands_in_payout (s : t) (p : TablePlayer.t) :
  gameState s = GameState.SHOWDOWN_REVEAL \/ gameState s = GameState.PAYOUT_ANIMATION ->
  In p (players s) ->
  stillIn p = true ->
  broadcastState s = [OnStateChange (getShowdownView s) (map steamId (players s))]
  /\ (exists v, In v (PlayerView.players (getShowdownView s))
                /\ ViewPlayer.steamId v = steamId p
                /\ ViewPlayer.holeCards v = Some (holeCards p))
  /\ (gameState s = GameState.PAYOUT_ANIMATION ->
      forall viewer, viewer <> steamId p ->
                     StateSerializer.validateSanitized (getShowdownView s) viewer = false).
Proof.
  intros Hphase Hin Hstill.
  assert (Hlisted : includes String.eqb (steamId p)
                             (map steamId (filter stillIn (players s))) = true).
  { apply includes_In. apply in_map. apply filter_In. now split. }
  split; [| split].
  - unfold broadcastState. destruct Hphase as [-> | ->]; reflexivity.
  - exists (ViewPlayer.mk (steamId p) (position p) (chips p) (Some (holeCards p))
                          (TablePlayer.currentBet p) (hasFolded p) (isAllIn p)
                          (hasActed p) (handRank p)).
    split; [| split; reflexivity].
    unfold getShowdownView, StateSerializer.serializeForShowdown, buildGodState.
    cbn [PlayerView.players GodState.players]. rewrite map_map.
    apply in_map_iff. exists p. split; [| exact Hin].
    cbn. now rewrite Hlisted.
  - intros Hpay viewer Hviewer.
    unfold StateSerializer.validateSanitized.
    cbn [getShowdownView StateSerializer.serializeForShowdown PlayerView.deck
         PlayerView.players PlayerView.state buildGodState GodState.state
         GodState.players].
    rewrite map_map, Hpay.
    apply not_true_is_false. intros Hall.
    rewrite forallb_forall in Hall.
    specialize (Hall _ (in_map _ _ _ Hin)). cbn in Hall.
    rewrite Hlisted in Hall.
    unfold stillIn in Hstill. apply andb_true_iff in Hstill.
    destruct Hstill as [_ Hnf]. rewrite Hnf in Hall.
    assert (Hne : String.eqb (steamId p) viewer = false)
      by (apply String.eqb_neq; congruence).
    rewrite Hne in Hall. cbn in Hall. discriminate.
Qed.

Lemma broadcastState_reveals_hands_in_payout_witness :
  broadcastState (Examples.after "p2" FOLD None Examples.headsUp)
  = [OnStateChange (getShowdownView (Examples.after "p2" FOLD None Examples.headsUp))
                   (map steamId (players (Examples.after "p2" FOLD None Examples.headsUp)))]
  /\ (exists v,
         In v (PlayerView.players
                 (getShowdownView (Examples.after "p2" FOLD None Examples.headsUp)))
         /\ ViewPlayer.steamId v = "p1"%string
         /\ ViewPlayer.holeCards v
            = Some [Examples.card Card.R2 Card.SH; Examples.card Card.R3 Card.SH])
  /\ (gameState (Examples.after "p2" FOLD None Examples.headsUp)
      = GameState.PAYOUT_ANIMATION ->
      forall viewer, viewer <> "p1"%string ->
                     StateSerializer.validateSanitized
                       (getShowdownView (Examples.after "p2" FOLD None Examples.headsUp))
                       viewer = false).
Proof.
  apply (broadcastState_reveals_hands_in_payout
           (Examples.after "p2" FOLD None Examples.headsUp)
           (TablePlayer.mk "p1" "Ann" 0 1010
              [Examples.card Card.R2 Card.SH; Examples.card Card.R3 Card.SH]
              20 false false false false None None)).
  - right. vm_compute. reflexivity.
  - left. vm_compute. reflexivity.
  - vm_compute. reflexivity.
Defined.

End Views.

(** ** TableInstance: how a hand ends *)

Section FoldOut.
Import TablePlayer TableInstance.




End FoldOut.

Section Showdown.
Import PotManager TablePlayer TableInstance.

Lemma In_includes (x : string) (l : list string) :
  includes String.eqb x l = true -> In x l.
Proof.
  unfold includes. intros H. apply existsb_exists in H.
  destruct H as [y [Hy E]]. apply String.eqb_eq in E. now subst.
Qed.

Lemma keys_mapSet {V : Type} (k : string) (v : V) (m : list (string * V)) (id : string) :
  In id (map fst (mapSet String.eqb k v m)) <-> id = k \/ In id (map fst m).
Proof.
  induction m as [|[k' v'] rest IH]; cbn.
  - intuition.
  - destruct (String.eqb k k') eqn:E; cbn.
    + apply String.eqb_eq in E. subst. intuition.
    + rewrite IH. intuition.
Qed.

(** Evaluating the hands changes nobody's stack, identifier or folded
    flag, and records a result for exactly the players still in. *)
Lemma evaluatePlayers_keeps (community : list Card.t) (ps : list TablePlayer.t) :
  forall hr ps' hr',
    evaluatePlayers community ps hr = Some (ps', hr') ->
    map chips ps' = map chips ps
    /\ map steamId ps' = map steamId ps
    /\ map steamId (filter stillIn ps') = map steamId (filter stillIn ps)
    /\ (forall id, In id (map fst hr')
                   <-> In id (map fst hr) \/ In id (map steamId (filter stillIn ps))).
Proof.
  induction ps as [|p rest IH]; intros hr ps' hr'; cbn [evaluatePlayers].
  - intros [= <- <-]. cbn. intuition.
  - destruct (stillIn p) eqn:Hp.
    + destruct (HandEvaluator.evaluateHand _) as [result|]; [| discriminate].
      destruct (evaluatePlayers community rest _) as [[rest' hr1]|] eqn:Hrest;
        [| discriminate].
      intros [= <- <-].
      destruct (IH _ _ _ Hrest) as [Hc [Hi [Hf Hk]]].
      assert (Hp' : stillIn (setHand (Some (HandEvaluator.description result))
                                     (Some (HandEvaluator.value result)) p) = true)
        by exact Hp.
      cbn [map filter]. rewrite Hp, Hp'. cbn [map].
      split; [f_equal; assumption |].
      split; [f_equal; assumption |].
      split; [f_equal; assumption |].
      intros id. rewrite Hk, keys_mapSet. cbn. intuition.
    + destruct (evaluatePlayers community rest hr) as [[rest' hr1]|] eqn:Hrest;
        [| discriminate].
      intros [= <- <-].
      destruct (IH _ _ _ Hrest) as [Hc [Hi [Hf Hk]]].
      cbn [map filter]. rewrite Hp.
      split; [f_equal; assumption |].
      split; [f_equal; assumption |].
      split; [exact Hf | exact Hk].
Qed.

Lemma winners_keys (hr : list (string * HandEvaluator.HandResult)) :
  forall (w : list (string * Z)) (id : string),
    In id (map fst
             (fold_left
                (fun w e => mapSet String.eqb (fst e) (HandEvaluator.value (snd e)) w)
                hr w))
    <-> In id (map fst w) \/ In id (map fst hr).
Proof.
  induction hr as [|e rest IH]; intros w id; cbn [fold_left map].
  - cbn. intuition.
  - rewrite IH, keys_mapSet. cbn. intuition.
Qed.

Lemma In_stableSort {A : Type} (le : A -> A -> bool) (y : A) (l : list A) :
  In y (stableSort le l) <-> In y l.
Proof.
  split; intros H.
  - apply (Permutation_in _ (stableSort_perm le l)). exact H.
  - apply (Permutation_in _ (Permutation_sym (stableSort_perm le l))). exact H.
Qed.

(** The winners a pot is split between are entries of the winners map,
    and there is one as soon as an eligible player is in the map. *)
Lemma tiedWinnersOf_incl (pot : Pot) (winners : list (string * Z)) (e : string * Z) :
  In e (tiedWinnersOf pot winners) -> In e winners.
Proof.
  unfold tiedWinnersOf.
  destruct (stableSort _ _) as [|top rest] eqn:E; [intros [] |].
  rewrite <- E. intros H. apply filter_In in H. destruct H as [H _].
  apply In_stableSort in H. apply filter_In in H. tauto.
Qed.

Lemma tiedWinnersOf_nonempty (pot : Pot) (winners : list (string * Z)) (id : string) :
  In id (eligiblePlayers pot) ->
  In id (map fst winners) ->
  tiedWinnersOf pot winners <> [].
Proof.
  intros Hel Hw. unfold tiedWinnersOf.
  destruct (stableSort _ _) as [|top rest] eqn:E.
  - exfalso. apply in_map_iff in Hw. destruct Hw as [[id' v] [Hid He]].
    cbn in Hid. subst id'.
    assert (Hin : In (id, v)
                     (stableSort (fun a b => snd b <=? snd a)
                        (filter (fun e => includes String.eqb (fst e) (eligiblePlayers pot))
                                winners))).
    { apply In_stableSort. apply filter_In. split; [exact He |].
      cbn. now apply includes_In. }
    rewrite E in Hin. destruct Hin.
  - cbn [filter]. rewrite Z.eqb_refl. discriminate.
Qed.

Lemma payTied_keys (split rem : Z) (tied : list (string * Z)) :
  forall (index : nat) (payouts : list (string * Z)) (id : string),
    In id (map fst (payTied split rem index tied payouts)) ->
    In id (map fst tied) \/ In id (map fst payouts).
Proof.
  induction tied as [|[p v] rest IH]; intros index payouts id; cbn [payTied map fst].
  - now right.
  - intros H. apply IH in H. rewrite keys_mapSet in H. cbn. intuition.
Qed.

Lemma distributePots_keys (winners : list (string * Z)) (pots : list Pot) :
  forall (payouts : list (string * Z)) (id : string),
    In id (map fst (fold_left (distributeOne winners) pots payouts)) ->
    In id (map fst winners) \/ In id (map fst payouts).
Proof.
  induction pots as [|pot rest IH]; intros payouts id; cbn [fold_left].
  - now right.
  - intros H. apply IH in H. destruct H as [H | H]; [now left |].
    unfold distributeOne in H.
    destruct (tiedWinnersOf pot winners) as [|w ws] eqn:E; [now right |].
    apply payTied_keys in H. destruct H as [H | H]; [left | now right].
    apply in_map_iff in H. destruct H as [e [<- He]].
    apply in_map. apply (tiedWinnersOf_incl pot). now rewrite E.
Qed.

Lemma findIndex_finds {A : Type} (p : A -> bool) (l : list A) (x : A) :
  In x l -> p x = true -> exists i y, findIndex p l = Some i /\ nth_error l i = Some y.
Proof.
  induction l as [|y t IH]; intros Hin Hp; [destruct Hin |].
  cbn [findIndex]. destruct (p y) eqn:Hy.
  - exists 0%nat, y. now split.
  - destruct Hin as [-> | Hin]; [congruence |].
    destruct (IH Hin Hp) as [i [z [Hi Hz]]].
    exists (S i), z. rewrite Hi. now split.
Qed.

Lemma map_steamId_updateAt (i : nat) (f : TablePlayer.t -> TablePlayer.t)
      (l : list TablePlayer.t) :
  (forall p, steamId (f p) = steamId p) ->
  map steamId (updateAt i f l) = map steamId l.
Proof.
  intros Hf. revert i. induction l as [|x t IH]; intros [|i]; cbn; try reflexivity.
  - now rewrite Hf.
  - now rewrite IH.
Qed.

(** Crediting the payouts adds their total to the stacks, as long as
    every paid identifier is seated. *)
Lemma applyPayouts_totalStacks (payouts : list (string * Z)) :
  forall s : TableInstance.t,
    (forall id, In id (map fst payouts) -> In id (map steamId (players s))) ->
    totalStacks (fold_left applyPayout payouts s)
    = totalStacks s + sumZ (map snd payouts)
    /\ potManager (fold_left applyPayout payouts s) = potManager s.
Proof.
  induction payouts as [|[id amt] rest IH]; intros s Hseated; cbn [fold_left map sumZ snd].
  - split; [lia | reflexivity].
  - assert (Hid : In id (map steamId (players s))) by (apply Hseated; now left).
    apply in_map_iff in Hid. destruct Hid as [x [Hx Hin]].
    destruct (findIndex_finds (fun p => String.eqb (steamId p) id) (players s) x Hin)
      as [i [y [Hi Hy]]]; [rewrite Hx; apply String.eqb_refl |].
    unfold applyPayout at 2 4. cbn [fst snd]. unfold indexBySteamId. rewrite Hi.
    set (s1 := mutatePlayer i (fun p => setChips (chips p + amt) p) s).
    assert (Hids : map steamId (players s1) = map steamId (players s))
      by (unfold s1; table_simpl; now apply map_steamId_updateAt).
    destruct (IH s1) as [Ht Hp].
    { intros id' Hin'. rewrite Hids. apply Hseated. now right. }
    rewrite Ht, Hp. split; [| reflexivity].
    unfold s1, totalStacks. table_simpl.
    rewrite (sumZ_updateAt chips i _ _ y Hy). destruct y. cbn. lia.
Qed.

(** What a showdown adds to the stacks. *)
Lemma startShowdown_totalStacks (s s' : TableInstance.t)
        (evs : list Event) :
  Forall (fun e => 0 <= snd e) (contributions (potManager s)) ->
  startShowdown s = Some (s', evs) ->
  gameState s' = GameState.PAYOUT_ANIMATION
  /\ totalStacks s'
     = totalStacks s
       + sumZ (map snd
                 (filter
                    (fun e => includes String.eqb (fst e)
                                       (map steamId (filter stillIn (players s))))
                    (contributions (potManager s)))).
Proof.
  intros Hpos. unfold startShowdown.
  destruct (evaluatePlayers _ _ _) as [[ps hr]|] eqn:Hev; [| discriminate].
  table_simpl.
  destruct (evaluatePlayers_keeps _ _ _ _ _ Hev) as [Hc [Hi [Hf Hk]]].
  unfold calculatePayouts. table_simpl. rewrite Hf.
  set (active := map steamId (filter stillIn (players s))) in *.
  set (pots := calculatePots (potManager s) active).
  set (winners := fold_left _ hr []).
  set (s1 := setPlayers ps (transitionTo GameState.SHOWDOWN_REVEAL s)).
  intros [= <- _]. split; [reflexivity |].
  assert (Hwin : forall id, In id (map fst winners) <-> In id active).
  { intros id. unfold winners. rewrite winners_keys, Hk. cbn. intuition. }
  destruct (applyPayouts_totalStacks (distributePots pots winners) s1) as [Ht _].
  { intros id Hin. unfold s1. table_simpl. rewrite Hi.
    apply distributePots_keys in Hin. destruct Hin as [Hin | []].
    apply Hwin in Hin. unfold active in Hin.
    apply in_map_iff in Hin. destruct Hin as [p [<- Hp]].
    apply in_map. apply filter_In in Hp. tauto. }
  unfold totalStacks in *. table_simpl. rewrite Ht.
  unfold s1. table_simpl. rewrite Hc. f_equal.
  unfold distributePots. rewrite distributePots_sum_from.
  - cbn [map sumZ]. rewrite Z.add_0_l. now apply calculatePots_sum.
  - eapply Forall_impl; [| apply calculatePots_each_pot].
    intros pot [Hamt [Hne Hel]]. split; [lia |].
    destruct (eligiblePlayers pot) as [|id rest] eqn:E; [contradiction |].
    apply (tiedWinnersOf_nonempty pot winners id).
    + rewrite E. now left.
    + apply Hwin. apply In_includes. apply Hel. now left.
Qed.

(** X21. A showdown pays out exactly what the players still in the hand
    contributed: after [startShowdown] the stacks have grown by the
    recorded contributions of the players still in (those who have not
    folded and have chips or a bet on the table), and the table is in the
    payout phase.  What anybody else put in is paid to nobody, so the
    stacks grow by no more than the pot total. *)
Theorem startShowdown_pays_the_active_contributions (s s' : TableInstance.t)
        (evs : list Event) :
  Forall (fun e => 0 <= snd e) (contributions (potManager s)) ->
  startShowdown s = Some (s', evs) ->
  gameState s' = GameState.PAYOUT_ANIMATION
  /\ totalStacks s'
     = totalStacks s
       + sumZ (map snd
                 (filter
                    (fun e => includes String.eqb (fst e)
                                       (map steamId (filter stillIn (players s))))
                    (contributions (potManager s))))
  /\ totalStacks s' <= totalStacks s + getTotalPot (potManager s).
Proof.
  intros Hpos Hshow.
  destruct (startShowdown_totalStacks s s' evs Hpos Hshow) as [Hg Htotal].
  split; [exact Hg | split; [exact Htotal |]].
  pose proof (sumZ_filter_split
                (fun e => includes String.eqb (fst e)
                                   (map steamId (filter stillIn (players s))))
                (contributions (potManager s))) as Hsplit.
  pose proof (sumZ_filter_nonneg
                (fun e => negb (includes String.eqb (fst e)
                                         (map steamId (filter stillIn (players s)))))
                (contributions (potManager s)) Hpos) as Hrest.
  cbv beta in Hsplit. rewrite getTotalPot_sum. lia.
Qed.

Lemma startShowdown_pays_the_active_contributions_witness :
  gameState (Scenes.shownDown Scenes.threeOnRiver) = GameState.PAYOUT_ANIMATION
  /\ totalStacks (Scenes.shownDown Scenes.threeOnRiver)
     = totalStacks Scenes.threeOnRiver
       + sumZ (map snd
                 (filter
                    (fun e => includes String.eqb (fst e)
                                (map steamId (filter stillIn (players Scenes.threeOnRiver))))
                    (contributions (potManager Scenes.threeOnRiver))))
  /\ totalStacks (Scenes.shownDown Scenes.threeOnRiver)
     <= totalStacks Scenes.threeOnRiver + getTotalPot (potManager Scenes.threeOnRiver).
Proof.
  apply (startShowdown_pays_the_active_contributions Scenes.threeOnRiver
           (Scenes.shownDown Scenes.threeOnRiver)
           (Scenes.shownDownEvents Scenes.threeOnRiver)).
  - vm_compute. repeat constructor; discriminate.
  - vm_compute. reflexivity.
Defined.

Lemma applyPayouts_leaves_alone (payouts : list (string * Z)) (i : nat) :
  forall (s : TableInstance.t) (p : TablePlayer.t),
    nth_error (players s) i = Some p ->
    ~ In (steamId p) (map fst payouts) ->
    exists p',
      nth_error (players (fold_left applyPayout payouts s)) i = Some p'
      /\ chips p' = chips p.
Proof.
  induction payouts as [|[id amt] rest IH]; intros s p Hp Hnotin; cbn [fold_left].
  - now exists p.
  - assert (Hstep : nth_error (players (applyPayout s (id, amt))) i = Some p).
    { unfold applyPayout. cbn [fst snd].
      destruct (indexBySteamId id s) as [j|] eqn:Hj; [| exact Hp].
      table_simpl. rewrite nth_error_updateAt_other; [exact Hp |].
      intros ->. apply Hnotin. left. cbn [fst].
      symmetry. exact (indexBySteamId_steamId id s i p Hj Hp). }
    apply (IH _ p Hstep). intros Hin. apply Hnotin. now right.
Qed.

(** X22. A showdown pays nobody but the players still in: a seated player
    whose identifier is not among those who have not folded and have
    chips or a bet on the table keeps exactly the stack held before.
    Bets are cleared when a street is dealt, so this covers a player who
    went all-in on an earlier street as much as one who folded. *)
Theorem startShowdown_pays_only_players_still_in (s s' : TableInstance.t)
        (evs : list Event) (i : nat) (p : TablePlayer.t) :
  startShowdown s = Some (s', evs) ->
  nth_error (players s) i = Some p ->
  ~ In (steamId p) (map steamId (filter stillIn (players s))) ->
  exists p', nth_error (players s') i = Some p' /\ chips p' = chips p.
Proof.
  unfold startShowdown.
  destruct (evaluatePlayers _ _ _) as [[ps hr]|] eqn:Hev; [| discriminate].
  table_simpl.
  destruct (evaluatePlayers_keeps _ _ _ _ _ Hev) as [Hc [Hi [Hf Hk]]].
  unfold calculatePayouts. table_simpl. rewrite Hf.
  set (active := map steamId (filter stillIn (players s))) in *.
  set (pots := calculatePots (potManager s) active).
  set (winners := fold_left _ hr []).
  set (s1 := setPlayers ps (transitionTo GameState.SHOWDOWN_REVEAL s)).
  intros [= <- _] Hp Hout. table_simpl.
  assert (Hp0 : exists p0, nth_error ps i = Some p0
                           /\ chips p0 = chips p /\ steamId p0 = steamId p).
  { assert (H1 : nth_error (map chips ps) i = Some (chips p))
      by (rewrite Hc, nth_error_map, Hp; reflexivity).
    assert (H2 : nth_error (map steamId ps) i = Some (steamId p))
      by (rewrite Hi, nth_error_map, Hp; reflexivity).
    rewrite nth_error_map in H1, H2.
    destruct (nth_error ps i) as [p0|]; [| discriminate].
    exists p0. cbn in H1, H2. split; [reflexivity | split; congruence]. }
  destruct Hp0 as [p0 [Hp0 [Hchips Hid]]].
  destruct (applyPayouts_leaves_alone (distributePots pots winners) i s1 p0)
    as [p' [Hp' Hsame]].
  - exact Hp0.
  - rewrite Hid. intros Hin. apply Hout.
    apply distributePots_keys in Hin. destruct Hin as [Hin | []].
    unfold winners in Hin. rewrite winners_keys, Hk in Hin. cbn in Hin. intuition.
  - exists p'. split; [exact Hp' | congruence].
Qed.

Lemma startShowdown_pays_only_players_still_in_witness :
  exists p',
    nth_error (players (Scenes.shownDown Scenes.allInOnRiver)) 2 = Some p'
    /\ chips p' = chips (TablePlayer.mk "p3" "Cyd" 2 0 [Examples.card Card.R6 Card.SH;
                                                        Examples.card Card.R7 Card.SH]
                                        0 false true false false None None).
Proof.
  apply (startShowdown_pays_only_players_still_in Scenes.allInOnRiver
           (Scenes.shownDown Scenes.allInOnRiver)
           (Scenes.shownDownEvents Scenes.allInOnRiver) 2).
  - vm_compute. reflexivity.
  - vm_compute. reflexivity.
  - vm_compute. intros [H | [H | []]]; discriminate H.
Defined.

End Showdown.

(** ** TableInstance: play never changes the seating *)

Lemma seatOf_updateAt (i : nat) (f : TablePlayer.t -> TablePlayer.t)
      (l : list TablePlayer.t) :
  (forall p, Lifecycle.seatOf (f p) = Lifecycle.seatOf p) ->
  map Lifecycle.seatOf (updateAt i f l) = map Lifecycle.seatOf l.
Proof.
  intros Hf. revert i. induction l as [|x t IH]; intros [|i]; cbn [updateAt map];
    try reflexivity.
  - now rewrite Hf.
  - now rewrite IH.
Qed.

Lemma seatOf_map (f : TablePlayer.t -> TablePlayer.t) (l : list TablePlayer.t) :
  (forall p, Lifecycle.seatOf (f p) = Lifecycle.seatOf p) ->
  map Lifecycle.seatOf (map f l) = map Lifecycle.seatOf l.
Proof.
  intros Hf. induction l as [|x t IH]; cbn [map]; [reflexivity |].
  now rewrite Hf, IH.
Qed.

Lemma seatOf_allInIfBroke (p : TablePlayer.t) :
  Lifecycle.seatOf (TablePlayer.allInIfBroke p) = Lifecycle.seatOf p.
Proof. unfold TablePlayer.allInIfBroke. now destruct (TablePlayer.chips p =? 0). Qed.

(** Rewrites the seating of a table reached through field assignments
    back to the seating of the table they started from. *)
Ltac seating_simpl :=
  unfold Lifecycle.seating; table_simpl;
  repeat first
    [ rewrite seatOf_updateAt
        by (intros ?; try rewrite seatOf_allInIfBroke; reflexivity)
    | rewrite seatOf_map
        by (intros ?;
            repeat match goal with
                   | |- context [if ?c then _ else _] => destruct c
                   end; reflexivity) ];
  try reflexivity.

Section Seating.
Import TablePlayer TableInstance Lifecycle.

Lemma seating_handlePlayerFold (id : string) (s : TableInstance.t) :
  seating (snd (fst (handlePlayerFold id s))) = seating s.
Proof.
  unfold handlePlayerFold.
  destruct (indexBySteamId id s) as [i|]; [| reflexivity].
  destruct (indicesFrom _ _ _) as [|w [|w' rest]]; cbn [fst snd handleSingleWinner];
    seating_simpl.
Qed.

Lemma seating_handlePlayerCheck (id : string) (s : TableInstance.t) :
  snd (handlePlayerCheck id s) = s.
Proof.
  unfold handlePlayerCheck.
  destruct (getPlayerBySteamId id s) as [p|]; [| reflexivity].
  now destruct (_ <? _).
Qed.

Lemma seating_handlePlayerCall (id : string) (s : TableInstance.t) :
  seating (snd (handlePlayerCall id s)) = seating s.
Proof.
  unfold handlePlayerCall.
  destruct (indexBySteamId id s) as [i|]; [| reflexivity].
  destruct (getPlayerBySteamId id s) as [p|]; [| reflexivity].
  destruct (_ <=? 0); cbn [snd]; seating_simpl.
Qed.

Lemma seating_handlePlayerRaise (id : string) (amount : option Z) (s : TableInstance.t) :
  seating (snd (handlePlayerRaise id amount s)) = seating s.
Proof.
  unfold handlePlayerRaise, reopenAction.
  destruct (indexBySteamId id s) as [i|]; [| reflexivity].
  destruct (getPlayerBySteamId id s) as [p|]; [| reflexivity].
  destruct amount as [amt|]; [| reflexivity].
  destruct (amt =? 0); [reflexivity |].
  destruct (_ || _); [reflexivity |].
  destruct (_ >? chips p); cbn [snd]; seating_simpl.
Qed.

Lemma seating_handlePlayerAllIn (id : string) (s : TableInstance.t) :
  seating (snd (handlePlayerAllIn id s)) = seating s.
Proof.
  unfold handlePlayerAllIn, reopenAction.
  destruct (indexBySteamId id s) as [i|]; [| reflexivity].
  destruct (getPlayerBySteamId id s) as [p|]; [| reflexivity].
  destruct (chips p =? 0); [reflexivity |].
  destruct (_ >? _); cbn [snd]; seating_simpl.
Qed.

Lemma seating_dispatch (id : string) (action : ActionType) (amount : option Z)
      (s : TableInstance.t) :
  seating (snd (fst (dispatch id action amount s))) = seating s.
Proof.
  destruct action; cbn [dispatch fst snd].
  - apply seating_handlePlayerFold.
  - now rewrite seating_handlePlayerCheck.
  - apply seating_handlePlayerCall.
  - apply seating_handlePlayerRaise.
  - apply seating_handlePlayerAllIn.
Qed.

Lemma seating_dealStreet (count : nat) (street : GameState.t) (s s' : TableInstance.t) :
  dealStreet count street s = Some s' -> seating s' = seating s.
Proof.
  unfold dealStreet.
  destruct (Deck.burn (deck s)) as [d1|]; [| discriminate].
  destruct (Deck.deal count d1) as [[cards d2]|]; [| discriminate].
  intros [= <-]. seating_simpl.
Qed.

Lemma seating_evaluatePlayers (community : list Card.t) (ps : list TablePlayer.t) :
  forall hr ps' hr',
    evaluatePlayers community ps hr = Some (ps', hr') ->
    map seatOf ps' = map seatOf ps.
Proof.
  induction ps as [|p rest IH]; intros hr ps' hr'; cbn [evaluatePlayers].
  - now intros [= <- <-].
  - destruct (stillIn p).
    + destruct (HandEvaluator.evaluateHand _) as [result|]; [| discriminate].
      destruct (evaluatePlayers community rest _) as [[rest' hr1]|] eqn:Hrest;
        [| discriminate].
      intros [= <- <-]. cbn [map]. f_equal. exact (IH _ _ _ Hrest).
    + destruct (evaluatePlayers community rest hr) as [[rest' hr1]|] eqn:Hrest;
        [| discriminate].
      intros [= <- <-]. cbn [map]. f_equal. exact (IH _ _ _ Hrest).
Qed.

Lemma seating_applyPayouts (payouts : list (string * Z)) :
  forall s : TableInstance.t, seating (fold_left applyPayout payouts s) = seating s.
Proof.
  induction payouts as [|e rest IH]; intros s; cbn [fold_left]; [reflexivity |].
  rewrite IH. unfold applyPayout.
  destruct (indexBySteamId (fst e) s) as [i|]; seating_simpl.
Qed.

Lemma seating_endBettingRound (s s' : TableInstance.t) (evs : list Event) :
  endBettingRound s = Some (s', evs) -> seating s' = seating s.
Proof.
  unfold endBettingRound, dealFlop, dealTurn, dealRiver, startShowdown.
  destruct (gameState s); try (now intros [= <- _]).
  - destruct (dealStreet 3 GameState.FLOP s) as [s1|] eqn:Hd; [| discriminate].
    intros [= <- _]. rewrite <- (seating_dealStreet _ _ _ _ Hd). seating_simpl.
  - destruct (dealStreet 1 GameState.TURN s) as [s1|] eqn:Hd; [| discriminate].
    cbn [option_map]. intros [= <- _].
    rewrite <- (seating_dealStreet _ _ _ _ Hd). seating_simpl.
  - destruct (dealStreet 1 GameState.RIVER s) as [s1|] eqn:Hd; [| discriminate].
    cbn [option_map]. intros [= <- _].
    rewrite <- (seating_dealStreet _ _ _ _ Hd). seating_simpl.
  - destruct (evaluatePlayers _ _ _) as [[ps hr]|] eqn:He; [| discriminate].
    unfold calculatePayouts. intros [= <- _].
    unfold seating at 1. table_simpl. fold (seating (fold_left applyPayout
      (PotManager.distributePots
         (PotManager.calculatePots (potManager s)
            (map steamId (filter stillIn ps)))
         (fold_left
            (fun w e => mapSet String.eqb (fst e) (HandEvaluator.value (snd e)) w)
            hr []))
      (setPlayers ps (transitionTo GameState.SHOWDOWN_REVEAL s)))).
    rewrite seating_applyPayouts. unfold seating. table_simpl.
    exact (seating_evaluatePlayers _ _ _ _ _ He).
Qed.

Lemma seating_handlePlayerAction (id : string) (action : ActionType)
      (amount : option Z) (s s' : TableInstance.t) (ok : bool) (evs : list Event) :
  handlePlayerAction id action amount s = Some (ok, s', evs) ->
  seating s' = seating s.
Proof.
  unfold handlePlayerAction.
  destruct (getCurrentPlayer s) as [cp|]; [| now intros [= _ <- _]].
  destruct (negb _); [now intros [= _ <- _] |].
  destruct (_ || _); [now intros [= _ <- _] |].
  destruct (negb (isInBettingRound s)); [now intros [= _ <- _] |].
  pose proof (seating_dispatch id action amount s) as Hd.
  destruct (dispatch id action amount s) as [[success s1] evs1].
  cbn [fst snd] in Hd.
  destruct success; cbn [negb]; [| now intros [= _ <- _]].
  set (s3 := incrementSequenceId (mutatePlayer (currentPlayerIndex s) (setHasActed true) s1)).
  assert (H3 : seating s3 = seating s) by (rewrite <- Hd; subst s3; seating_simpl).
  destruct (isBettingRoundComplete s3).
  - destruct (endBettingRound s3) as [[s4 evs2]|] eqn:He; [| discriminate].
    intros [= _ <- _]. now rewrite (seating_endBettingRound _ _ _ He).
  - intros [= _ <- _]. rewrite <- H3. reflexivity.
Qed.

Lemma seating_setPlayerReady (id : string) (s : TableInstance.t) :
  seating (setPlayerReady id s) = seating s.
Proof.
  unfold setPlayerReady.
  destruct (indexBySteamId id s) as [i|]; [| reflexivity].
  unfold checkStartConditions, startGame. table_simpl.
  destruct (gameState s); try seating_simpl.
  destruct (Nat.leb _ _); [| seating_simpl].
  destruct (forallb _ _); seating_simpl.
Qed.

(** X23. Play never changes who sits where with which cards: whatever [handlePlayerAction]
    returns, accepted or rejected, across a new street or a showdown, the
    identifiers, names, seats and hole cards of the players at the table
    are the same, in the same order, as before the call; and so they are
    after [setPlayerReady]. *)
Theorem play_keeps_the_seating (id : string) (s : TableInstance.t) :
  (forall (action : ActionType) (amount : option Z) (ok : bool)
          (s' : TableInstance.t) (evs : list Event),
      handlePlayerAction id action amount s = Some (ok, s', evs) ->
      seating s' = seating s)
  /\ seating (setPlayerReady id s) = seating s.
Proof.
  split.
  - intros action amount ok s' evs H.
    exact (seating_handlePlayerAction _ _ _ _ _ _ _ H).
  - apply seating_setPlayerReady.
Qed.

Lemma play_keeps_the_seating_witness :
  seating (Examples.after "p2" FOLD None Examples.headsUp) = seating Examples.headsUp.
Proof.
  apply (proj1 (play_keeps_the_seating "p2" Examples.headsUp) FOLD None true
           (Examples.after "p2" FOLD None Examples.headsUp)
           (match handlePlayerAction "p2" FOLD None Examples.headsUp with
            | Some (_, _, evs) => evs
            | None => []
            end)).
  vm_compute. reflexivity.
Defined.

End Seating.

(** ** TableManager: routing players to tables *)

Section Routing.
Import TablePlayer TableInstance Lifecycle TableManager.

Lemma mapGet_mapSet {V : Type} (k k' : string) (v : V) (m : list (string * V)) :
  mapGet String.eqb k' (mapSet String.eqb k v m)
  = if String.eqb k' k then Some v else mapGet String.eqb k' m.
Proof.
  induction m as [|[k0 v0] rest IH]; cbn [mapSet mapGet].
  - reflexivity.
  - destruct (String.eqb k k0) eqn:E; cbn [mapGet].
    + apply String.eqb_eq in E. subst k0.
      now destruct (String.eqb k' k).
    + rewrite IH. destruct (String.eqb k' k0) eqn:E0; [| reflexivity].
      apply String.eqb_eq in E0. subst k0.
      rewrite String.eqb_sym in E. now rewrite E.
Qed.

Lemma mapGet_None_keys {V : Type} (k : string) (m : list (string * V)) :
  mapGet String.eqb k m = None <-> ~ In k (map fst m).
Proof.
  induction m as [|[k0 v0] rest IH]; cbn [mapGet map fst].
  - intuition.
  - destruct (String.eqb k k0) eqn:E.
    + apply String.eqb_eq in E. subst. split; [discriminate |].
      intros H. exfalso. apply H. now left.
    + apply String.eqb_neq in E. rewrite IH. cbn. intuition congruence.
Qed.

Lemma keys_mapDelete {V : Type} (k k' : string) (m : list (string * V)) :
  In k' (map fst (mapDelete String.eqb k m)) -> In k' (map fst m).
Proof.
  induction m as [|[k0 v0] rest IH]; cbn [mapDelete map fst]; [tauto |].
  destruct (String.eqb k k0); cbn [map fst In]; intuition.
Qed.

Lemma NoDup_mapDelete {V : Type} (k : string) (m : list (string * V)) :
  NoDup (map fst m) -> NoDup (map fst (mapDelete String.eqb k m)).
Proof.
  induction m as [|[k0 v0] rest IH]; cbn [mapDelete map fst]; [auto |].
  intros Hnd. inversion Hnd as [|? ? Hnotin Hrest]; subst.
  destruct (String.eqb k k0); [exact Hrest |].
  cbn [map fst]. constructor; [| now apply IH].
  intros Hin. apply Hnotin. now apply keys_mapDelete in Hin.
Qed.

Lemma mapGet_mapDelete {V : Type} (k k' : string) (m : list (string * V)) :
  NoDup (map fst m) ->
  mapGet String.eqb k' (mapDelete String.eqb k m)
  = if String.eqb k' k then None else mapGet String.eqb k' m.
Proof.
  induction m as [|[k0 v0] rest IH]; cbn [mapDelete mapGet map fst]; intros Hnd.
  - now destruct (String.eqb k' k).
  - inversion Hnd as [|? ? Hnotin Hrest]; subst.
    destruct (String.eqb k k0) eqn:E.
    + apply String.eqb_eq in E. subst k0.
      destruct (String.eqb k' k) eqn:E'; [| reflexivity].
      apply String.eqb_eq in E'. subst k'. now apply mapGet_None_keys.
    + cbn [mapGet]. rewrite (IH Hrest).
      destruct (String.eqb k' k0) eqn:E0; [| reflexivity].
      apply String.eqb_eq in E0. subst k0.
      rewrite String.eqb_sym in E. now rewrite E.
Qed.

Lemma NoDup_mapSet {V : Type} (k : string) (v : V) (m : list (string * V)) :
  NoDup (map fst m) -> NoDup (map fst (mapSet String.eqb k v m)).
Proof.
  induction m as [|[k0 v0] rest IH]; cbn [mapSet map fst]; intros Hnd.
  - constructor; [intros [] | constructor].
  - inversion Hnd as [|? ? Hnotin Hrest]; subst.
    destruct (String.eqb k k0) eqn:E; cbn [map fst]; [now constructor |].
    constructor; [| now apply IH].
    intros Hin. apply keys_mapSet in Hin. destruct Hin as [-> | Hin].
    + now rewrite String.eqb_refl in E.
    + contradiction.
Qed.

Lemma mapDelete_app {V : Type} (k : string) (v : V) (pre rest : list (string * V)) :
  ~ In k (map fst pre) ->
  mapDelete String.eqb k (pre ++ (k, v) :: rest) = pre ++ rest.
Proof.
  induction pre as [|[k0 v0] pre' IH]; cbn [app mapDelete map fst In]; intros Hnotin.
  - now rewrite String.eqb_refl.
  - destruct (String.eqb k k0) eqn:E.
    + apply String.eqb_eq in E. subst. exfalso. apply Hnotin. now left.
    + f_equal. apply IH. intros Hin. apply Hnotin. now right.
Qed.

(** On a map, the loop of [destroyTable] over [playerToTable] leaves
    exactly the entries that point at another table. *)
Lemma destroyTable_loop (tableId : string) (rest : list (string * string)) :
  forall pre : list (string * string),
    NoDup (map fst (pre ++ rest)) ->
    fold_left
      (fun p2t entry =>
         if String.eqb (snd entry) tableId
         then mapDelete String.eqb (fst entry) p2t
         else p2t)
      rest (pre ++ rest)
    = pre ++ filter (fun e => negb (String.eqb (snd e) tableId)) rest.
Proof.
  induction rest as [|[id tid] rest' IH]; intros pre Hnd; cbn [fold_left filter fst snd].
  - reflexivity.
  - destruct (String.eqb tid tableId) eqn:E; cbn [negb].
    + rewrite mapDelete_app.
      * apply IH. rewrite map_app in *. cbn [map fst] in Hnd.
        now apply NoDup_remove_1 in Hnd.
      * rewrite map_app in Hnd. cbn [map fst] in Hnd.
        apply NoDup_remove_2 in Hnd. intros Hin. apply Hnd.
        apply in_or_app. now left.
    + replace (pre ++ (id, tid) :: rest') with ((pre ++ [(id, tid)]) ++ rest')
        by now rewrite <- app_assoc.
      rewrite IH; [now rewrite <- app_assoc |].
      now rewrite <- app_assoc.
Qed.

Lemma destroyTable_loop_all (tableId : string) (p2t : list (string * string)) :
  NoDup (map fst p2t) ->
  fold_left
    (fun p2t entry =>
       if String.eqb (snd entry) tableId
       then mapDelete String.eqb (fst entry) p2t
       else p2t)
    p2t p2t
  = filter (fun e => negb (String.eqb (snd e) tableId)) p2t.
Proof. intros Hnd. exact (destroyTable_loop tableId p2t [] Hnd). Qed.

Lemma mapGet_filter (keep : string -> bool) (k : string) (m : list (string * string)) :
  NoDup (map fst m) ->
  mapGet String.eqb k (filter (fun e => keep (snd e)) m)
  = match mapGet String.eqb k m with
    | Some v => if keep v then Some v else None
    | None => None
    end.
Proof.
  induction m as [|[k0 v0] rest IH]; cbn [filter mapGet map fst snd]; intros Hnd;
    [reflexivity |].
  inversion Hnd as [|? ? Hnotin Hrest]; subst.
  destruct (String.eqb k k0) eqn:E.
  - apply String.eqb_eq in E. subst k0.
    destruct (keep v0); cbn [mapGet]; [now rewrite String.eqb_refl |].
    rewrite (IH Hrest).
    apply mapGet_None_keys in Hnotin. now rewrite Hnotin.
  - destruct (keep v0); cbn [mapGet]; [rewrite E |]; apply (IH Hrest).
Qed.

Lemma ids_of_seating (s s' : TableInstance.t) :
  seating s' = seating s -> map steamId (players s') = map steamId (players s).
Proof.
  unfold seating. intros H.
  assert (E : forall l, map steamId l = map (fun x => fst (fst (fst x))) (map seatOf l))
    by (intros l; rewrite map_map; reflexivity).
  now rewrite (E (players s')), (E (players s)), H.
Qed.

Lemma In_removeAt {A : Type} (x y : A) (l : list A) :
  forall i, nth_error l i = Some y -> x <> y -> In x l -> In x (removeAt i l).
Proof.
  induction l as [|z t IH]; intros [|i]; cbn [nth_error removeAt In]; try tauto.
  - intros [= ->] Hne [-> | Hin]; [contradiction | exact Hin].
  - intros Hy Hne [-> | Hin]; [now left | right; now apply (IH i)].
Qed.

Lemma map_removeAt {A B : Type} (f : A -> B) (l : list A) :
  forall i, map f (removeAt i l) = removeAt i (map f l).
Proof.
  induction l as [|z t IH]; intros [|i]; cbn [map removeAt]; try reflexivity.
  now rewrite IH.
Qed.

(** Whoever else was seated stays seated when a player is removed. *)
Lemma removePlayer_keeps_others (id id' : string) (s : TableInstance.t) :
  id' <> id ->
  In id' (map steamId (players s)) ->
  In id' (map steamId (players (snd (fst (removePlayer id s))))).
Proof.
  intros Hne Hin. unfold removePlayer.
  destruct (indexBySteamId id s) as [i|] eqn:Hi; [| exact Hin].
  rewrite (getPlayerBySteamId_nth id s i Hi).
  destruct (findIndex_Some _ _ _ Hi) as [p [Hp Hid]]. rewrite Hp.
  apply String.eqb_eq in Hid.
  set (s1 := setPlayers (removeAt i (players s)) s).
  assert (H1 : In id' (map steamId (players s1))).
  { unfold s1. table_simpl. rewrite map_removeAt.
    apply (In_removeAt id' (steamId p)).
    - now rewrite nth_error_map, Hp.
    - congruence.
    - exact Hin. }
  destruct (negb (hasFolded p) && isGameInProgress s1); cbn [fst snd]; [| exact H1].
  rewrite (ids_of_seating _ _ (seating_handlePlayerFold id s1)). exact H1.
Qed.

(** Whoever was seated stays seated when a player is added, and after an
    accepted call the new player is seated. *)
Lemma addPlayer_keeps_others (id name : string) (pos buyIn : Z) (s : TableInstance.t)
      (id' : string) :
  In id' (map steamId (players s)) ->
  In id' (map steamId (players (snd (fst (addPlayer id name pos buyIn s))))).
Proof.
  intros Hin. unfold addPlayer.
  destruct (Nat.leb _ _); [exact Hin |].
  destruct (seatTaken pos s); [exact Hin |].
  destruct (negb _); [exact Hin |].
  cbn [fst snd]. table_simpl.
  destruct (gameState s); table_simpl; rewrite map_app; apply in_or_app; now left.
Qed.

Lemma addPlayer_seats (id name : string) (pos buyIn : Z) (s : TableInstance.t) :
  fst (fst (addPlayer id name pos buyIn s)) = true ->
  In id (map steamId (players (snd (fst (addPlayer id name pos buyIn s))))).
Proof.
  unfold addPlayer.
  destruct (Nat.leb _ _); [discriminate |].
  destruct (seatTaken pos s); [discriminate |].
  destruct (negb _); [discriminate |].
  intros _. cbn [fst snd]. table_simpl.
  destruct (gameState s); table_simpl; rewrite map_app; apply in_or_app; right;
    now left.
Qed.

(** The invariant of the registry: both maps have unique keys, and a
    player is only ever routed to an existing table where the player
    holds a seat. *)
Lemma reachable_routes (m : TableManager.t) :
  reachable m ->
  NoDup (map fst (tables m))
  /\ NoDup (map fst (playerToTable m))
  /\ (forall id tid,
         mapGet String.eqb id (playerToTable m) = Some tid ->
         exists table,
           mapGet String.eqb tid (tables m) = Some table
           /\ In id (map steamId (players table))).
Proof.
  induction 1 as
    [ | tid0 sb bb m Hm [Ht [Hp Hr]] Hfresh
      | tid0 id0 name pos buyIn m Hm [Ht [Hp Hr]]
      | id0 m Hm [Ht [Hp Hr]]
      | tid0 m Hm [Ht [Hp Hr]]
      | tid0 id0 action amount m table table' ok evs Hm [Ht [Hp Hr]] Hget Hact
      | tid0 id0 m table Hm [Ht [Hp Hr]] Hget ].
  - cbn. split; [constructor | split; [constructor | discriminate]].
  - unfold createTable. cbn [snd tables playerToTable TableInstance.tableId create].
    split; [now apply NoDup_mapSet | split; [exact Hp |]].
    intros id tid Hid. destruct (Hr id tid Hid) as [table [Hg Hin]].
    exists table. split; [| exact Hin].
    rewrite mapGet_mapSet. destruct (String.eqb tid tid0) eqn:E; [| exact Hg].
    apply String.eqb_eq in E. subst. unfold getTable in Hfresh. congruence.
  - unfold addPlayerToTable.
    destruct (mapGet String.eqb tid0 (tables m)) as [table|] eqn:Hg;
      [| cbn [fst snd]; now split].
    pose proof (addPlayer_keeps_others id0 name pos buyIn table) as Hkeep.
    pose proof (addPlayer_seats id0 name pos buyIn table) as Hseat.
    destruct (addPlayer id0 name pos buyIn table) as [[success table'] evs].
    cbn [fst snd] in Hkeep, Hseat.
    assert (Hstill : forall id tid,
               mapGet String.eqb id (playerToTable m) = Some tid ->
               exists t', mapGet String.eqb tid
                            (mapSet String.eqb tid0 table' (tables m)) = Some t'
                          /\ In id (map steamId (players t'))).
    { intros id tid Hid. destruct (Hr id tid Hid) as [t0 [Hg0 Hin0]].
      rewrite mapGet_mapSet. destruct (String.eqb tid tid0) eqn:E.
      - apply String.eqb_eq in E. subst tid. exists table'. split; [reflexivity |].
        apply Hkeep. congruence.
      - now exists t0. }
    destruct success; cbn [fst snd tables playerToTable].
    + split; [now apply NoDup_mapSet | split; [now apply NoDup_mapSet |]].
      intros id tid. rewrite mapGet_mapSet.
      destruct (String.eqb id id0) eqn:E; [| apply Hstill].
      apply String.eqb_eq in E. subst id. intros [= <-].
      exists table'. split; [| now apply Hseat].
      now rewrite mapGet_mapSet, String.eqb_refl.
    + split; [now apply NoDup_mapSet | split; [exact Hp | exact Hstill]].
  - unfold removePlayerFromTable.
    destruct (mapGet String.eqb id0 (playerToTable m)) as [tid0|] eqn:Hroute;
      [| cbn [fst snd]; now split].
    destruct (String.eqb tid0 EmptyString); [cbn [fst snd]; now split |].
    destruct (mapGet String.eqb tid0 (tables m)) as [table|] eqn:Hg;
      [| cbn [fst snd]; now split].
    pose proof (fun id' => removePlayer_keeps_others id0 id' table) as Hkeep.
    assert (Hfail : fst (fst (removePlayer id0 table)) = false ->
                    snd (fst (removePlayer id0 table)) = table).
    { unfold removePlayer.
      destruct (indexBySteamId id0 table); [| reflexivity].
      destruct (getPlayerBySteamId id0 table); [discriminate | reflexivity]. }
    destruct (removePlayer id0 table) as [[success table'] evs].
    cbn [fst snd] in Hkeep, Hfail.
    destruct success; cbn [fst snd tables playerToTable].
    + split; [now apply NoDup_mapSet | split; [now apply NoDup_mapDelete |]].
      intros id tid. rewrite (mapGet_mapDelete _ _ _ Hp).
      destruct (String.eqb id id0) eqn:E; [discriminate |].
      apply String.eqb_neq in E.
      intros Hid. destruct (Hr id tid Hid) as [t0 [Hg0 Hin0]].
      rewrite mapGet_mapSet. destruct (String.eqb tid tid0) eqn:E'.
      * apply String.eqb_eq in E'. subst tid. exists table'. split; [reflexivity |].
        apply Hkeep; [exact E | congruence].
      * now exists t0.
    + rewrite (Hfail eq_refl).
      split; [now apply NoDup_mapSet | split; [exact Hp |]].
      intros id tid Hid. destruct (Hr id tid Hid) as [t0 [Hg0 Hin0]].
      rewrite mapGet_mapSet. destruct (String.eqb tid tid0) eqn:E'.
      * apply String.eqb_eq in E'. subst tid. exists table. split; [reflexivity |].
        congruence.
      * now exists t0.
  - unfold destroyTable.
    destruct (mapGet String.eqb tid0 (tables m)) as [table|] eqn:Hg;
      [| cbn [snd]; now split].
    cbn [snd tables playerToTable].
    rewrite (destroyTable_loop_all tid0 (playerToTable m) Hp).
    split; [now apply NoDup_mapDelete | split; [now apply NoDup_keys_filter |]].
    intros id tid.
    rewrite (mapGet_filter (fun t => negb (String.eqb t tid0)) id _ Hp).
    destruct (mapGet String.eqb id (playerToTable m)) as [t|] eqn:Hid; [| discriminate].
    destruct (String.eqb t tid0) eqn:E; cbn [negb]; [discriminate |].
    intros [= <-]. destruct (Hr id t Hid) as [t0 [Hg0 Hin0]].
    exists t0. split; [| exact Hin0].
    rewrite (mapGet_mapDelete _ _ _ Ht), E. exact Hg0.
  - unfold storeTable. cbn [tables playerToTable].
    split; [now apply NoDup_mapSet | split; [exact Hp |]].
    intros id tid Hid. destruct (Hr id tid Hid) as [t0 [Hg0 Hin0]].
    rewrite mapGet_mapSet. destruct (String.eqb tid tid0) eqn:E; [| now exists t0].
    apply String.eqb_eq in E. subst tid. exists table'. split; [reflexivity |].
    rewrite (ids_of_seating _ _ (seating_handlePlayerAction _ _ _ _ _ _ _ Hact)).
    unfold getTable in Hget. congruence.
  - unfold storeTable. cbn [tables playerToTable].
    split; [now apply NoDup_mapSet | split; [exact Hp |]].
    intros id tid Hid. destruct (Hr id tid Hid) as [t0 [Hg0 Hin0]].
    rewrite mapGet_mapSet. destruct (String.eqb tid tid0) eqn:E; [| now exists t0].
    apply String.eqb_eq in E. subst tid. exists (setPlayerReady id0 table).
    split; [reflexivity |].
    rewrite (ids_of_seating _ _ (seating_setPlayerReady id0 table)).
    unfold getTable in Hget. congruence.
Qed.

(** X24. The registry never routes a player to a table where the player
    holds no seat: in every state the manager reaches by creating tables
    under unused identifiers, adding and removing players, destroying
    tables and letting players act or get ready, the table
    [findTableForPlayer] returns for a player is registered under the
    identifier the player is mapped to and has that player among its
    seated players. *)
Theorem findTableForPlayer_finds_a_seat (m : TableManager.t) (steamId : string)
        (table : TableInstance.t) :
  reachable m ->
  findTableForPlayer steamId m = Some table ->
  In steamId (map TablePlayer.steamId (players table))
  /\ exists tableId,
       mapGet String.eqb steamId (playerToTable m) = Some tableId
       /\ getTable tableId m = Some table.
Proof.
  intros Hm. destruct (reachable_routes m Hm) as [_ [_ Hr]].
  unfold findTableForPlayer, getTable.
  destruct (mapGet String.eqb steamId (playerToTable m)) as [tid|] eqn:Hid;
    [| discriminate].
  destruct (String.eqb tid EmptyString); [discriminate |].
  intros Hg. destruct (Hr _ _ Hid) as [t0 [Hg0 Hin0]].
  split; [congruence | now exists tid].
Qed.

Lemma findTableForPlayer_finds_a_seat_witness :
  In "p1"%string (map TablePlayer.steamId (players Examples.oneSeated))
  /\ exists tableId,
       mapGet String.eqb "p1"%string (playerToTable Lobby.oneRouted) = Some tableId
       /\ getTable tableId Lobby.oneRouted = Some Examples.oneSeated.
Proof.
  apply (findTableForPlayer_finds_a_seat Lobby.oneRouted "p1" Examples.oneSeated).
  - apply reachable_addPlayerToTable. apply reachable_createTable.
    + apply reachable_empty.
    + reflexivity.
  - vm_compute. reflexivity.
Defined.

(** X25. Destroying a registered table takes it out of the registry and
    with it every route that pointed at it; the routes of all other
    players are as before.  An unknown identifier is answered [false]
    and nothing changes. *)
Theorem destroyTable_drops_table_and_routes (m : TableManager.t) (tableId : string) :
  reachable m ->
  (getTable tableId m = None -> destroyTable tableId m = (false, m))
  /\ (getTable tableId m <> None ->
      fst (destroyTable tableId m) = true
      /\ getTable tableId (snd (destroyTable tableId m)) = None
      /\ (forall tid, tid <> tableId ->
                      getTable tid (snd (destroyTable tableId m)) = getTable tid m)
      /\ (forall id,
             mapGet String.eqb id (playerToTable (snd (destroyTable tableId m)))
             = match mapGet String.eqb id (playerToTable m) with
               | Some tid => if String.eqb tid tableId then None else Some tid
               | None => None
               end)).
Proof.
  intros Hm. destruct (reachable_routes m Hm) as [Ht [Hp _]].
  unfold destroyTable, getTable. split.
  - now intros ->.
  - destruct (mapGet String.eqb tableId (tables m)) as [table|] eqn:Hg;
      [intros _ | congruence].
    cbn [fst snd tables playerToTable].
    rewrite (destroyTable_loop_all tableId (playerToTable m) Hp).
    split; [reflexivity | split; [| split]].
    + now rewrite (mapGet_mapDelete _ _ _ Ht), String.eqb_refl.
    + intros tid Hne. rewrite (mapGet_mapDelete _ _ _ Ht).
      apply String.eqb_neq in Hne. now rewrite Hne.
    + intros id.
      rewrite (mapGet_filter (fun t => negb (String.eqb t tableId)) id _ Hp).
      destruct (mapGet String.eqb id (playerToTable m)) as [t|]; [| reflexivity].
      now destruct (String.eqb t tableId).
Qed.

Lemma destroyTable_drops_table_and_routes_witness :
  (getTable "t1" Lobby.oneRouted = None ->
   destroyTable "t1" Lobby.oneRouted = (false, Lobby.oneRouted))
  /\ (getTable "t1" Lobby.oneRouted <> None ->
      fst (destroyTable "t1" Lobby.oneRouted) = true
      /\ getTable "t1" (snd (destroyTable "t1" Lobby.oneRouted)) = None
      /\ (forall tid, tid <> "t1"%string ->
                      getTable tid (snd (destroyTable "t1" Lobby.oneRouted))
                      = getTable tid Lobby.oneRouted)
      /\ (forall id,
             mapGet String.eqb id (playerToTable (snd (destroyTable "t1" Lobby.oneRouted)))
             = match mapGet String.eqb id (playerToTable Lobby.oneRouted) with
               | Some tid => if String.eqb tid "t1" then None else Some tid
               | None => None
               end)).
Proof.
  apply (destroyTable_drops_table_and_routes Lobby.oneRouted "t1").
  apply reachable_addPlayerToTable. apply reachable_createTable.
  - apply reachable_empty.
  - reflexivity.
Defined.

End Routing.

(** ** TableInstance: a hand never throws *)

Section Totality.
Import TablePlayer TableInstance Lifecycle.

Lemma hands_of_seating (s s' : TableInstance.t) :
  seating s' = seating s -> map holeCards (players s') = map holeCards (players s).
Proof.
  unfold seating. intros H.
  assert (E : forall l, map holeCards l = map (fun x => snd x) (map seatOf l))
    by (intros l; rewrite map_map; reflexivity).
  now rewrite (E (players s')), (E (players s)), H.
Qed.

Lemma two_cards_of_seating (s s' : TableInstance.t) :
  seating s' = seating s ->
  Forall (fun p => length (holeCards p) = 2%nat) (players s) ->
  Forall (fun p => length (holeCards p) = 2%nat) (players s').
Proof.
  intros Hs Hall. apply hands_of_seating in Hs.
  assert (E : forall l, Forall (fun p => length (holeCards p) = 2%nat) l
                        <-> Forall (fun h => length h = 2%nat) (map holeCards l))
    by (intros l; now rewrite Forall_map).
  apply E. rewrite Hs. now apply E.
Qed.

(** The five actions leave the deck and the board alone, and the phase
    too unless a fold ends the hand. *)
Lemma dispatch_cards (id : string) (action : ActionType) (amount : option Z)
      (s : TableInstance.t) :
  deck (snd (fst (dispatch id action amount s))) = deck s
  /\ communityCards (snd (fst (dispatch id action amount s))) = communityCards s
  /\ (gameState (snd (fst (dispatch id action amount s))) = gameState s
      \/ gameState (snd (fst (dispatch id action amount s)))
         = GameState.PAYOUT_ANIMATION).
Proof.
  destruct action; cbn [dispatch fst snd].
  - unfold handlePlayerFold.
    destruct (indexBySteamId id s) as [i|]; [| auto].
    destruct (indicesFrom _ _ _) as [|w [|w' rest]]; cbn; auto.
  - rewrite seating_handlePlayerCheck. auto.
  - unfold handlePlayerCall.
    destruct (indexBySteamId id s) as [i|]; [| auto].
    destruct (getPlayerBySteamId id s) as [p|]; [| auto].
    destruct (_ <=? 0); cbn; auto.
  - unfold handlePlayerRaise.
    destruct (indexBySteamId id s) as [i|]; [| auto].
    destruct (getPlayerBySteamId id s) as [p|]; [| auto].
    destruct amount as [amt|]; [| auto].
    destruct (amt =? 0); [auto |].
    destruct (_ || _); [auto |].
    destruct (_ >? chips p); cbn; auto.
  - unfold handlePlayerAllIn.
    destruct (indexBySteamId id s) as [i|]; [| auto].
    destruct (getPlayerBySteamId id s) as [p|]; [| auto].
    destruct (chips p =? 0); [auto |].
    destruct (_ >? _); cbn; auto.
Qed.

(** With a card to burn and [count] more to deal, a street is dealt. *)
Lemma dealStreet_returns (count : nat) (street : GameState.t) (s : TableInstance.t) :
  (count + 1 <= length (deck s))%nat ->
  exists s',
    dealStreet count street s = Some s'
    /\ gameState s' = street
    /\ length (communityCards s') = (length (communityCards s) + count)%nat
    /\ (length (deck s') + (count + 1) = length (deck s))%nat.
Proof.
  intros Hlen. unfold dealStreet, Deck.burn, Deck.deal.
  destruct (deck s) as [|c rest] eqn:Hd; [cbn in Hlen; lia |].
  cbn [length] in Hlen.
  destruct (Nat.ltb (length rest) count) eqn:Hlt;
    [apply Nat.ltb_lt in Hlt; lia |].
  eexists. split; [reflexivity |]. table_simpl.
  split; [reflexivity |].
  rewrite length_app, length_firstn, length_skipn. cbn [length]. lia.
Qed.

Lemma evaluatePlayers_returns (community : list Card.t) (ps : list TablePlayer.t) :
  length community = 5%nat ->
  Forall (fun p => length (holeCards p) = 2%nat) ps ->
  forall hr, exists r, evaluatePlayers community ps hr = Some r.
Proof.
  intros Hc. induction 1 as [|p rest Hp Hrest IH]; intros hr; cbn [evaluatePlayers].
  - now eexists.
  - destruct (stillIn p).
    + destruct (evaluateHand_returns (holeCards p ++ community))
        as [r [combo [Hr _]]]; [rewrite length_app; lia |].
      rewrite Hr.
      destruct (IH (mapSet String.eqb (steamId p) r hr)) as [[rest' hr'] Hrec].
      rewrite Hrec. now eexists.
    + destruct (IH hr) as [[rest' hr'] Hrec]. rewrite Hrec. now eexists.
Qed.

(** Closing a betting round of a hand in order returns, and leaves the
    hand in order. *)
Lemma endBettingRound_returns (s : TableInstance.t) :
  handInOrder s ->
  exists s' evs, endBettingRound s = Some (s', evs) /\ handInOrder s'.
Proof.
  intros [Hcards Hphase].
  unfold endBettingRound, dealFlop, dealTurn, dealRiver.
  destruct (gameState s) eqn:Hg; cbn [cardsToCome] in Hphase;
    try (exists s, []; split; [reflexivity |];
         split; [exact Hcards | now rewrite Hg]).
  - destruct Hphase as [Hboard Hdeck].
    destruct (dealStreet_returns 3 GameState.FLOP s) as [s1 [Hd [Hg1 [Hb1 Hd1]]]];
      [lia |].
    rewrite Hd. eexists. eexists. split; [reflexivity |].
    pose proof (seating_dealStreet _ _ _ _ Hd) as Hseat.
    split.
    + apply (two_cards_of_seating s); [| exact Hcards].
      rewrite <- Hseat. unfold startBettingRound. cbn [fst]. seating_simpl.
    + unfold startBettingRound. cbn [fst]. table_simpl. rewrite Hg1.
      cbn [cardsToCome]. lia.
  - destruct Hphase as [Hboard Hdeck].
    destruct (dealStreet_returns 1 GameState.TURN s) as [s1 [Hd [Hg1 [Hb1 Hd1]]]];
      [lia |].
    rewrite Hd. cbn [option_map]. eexists. eexists. split; [reflexivity |].
    pose proof (seating_dealStreet _ _ _ _ Hd) as Hseat.
    split.
    + apply (two_cards_of_seating s); [| exact Hcards].
      rewrite <- Hseat. unfold startBettingRound. cbn [fst]. seating_simpl.
    + unfold startBettingRound. cbn [fst]. table_simpl. rewrite Hg1.
      cbn [cardsToCome]. lia.
  - destruct Hphase as [Hboard Hdeck].
    destruct (dealStreet_returns 1 GameState.RIVER s) as [s1 [Hd [Hg1 [Hb1 Hd1]]]];
      [lia |].
    rewrite Hd. cbn [option_map]. eexists. eexists. split; [reflexivity |].
    pose proof (seating_dealStreet _ _ _ _ Hd) as Hseat.
    split.
    + apply (two_cards_of_seating s); [| exact Hcards].
      rewrite <- Hseat. unfold startBettingRound. cbn [fst]. seating_simpl.
    + unfold startBettingRound. cbn [fst]. table_simpl. rewrite Hg1.
      cbn [cardsToCome]. lia.
  - destruct Hphase as [Hboard Hdeck].
    assert (Hend : forall s' evs, endBettingRound s = Some (s', evs) -> handInOrder s').
    { intros s' evs He. split.
      - apply (two_cards_of_seating s); [| exact Hcards].
        exact (seating_endBettingRound _ _ _ He).
      - assert (Hpay : gameState s' = GameState.PAYOUT_ANIMATION).
        { unfold endBettingRound in He. rewrite Hg in He.
          exact (startShowdown_pays_out _ _ _ He). }
        now rewrite Hpay. }
    unfold endBettingRound in Hend. rewrite Hg in Hend.
    unfold startShowdown in *. table_simpl.
    destruct (evaluatePlayers_returns (communityCards s) (players s) Hboard Hcards [])
      as [[ps hr] Hev].
    rewrite Hev in *.
    eexists. eexists. split; [reflexivity |].
    eapply Hend. unfold calculatePayouts. reflexivity.
Qed.

(** An action on a hand in order returns, and leaves the hand in order. *)
Lemma handlePlayerAction_returns (id : string) (action : ActionType)
      (amount : option Z) (s : TableInstance.t) :
  handInOrder s ->
  exists ok s' evs,
    handlePlayerAction id action amount s = Some (ok, s', evs) /\ handInOrder s'.
Proof.
  intros Hs. pose proof Hs as [Hcards Hphase].
  unfold handlePlayerAction.
  destruct (getCurrentPlayer s) as [cp|]; [| now eexists; eexists; eexists].
  destruct (negb _); [now eexists; eexists; eexists |].
  destruct (_ || _); [now eexists; eexists; eexists |].
  destruct (negb (isInBettingRound s)); [now eexists; eexists; eexists |].
  pose proof (seating_dispatch id action amount s) as Hseat.
  pose proof (dispatch_cards id action amount s) as [Hdeck [Hboard Hg]].
  destruct (dispatch id action amount s) as [[success s1] evs1].
  cbn [fst snd] in Hseat, Hdeck, Hboard, Hg.
  assert (H1 : handInOrder s1).
  { split; [now apply (two_cards_of_seating s) |].
    destruct Hg as [Hg | Hg]; rewrite Hg; [| exact I].
    now rewrite Hdeck, Hboard. }
  destruct success; cbn [negb]; [| now eexists; eexists; eexists].
  set (s3 := incrementSequenceId (mutatePlayer (currentPlayerIndex s) (setHasActed true) s1)).
  assert (H3 : handInOrder s3).
  { destruct H1 as [Hc1 Hp1]. split; [| exact Hp1].
    apply (two_cards_of_seating s1); [| exact Hc1]. subst s3. seating_simpl. }
  destruct (isBettingRoundComplete s3).
  - destruct (endBettingRound_returns s3 H3) as [s4 [evs2 [He H4]]].
    rewrite He. now eexists; eexists; eexists.
  - eexists. eexists. eexists. split; [reflexivity |].
    destruct H3 as [Hc3 Hp3]. split; [exact Hc3 | exact Hp3].
Qed.

Lemma dealHoleCards_returns (ps : list TablePlayer.t) :
  forall d : Deck.t,
    (2 * length ps <= length d)%nat ->
    Forall (fun p => isActive p = true) ps ->
    exists ps' d',
      dealHoleCards ps d = Some (ps', d')
      /\ Forall (fun p => length (holeCards p) = 2%nat) ps'
      /\ length ps' = length ps
      /\ (length d' + 2 * length ps = length d)%nat.
Proof.
  induction ps as [|p rest IH]; intros d Hlen Hact; cbn [dealHoleCards].
  - exists [], d. repeat split; [constructor | cbn; lia].
  - inversion Hact as [|? ? Hp Hrest]; subst. rewrite Hp.
    cbn [length] in Hlen. unfold Deck.deal.
    destruct (Nat.ltb (length d) 2) eqn:Hlt; [apply Nat.ltb_lt in Hlt; lia |].
    destruct (IH (skipn 2 d)) as [rest' [d' [Hrec [Hall [Hl Hd]]]]];
      [rewrite length_skipn; lia | exact Hrest |].
    rewrite Hrec. eexists. eexists. split; [reflexivity |].
    rewrite length_skipn in Hd.
    split; [| split; [cbn [length]; lia | cbn [length]; lia]].
    constructor; [| exact Hall].
    cbn [holeCards setHoleCards]. rewrite length_firstn. lia.
Qed.

Lemma postBlind_cards (blind : Z) (i : nat) (s : TableInstance.t) :
  seating (postBlind blind i s) = seating s
  /\ deck (postBlind blind i s) = deck s
  /\ communityCards (postBlind blind i s) = communityCards s.
Proof.
  unfold postBlind.
  destruct (nth_error (players s) i) as [p|]; [| auto].
  split; [| split; reflexivity].
  unfold afterBlind. seating_simpl.
Qed.

(** The button after [moveDealerButton]: with nobody seated it is [NaN]
    and the table is otherwise as before; with somebody seated it is on a
    seat and the players are as before. *)
Lemma moveDealerButton_on_a_seat (s : TableInstance.t) :
  (players s = [] <-> moveDealerButton s = NotANumber s)
  /\ (forall s', moveDealerButton s = NotANumber s' -> s' = s /\ players s = [])
  /\ (forall s', moveDealerButton s = OnSeat s' ->
                 players s' = players s
                 /\ (dealerPosition s' < length (players s'))%nat).
Proof.
  split; [| split].
  - unfold moveDealerButton. destruct (players s); split;
      (reflexivity || discriminate).
  - intros s' H. unfold moveDealerButton in H.
    destruct (players s) as [|p ps] eqn:Hp; [| discriminate].
    injection H as <-. now split.
  - intros s' H. unfold moveDealerButton in H.
    destruct (players s) as [|p ps] eqn:Hp; [discriminate |].
    remember ((dealerPosition s + 1) mod length (p :: ps))%nat as k eqn:Hk.
    assert (Hlt : (k < length (p :: ps))%nat)
      by (subst k; apply Nat.mod_upper_bound; discriminate).
    clear Hk. injection H as <-. destruct s; cbn in *. subst. now split.
Qed.

(** Once the button is [NaN], the blinds of a hand with two or more
    players throw, whatever the stacks and the deck. *)
Lemma postBlindsNaN_throws (s : TableInstance.t) :
  postBlindsNaN s = None <-> (2 <= length (players s))%nat.
Proof.
  unfold postBlindsNaN.
  destruct (Nat.ltb_spec (length (players s)) 2) as [Hlt | Hge];
    split; intros H; (discriminate || lia || reflexivity).
Qed.

(** X26. A hand never throws.  With a full deck, the dealer button on
    one of at most six seated players (a button that [moveDealerButton]
    turned into [NaN] on an emptied table is on no seat) and chips in
    front of each of them, [startHand] returns with the table before the
    flop; and from there on, after any sequence of accepted actions,
    every call of [handlePlayerAction] returns: the deck never runs out
    and every hand evaluated at showdown has its seven cards. *)
Theorem hand_never_throws (shuffled : Deck.t) (s : TableInstance.t) :
  Deck.remainingCards shuffled = 52%nat ->
  (dealerPosition s < length (players s))%nat ->
  (length (players s) <= maxPlayers)%nat ->
  Forall (fun p => 0 < chips p) (players s) ->
  exists s0 evs,
    startHand shuffled s = Some (s0, evs)
    /\ gameState s0 = GameState.PRE_FLOP
    /\ forall s1,
         betting s0 s1 ->
         forall id action amount,
         exists ok s2 evs2,
           handlePlayerAction id action amount s1 = Some (ok, s2, evs2).
Proof.
  intros Hdeck Hbutton Hseats Hchips. unfold Deck.remainingCards in Hdeck.
  unfold maxPlayers in Hseats. unfold startHand. table_simpl.
  destruct (dealHoleCards_returns (map resetForHand (players s)) shuffled)
    as [ps [d [Hdeal [Hcards [Hlen Hd]]]]].
  - rewrite length_map. lia.
  - apply Forall_map. eapply Forall_impl; [| exact Hchips].
    intros p Hp. unfold isActive, resetForHand. cbn.
    apply orb_true_iff. left. now apply Z.gtb_lt.
  - rewrite Hdeal. rewrite length_map in Hd, Hlen.
    set (s7 := setDeck d (setPlayers ps _)).
    assert (H8 : seating (postBlinds s7) = seating s7
                 /\ deck (postBlinds s7) = d
                 /\ communityCards (postBlinds s7) = []).
    { unfold postBlinds.
      destruct (Nat.ltb (length (players s7)) 2); [now split |].
      table_simpl.
      destruct (postBlind_cards (bigBlind s7) (bbIndexOf s7)
                  (postBlind (smallBlind s7) (sbIndexOf s7) s7)) as [Hs2 [Hd2 Hc2]].
      destruct (postBlind_cards (smallBlind s7) (sbIndexOf s7) s7) as [Hs1 [Hd1 Hc1]].
      assert (Hd7 : deck s7 = d) by reflexivity.
      assert (Hc7 : communityCards s7 = []) by reflexivity.
      unfold seating in *. table_simpl.
      split; [congruence | split; congruence]. }
    destruct H8 as [Hs8 [Hd8 Hc8]].
    set (s0 := fst (startBettingRound (transitionTo GameState.PRE_FLOP (postBlinds s7)))).
    assert (H0 : handInOrder s0).
    { split.
      - apply (two_cards_of_seating s7); [| exact Hcards].
        rewrite <- Hs8. unfold s0, startBettingRound. cbn [fst]. seating_simpl.
      - unfold s0, startBettingRound. cbn [fst]. table_simpl.
        cbn [cardsToCome]. rewrite Hd8, Hc8. cbn [length]. lia. }
    exists s0, (snd (startBettingRound (transitionTo GameState.PRE_FLOP (postBlinds s7)))).
    split; [reflexivity | split; [reflexivity |]].
    intros s1 Hbet.
    assert (H1 : handInOrder s1).
    { induction Hbet as [|s1 s2 id action amount Hbet IH Hout Hin]; [exact H0 |].
      unfold outcome in Hout.
      destruct (handlePlayerAction_returns id action amount s1 IH)
        as [ok [s' [evs' [Hact Hord]]]].
      rewrite Hact in Hout. cbn in Hout. congruence. }
    intros id action amount.
    destruct (handlePlayerAction_returns id action amount s1 H1)
      as [ok [s2 [evs2 [Hact _]]]].
    now exists ok, s2, evs2.
Qed.

Lemma hand_never_throws_witness :
  exists s0 evs,
    startHand Deck.fresh Examples.threeSeated = Some (s0, evs)
    /\ gameState s0 = GameState.PRE_FLOP
    /\ forall s1,
         betting s0 s1 ->
         forall id action amount,
         exists ok s2 evs2,
           handlePlayerAction id action amount s1 = Some (ok, s2, evs2).
Proof.
  apply (hand_never_throws Deck.fresh Examples.threeSeated).
  - reflexivity.
  - vm_compute. lia.
  - vm_compute. lia.
  - vm_compute. repeat constructor.
Defined.

End Totality.

(** ** TableInstance: who acts first on the flop *)

Section FlopTurn.
Import TablePlayer TableInstance Lifecycle.

Lemma dispatch_dealer (id : string) (action : ActionType) (amount : option Z)
      (s : TableInstance.t) :
  dealerPosition (snd (fst (dispatch id action amount s))) = dealerPosition s.
Proof.
  destruct action; cbn [dispatch fst snd].
  - unfold handlePlayerFold.
    destruct (indexBySteamId id s) as [i|]; [| reflexivity].
    destruct (indicesFrom _ _ _) as [|w [|w' rest]]; reflexivity.
  - now rewrite seating_handlePlayerCheck.
  - unfold handlePlayerCall.
    destruct (indexBySteamId id s) as [i|]; [| reflexivity].
    destruct (getPlayerBySteamId id s) as [p|]; [| reflexivity].
    destruct (_ <=? 0); reflexivity.
  - unfold handlePlayerRaise.
    destruct (indexBySteamId id s) as [i|]; [| reflexivity].
    destruct (getPlayerBySteamId id s) as [p|]; [| reflexivity].
    destruct amount as [amt|]; [| reflexivity].
    destruct (amt =? 0); [reflexivity |].
    destruct (_ || _); [reflexivity |].
    destruct (_ >? chips p); reflexivity.
  - unfold handlePlayerAllIn.
    destruct (indexBySteamId id s) as [i|]; [| reflexivity].
    destruct (getPlayerBySteamId id s) as [p|]; [| reflexivity].
    destruct (chips p =? 0); [reflexivity |].
    destruct (_ >? _); reflexivity.
Qed.

Lemma seats_of_seating (s s' : TableInstance.t) :
  seating s' = seating s -> length (players s') = length (players s).
Proof.
  unfold seating. intros H.
  rewrite <- (length_map seatOf (players s')), H. apply length_map.
Qed.

(** The player the acting index points at cannot act, being folded or
    all-in: whoever calls, the action is rejected and nothing changes. *)
Lemma handlePlayerAction_blocked (s : TableInstance.t) (p : TablePlayer.t)
      (id : string) (action : ActionType) (amount : option Z) :
  getCurrentPlayer s = Some p ->
  hasFolded p || isAllIn p = true ->
  exists evs,
    handlePlayerAction id action amount s = Some (false, s, evs)
    /\ (evs = [notYourTurn id] \/ evs = []).
Proof.
  intros Hp Hout. unfold handlePlayerAction. rewrite Hp.
  destruct (negb _); [eexists; split; [reflexivity | now left] |].
  rewrite Hout. eexists. split; [reflexivity | now right].
Qed.

(** X27. The action that closes the betting before the flop hands the
    turn to the seat after the dealer, whoever sits there.  If that player
    has folded or is all-in, the table is blocked: every further call of
    [handlePlayerAction], by any player and with any action (the automatic
    fold of the turn timer included), is rejected and changes nothing. *)
Theorem flop_can_hand_the_turn_to_a_player_who_is_out
        (id : string) (action : ActionType) (amount : option Z)
        (s s' : TableInstance.t) (evs : list Event) (p : TablePlayer.t) :
  handlePlayerAction id action amount s = Some (true, s', evs) ->
  gameState s = GameState.PRE_FLOP ->
  gameState s' = GameState.FLOP ->
  nth_error (players s') ((dealerPosition s + 1) mod length (players s)) = Some p ->
  hasFolded p || isAllIn p = true ->
  currentPlayerIndex s' = ((dealerPosition s + 1) mod length (players s))%nat
  /\ forall id' action' amount',
       exists evs',
         handlePlayerAction id' action' amount' s' = Some (false, s', evs')
         /\ (evs' = [notYourTurn id'] \/ evs' = []).
Proof.
  intros Hact Hpre Hflop Hp Hout.
  assert (Hidx : currentPlayerIndex s'
                 = ((dealerPosition s + 1) mod length (players s))%nat).
  { revert Hact. unfold handlePlayerAction.
    destruct (getCurrentPlayer s) as [cp|]; [| discriminate].
    destruct (negb _); [discriminate |].
    destruct (hasFolded cp || isAllIn cp); [discriminate |].
    destruct (negb (isInBettingRound s)); [discriminate |].
    pose proof (seating_dispatch id action amount s) as Hseat.
    pose proof (dispatch_cards id action amount s) as [_ [_ Hg]].
    pose proof (dispatch_dealer id action amount s) as Hdealer.
    destruct (dispatch id action amount s) as [[success s1] evs1].
    cbn [fst snd] in Hseat, Hg, Hdealer.
    destruct success; cbn [negb]; [| discriminate].
    set (s3 := incrementSequenceId
                 (mutatePlayer (currentPlayerIndex s) (setHasActed true) s1)).
    assert (Hg3 : gameState s3 = gameState s1) by reflexivity.
    assert (Hd3 : dealerPosition s3 = dealerPosition s) by exact Hdealer.
    assert (Hn3 : length (players s3) = length (players s)).
    { rewrite <- (seats_of_seating _ _ Hseat). apply seats_of_seating.
      subst s3. seating_simpl. }
    destruct (isBettingRoundComplete s3).
    - destruct (endBettingRound s3) as [[s4 evs2]|] eqn:He; [| discriminate].
      intros [= <- _]. revert He. unfold endBettingRound. rewrite Hg3.
      destruct Hg as [Hg | Hg]; rewrite Hg; [rewrite Hpre | ].
      + unfold dealFlop.
        destruct (dealStreet 3 GameState.FLOP s3) as [s5|] eqn:Hd; [| discriminate].
        intros [= <-]. unfold startBettingRound. table_simpl.
        pose proof (seats_of_seating _ _ (seating_dealStreet _ _ _ _ Hd)) as Hn5.
        assert (Hd5 : dealerPosition s5 = dealerPosition s3).
        { revert Hd. unfold dealStreet.
          destruct (Deck.burn (deck s3)) as [d1|]; [| discriminate].
          destruct (Deck.deal 3 d1) as [[cards d2]|]; [| discriminate].
          now intros [= <-]. }
        now rewrite Hd5, Hn5, Hd3, Hn3.
      + intros [= <-]. rewrite Hg3, Hg in Hflop. discriminate Hflop.
    - intros [= <- _].
      assert (Hadv : gameState (advanceToNextPlayer s3) = gameState s1) by reflexivity.
      rewrite Hadv in Hflop.
      destruct Hg as [Hg | Hg]; rewrite Hg in Hflop; [rewrite Hpre in Hflop |];
        discriminate Hflop. }
  split; [exact Hidx |].
  intros id' action' amount'.
  apply (handlePlayerAction_blocked s' p); [| exact Hout].
  unfold getCurrentPlayer. now rewrite Hidx.
Qed.

Lemma flop_can_hand_the_turn_to_a_player_who_is_out_witness :
  currentPlayerIndex Examples.threeOnFlop
  = ((dealerPosition (Examples.after "p2" FOLD None
                        (Examples.after "p1" CALL None Examples.threeHanded)) + 1)
     mod length (players (Examples.after "p2" FOLD None
                            (Examples.after "p1" CALL None Examples.threeHanded))))%nat
  /\ forall id' action' amount',
       exists evs',
         handlePlayerAction id' action' amount' Examples.threeOnFlop
         = Some (false, Examples.threeOnFlop, evs')
         /\ (evs' = [notYourTurn id'] \/ evs' = []).
Proof.
  apply (flop_can_hand_the_turn_to_a_player_who_is_out "p3" CHECK None
           (Examples.after "p2" FOLD None
              (Examples.after "p1" CALL None Examples.threeHanded))
           Examples.threeOnFlop
           (match handlePlayerAction "p3" CHECK None
                    (Examples.after "p2" FOLD None
                       (Examples.after "p1" CALL None Examples.threeHanded)) with
            | Some (_, _, evs) => evs
            | None => []
            end)
           (TablePlayer.mk "p2" "Bob" 1 990
              [Examples.card Card.R4 Card.SH; Examples.card Card.R5 Card.SH]
              0 true false false false None None)).
  - vm_compute. reflexivity.
  - vm_compute. reflexivity.
  - vm_compute. reflexivity.
  - vm_compute. reflexivity.
  - reflexivity.
Defined.

End FlopTurn.

(** ** TableInstance: the blinds at a table of three or more *)

Section Blinds.
Import TablePlayer TableInstance.

Lemma next_seat_differs (d n : nat) :
  (2 <= n)%nat -> ((d + 1) mod n <> (d + 2) mod n)%nat.
Proof.
  intros Hn Heq.
  assert (Hlt : ((d + 1) mod n < n)%nat) by (apply Nat.mod_upper_bound; lia).
  replace (d + 2)%nat with ((d + 1) + 1)%nat in Heq by lia.
  rewrite <- (Nat.Div0.add_mod_idemp_l (d + 1) 1 n) in Heq.
  set (a := ((d + 1) mod n)%nat) in *.
  destruct (Nat.eq_dec (a + 1) n) as [E | E].
  - rewrite E, Nat.Div0.mod_same in Heq. lia.
  - rewrite (Nat.mod_small (a + 1) n) in Heq by lia. lia.
Qed.

(** X28. At a table of three or more the seat after the dealer posts the
    small blind and the next seat the big blind, each as much of it as the
    stack allows; these are two different players, nobody else is
    touched, the seat after the big blind is first to act, and the pot
    total grows by the two amounts posted. *)
Theorem postBlinds_three_or_more (s : TableInstance.t) (sbPlayer bbPlayer : TablePlayer.t) :
  (3 <= length (players s))%nat ->
  nth_error (players s) (sbIndexOf s) = Some sbPlayer ->
  nth_error (players s) (bbIndexOf s) = Some bbPlayer ->
  sbIndexOf s <> bbIndexOf s
  /\ nth_error (players (postBlinds s)) (sbIndexOf s)
     = Some (afterBlind (smallBlind s) sbPlayer)
  /\ nth_error (players (postBlinds s)) (bbIndexOf s)
     = Some (afterBlind (bigBlind s) bbPlayer)
  /\ (forall i, i <> sbIndexOf s -> i <> bbIndexOf s ->
                nth_error (players (postBlinds s)) i = nth_error (players s) i)
  /\ currentPlayerIndex (postBlinds s)
     = ((dealerPosition s + 3) mod length (players s))%nat
  /\ PotManager.getTotalPot (potManager (postBlinds s))
     = PotManager.getTotalPot (potManager s)
       + Z.min (smallBlind s) (chips sbPlayer)
       + Z.min (bigBlind s) (chips bbPlayer).
Proof.
  intros Hn Hsb Hbb.
  assert (Hdiff : sbIndexOf s <> bbIndexOf s)
    by (unfold sbIndexOf, bbIndexOf; apply next_seat_differs; lia).
  set (s1 := postBlind (smallBlind s) (sbIndexOf s) s).
  assert (Hp1 : players s1 = updateAt (sbIndexOf s) (afterBlind (smallBlind s)) (players s))
    by apply postBlind_players.
  assert (Hbb1 : nth_error (players s1) (bbIndexOf s) = Some bbPlayer).
  { rewrite Hp1, nth_error_updateAt_other by (intros E; now apply Hdiff). exact Hbb. }
  assert (Hpot1 : PotManager.getTotalPot (potManager s1)
                  = PotManager.getTotalPot (potManager s)
                    + Z.min (smallBlind s) (chips sbPlayer)).
  { unfold s1, postBlind. rewrite Hsb. table_simpl.
    now rewrite getTotalPot_addContribution. }
  assert (Hpost : postBlinds s
                  = setCurrentPlayerIndex
                      ((bbIndexOf s + 1) mod length (players s))%nat
                      (postBlind (bigBlind s) (bbIndexOf s) s1)).
  { unfold postBlinds.
    destruct (Nat.ltb (length (players s)) 2) eqn:Hlt;
      [apply Nat.ltb_lt in Hlt; lia | reflexivity]. }
  rewrite Hpost. table_simpl. rewrite postBlind_players, Hp1.
  split; [exact Hdiff |].
  split.
  { rewrite nth_error_updateAt_other by (intros E; now apply Hdiff).
    now apply nth_error_updateAt_same. }
  split.
  { apply nth_error_updateAt_same.
    rewrite nth_error_updateAt_other by exact Hdiff. exact Hbb. }
  split.
  { intros i Hi1 Hi2.
    rewrite !nth_error_updateAt_other by (intros E; symmetry in E; contradiction).
    reflexivity. }
  split.
  { unfold bbIndexOf. rewrite Nat.Div0.add_mod_idemp_l. f_equal. lia. }
  unfold postBlind at 1. rewrite Hbb1. table_simpl.
  rewrite getTotalPot_addContribution, Hpot1. reflexivity.
Qed.

Lemma postBlinds_three_or_more_witness :
  sbIndexOf Examples.threeSeated <> bbIndexOf Examples.threeSeated
  /\ nth_error (players (postBlinds Examples.threeSeated)) (sbIndexOf Examples.threeSeated)
     = Some (afterBlind (smallBlind Examples.threeSeated)
                        (newPlayer "p2" "Bob" 1 1000))
  /\ nth_error (players (postBlinds Examples.threeSeated)) (bbIndexOf Examples.threeSeated)
     = Some (afterBlind (bigBlind Examples.threeSeated)
                        (newPlayer "p3" "Cyd" 2 1000))
  /\ (forall i, i <> sbIndexOf Examples.threeSeated ->
                i <> bbIndexOf Examples.threeSeated ->
                nth_error (players (postBlinds Examples.threeSeated)) i
                = nth_error (players Examples.threeSeated) i)
  /\ currentPlayerIndex (postBlinds Examples.threeSeated)
     = ((dealerPosition Examples.threeSeated + 3)
        mod length (players Examples.threeSeated))%nat
  /\ PotManager.getTotalPot (potManager (postBlinds Examples.threeSeated))
     = PotManager.getTotalPot (potManager Examples.threeSeated)
       + Z.min (smallBlind Examples.threeSeated) (chips (newPlayer "p2" "Bob" 1 1000))
       + Z.min (bigBlind Examples.threeSeated) (chips (newPlayer "p3" "Cyd" 2 1000)).
Proof.
  apply (postBlinds_three_or_more Examples.threeSeated
           (newPlayer "p2" "Bob" 1 1000) (newPlayer "p3" "Cyd" 2 1000)).
  - vm_compute. lia.
  - reflexivity.
  - reflexivity.
Defined.

End Blinds.

(** ** TableInstance: a hand creates no chips *)

Section NoChipsCreated.
Import TablePlayer TableInstance Lifecycle.

Lemma Forall_updateAt {A : Type} (P : A -> Prop) (f : A -> A) (l : list A) :
  forall i,
    Forall P l ->
    (forall x, nth_error l i = Some x -> P x -> P (f x)) ->
    Forall P (updateAt i f l).
Proof.
  induction l as [|y t IH]; intros [|i] Hall Hf; cbn [updateAt]; try exact Hall.
  - inversion Hall; subst. constructor; [now apply Hf | assumption].
  - inversion Hall; subst. constructor; [assumption |].
    apply IH; [assumption |]. intros x Hx. now apply Hf.
Qed.

Lemma getOrZero_nonneg (id : string) (m : list (string * Z)) :
  Forall (fun e => 0 <= snd e) m -> 0 <= PotManager.getOrZero id m.
Proof.
  unfold PotManager.getOrZero.
  induction 1 as [|[k v] t Hv Ht IH]; cbn [mapGet]; [lia |].
  destruct (String.eqb id k); [exact Hv | exact IH].
Qed.

Lemma mapSet_nonneg (id : string) (v : Z) (m : list (string * Z)) :
  Forall (fun e => 0 <= snd e) m -> 0 <= v ->
  Forall (fun e => 0 <= snd e) (mapSet String.eqb id v m).
Proof.
  intros Hall Hv. induction Hall as [|[k w] t Hw Ht IH]; cbn [mapSet].
  - now repeat constructor.
  - destruct (String.eqb id k); constructor; assumption.
Qed.

Lemma addContribution_nonneg (id : string) (amt : Z) (pm : PotManager.t) :
  Forall (fun e => 0 <= snd e) (PotManager.contributions pm) ->
  0 <= amt ->
  Forall (fun e => 0 <= snd e)
         (PotManager.contributions (PotManager.addContribution id amt pm)).
Proof.
  intros Hall Hamt. unfold PotManager.addContribution. cbn [PotManager.contributions].
  apply mapSet_nonneg; [exact Hall |].
  pose proof (getOrZero_nonneg id _ Hall). lia.
Qed.

Lemma getTotalPot_nonneg (pm : PotManager.t) :
  Forall (fun e => 0 <= snd e) (PotManager.contributions pm) ->
  0 <= PotManager.getTotalPot pm.
Proof.
  rewrite getTotalPot_sum. induction 1 as [|e t He Ht IH]; cbn [map sumZ]; lia.
Qed.

Lemma currentBet_allInIfBroke (p : TablePlayer.t) :
  TablePlayer.currentBet (allInIfBroke p) = TablePlayer.currentBet p.
Proof. unfold allInIfBroke. now destruct (chips p =? 0). Qed.

Lemma chipsInOrder_handlePlayerFold (id : string) (s : TableInstance.t) :
  chipsInOrder s -> chipsInOrder (snd (fst (handlePlayerFold id s))).
Proof.
  intros [Hchips [Hpot Hbets]]. unfold handlePlayerFold.
  destruct (indexBySteamId id s) as [i|]; [| now split].
  assert (H1 : chipsInOrder (mutatePlayer i (setHasFolded true) s)).
  { split; [| split; [exact Hpot |]]; table_simpl;
      apply Forall_updateAt; try assumption; intros x _ Hx; exact Hx. }
  destruct (indicesFrom _ _ _) as [|w [|w' rest]]; cbn [fst snd]; try exact H1.
  destruct H1 as [Hc1 [Hp1 Hb1]].
  unfold handleSingleWinner. cbn [fst].
  split; [| split; [exact Hp1 |]]; table_simpl.
  - apply Forall_updateAt; [exact Hc1 |]. intros x _ Hx. table_simpl.
    pose proof (getTotalPot_nonneg (potManager s) Hpot). lia.
  - apply Forall_updateAt; [exact Hb1 |]. intros x _ Hx. exact Hx.
Qed.

Lemma chipsInOrder_handlePlayerCall (id : string) (s : TableInstance.t) :
  chipsInOrder s -> chipsInOrder (snd (handlePlayerCall id s)).
Proof.
  intros [Hchips [Hpot Hbets]]. unfold handlePlayerCall.
  destruct (indexBySteamId id s) as [i|] eqn:Hi; [| now split].
  rewrite (getPlayerBySteamId_nth id s i Hi).
  destruct (nth_error (players s) i) as [player|] eqn:Hp; [| now split].
  destruct (Z.leb_spec (currentBet s - TablePlayer.currentBet player) 0) as [Hle | Hgt];
    [now split |].
  cbn [snd].
  assert (Hpc : 0 <= chips player)
    by (rewrite Forall_forall in Hchips; apply Hchips; eapply nth_error_In; exact Hp).
  set (actual := Z.min (currentBet s - TablePlayer.currentBet player) (chips player)).
  assert (Hact : 0 <= actual) by (unfold actual; lia).
  split; [| split]; table_simpl.
  - apply Forall_updateAt.
    + apply Forall_updateAt; [exact Hchips |].
      intros x Hx _. rewrite Hp in Hx. injection Hx as <-. table_simpl.
      fold actual. unfold actual. lia.
    + intros x _ Hx. now rewrite chips_allInIfBroke.
  - now apply addContribution_nonneg.
  - apply Forall_updateAt.
    + apply Forall_updateAt; [exact Hbets |].
      intros x Hx _. rewrite Hp in Hx. injection Hx as <-. table_simpl.
      fold actual. unfold actual. lia.
    + intros x _ Hx. now rewrite currentBet_allInIfBroke.
Qed.

Lemma chipsInOrder_reopenAction (id : string) (s : TableInstance.t) :
  chipsInOrder s -> chipsInOrder (reopenAction id s).
Proof.
  intros [Hchips [Hpot Hbets]]. unfold reopenAction.
  split; [| split; [exact Hpot |]]; table_simpl; apply Forall_map;
    [eapply Forall_impl; [| exact Hchips] | eapply Forall_impl; [| exact Hbets]];
    intros p Hp; destruct (_ && _); exact Hp.
Qed.

Lemma chipsInOrder_handlePlayerRaise (id : string) (amount : option Z)
      (s : TableInstance.t) :
  chipsInOrder s -> chipsInOrder (snd (handlePlayerRaise id amount s)).
Proof.
  intros Hs. pose proof Hs as [Hchips [Hpot Hbets]]. unfold handlePlayerRaise.
  destruct (indexBySteamId id s) as [i|] eqn:Hi; [| exact Hs].
  rewrite (getPlayerBySteamId_nth id s i Hi).
  destruct (nth_error (players s) i) as [player|] eqn:Hp; [| exact Hs].
  destruct amount as [amt|]; [| exact Hs].
  destruct (amt =? 0); [exact Hs |].
  destruct (Z.leb_spec amt (currentBet s)) as [Hle | Hgt]; [exact Hs |].
  cbn [orb].
  destruct (amt - currentBet s <? bigBlind s); [exact Hs |].
  destruct (Z.gtb_spec (amt - TablePlayer.currentBet player) (chips player))
    as [Hmore | Hfits]; [exact Hs |].
  cbn [snd].
  assert (Hpb : TablePlayer.currentBet player <= currentBet s)
    by (rewrite Forall_forall in Hbets; apply Hbets; eapply nth_error_In; exact Hp).
  set (s3 := setPotManager _ _).
  assert (H3 : chipsInOrder s3).
  { unfold s3. split; [| split]; table_simpl.
    - apply Forall_updateAt; [exact Hchips |].
      intros x Hx _. rewrite Hp in Hx. injection Hx as <-. table_simpl. lia.
    - apply addContribution_nonneg; [exact Hpot | lia].
    - apply Forall_updateAt.
      + eapply Forall_impl; [| exact Hbets]. intros p Hpb'. cbn beta in Hpb'. lia.
      + intros x _ _. table_simpl. lia. }
  pose proof (chipsInOrder_reopenAction id s3 H3) as [Hc4 [Hp4 Hb4]].
  split; [| split; [exact Hp4 |]]; table_simpl.
  - apply Forall_updateAt; [exact Hc4 |]. intros x _ Hx. now rewrite chips_allInIfBroke.
  - apply Forall_updateAt; [exact Hb4 |].
    intros x _ Hx. now rewrite currentBet_allInIfBroke.
Qed.

Lemma chipsInOrder_handlePlayerAllIn (id : string) (s : TableInstance.t) :
  chipsInOrder s -> chipsInOrder (snd (handlePlayerAllIn id s)).
Proof.
  intros Hs. pose proof Hs as [Hchips [Hpot Hbets]]. unfold handlePlayerAllIn.
  destruct (indexBySteamId id s) as [i|] eqn:Hi; [| exact Hs].
  rewrite (getPlayerBySteamId_nth id s i Hi).
  destruct (nth_error (players s) i) as [player|] eqn:Hp; [| exact Hs].
  destruct (chips player =? 0); [exact Hs |].
  assert (Hpc : 0 <= chips player)
    by (rewrite Forall_forall in Hchips; apply Hchips; eapply nth_error_In; exact Hp).
  set (s2 := setPotManager _ _).
  assert (Hc2 : Forall (fun p => 0 <= chips p) (players s2)).
  { unfold s2. table_simpl. apply Forall_updateAt; [exact Hchips |].
    intros x _ _. table_simpl. lia. }
  assert (Hp2 : Forall (fun e => 0 <= snd e) (PotManager.contributions (potManager s2))).
  { unfold s2. table_simpl. now apply addContribution_nonneg. }
  assert (Hb2 : forall bet,
             currentBet s <= bet ->
             TablePlayer.currentBet player + chips player <= bet ->
             Forall (fun p => TablePlayer.currentBet p <= bet) (players s2)).
  { intros bet Hbet Hnew. unfold s2. table_simpl. apply Forall_updateAt.
    - eapply Forall_impl; [| exact Hbets]. intros p Hpb. cbn beta in Hpb. lia.
    - intros x Hx _. rewrite Hp in Hx. injection Hx as <-. table_simpl. exact Hnew. }
  destruct (Z.gtb_spec (TablePlayer.currentBet player + chips player) (currentBet s2))
    as [Hraise | Hkeep]; cbn [snd].
  - apply chipsInOrder_reopenAction.
    split; [exact Hc2 | split; [exact Hp2 |]]. table_simpl.
    apply Hb2; [| lia]. change (currentBet s2) with (currentBet s) in Hraise. lia.
  - split; [exact Hc2 | split; [exact Hp2 |]].
    change (currentBet s2) with (currentBet s) in *.
    apply Hb2; [lia | exact Hkeep].
Qed.

Lemma chipsInOrder_dispatch (id : string) (action : ActionType) (amount : option Z)
      (s : TableInstance.t) :
  chipsInOrder s -> chipsInOrder (snd (fst (dispatch id action amount s))).
Proof.
  intros Hs. destruct action; cbn [dispatch fst snd].
  - now apply chipsInOrder_handlePlayerFold.
  - now rewrite seating_handlePlayerCheck.
  - now apply chipsInOrder_handlePlayerCall.
  - now apply chipsInOrder_handlePlayerRaise.
  - now apply chipsInOrder_handlePlayerAllIn.
Qed.

Lemma chipsInOrder_dealStreet (count : nat) (street : GameState.t)
      (s s' : TableInstance.t) :
  dealStreet count street s = Some s' -> chipsInOrder s -> chipsInOrder s'.
Proof.
  unfold dealStreet.
  destruct (Deck.burn (deck s)) as [d1|]; [| discriminate].
  destruct (Deck.deal count d1) as [[cards d2]|]; [| discriminate].
  intros [= <-] [Hchips [Hpot Hbets]].
  split; [| split; [exact Hpot |]]; table_simpl; apply Forall_map.
  - eapply Forall_impl; [| exact Hchips]. intros p Hp. exact Hp.
  - eapply Forall_impl; [| exact Hbets]. intros p _. cbn. lia.
Qed.

Lemma chipsInOrder_clearActed (s : TableInstance.t) :
  chipsInOrder s -> chipsInOrder (forEachPlayer (setHasActed false) s).
Proof.
  intros [Hchips [Hpot Hbets]].
  split; [| split; [exact Hpot |]]; table_simpl; apply Forall_map.
  - eapply Forall_impl; [| exact Hchips]. intros p Hp. exact Hp.
  - eapply Forall_impl; [| exact Hbets]. intros p Hp. exact Hp.
Qed.

Lemma totalStacks_handlePlayerFold (id : string) (s : TableInstance.t) :
  chipsInOrder s ->
  totalStacks (snd (fst (handlePlayerFold id s))) <= chipsInPlay s.
Proof.
  intros [_ [Hpot _]]. pose proof (getTotalPot_nonneg _ Hpot) as Hnn.
  unfold handlePlayerFold, chipsInPlay.
  destruct (indexBySteamId id s) as [i|]; [| cbn [fst snd]; lia].
  assert (Hfold : totalStacks (mutatePlayer i (setHasFolded true) s) = totalStacks s).
  { unfold totalStacks. table_simpl. now rewrite sumZ_updateAt_same_field. }
  destruct (indicesFrom _ _ _) as [|w [|w' rest]]; cbn [fst snd]; try lia.
  unfold handleSingleWinner. cbn [fst]. unfold totalStacks in *. table_simpl.
  destruct (nth_error (updateAt i (setHasFolded true) (players s)) w) as [x|] eqn:Hx.
  - rewrite (sumZ_updateAt chips w _ _ x Hx). destruct x. table_simpl. cbn. lia.
  - rewrite (updateAt_out_of_range w _ _ Hx). lia.
Qed.

Lemma totalStacks_dispatch (id : string) (action : ActionType) (amount : option Z)
      (s : TableInstance.t) :
  chipsInOrder s ->
  totalStacks (snd (fst (dispatch id action amount s))) <= chipsInPlay s.
Proof.
  intros Hs.
  assert (Hfrom : forall s', chipsInOrder s' -> chipsInPlay s' = chipsInPlay s ->
                             totalStacks s' <= chipsInPlay s).
  { intros s' [_ [Hpot _]] Heq. pose proof (getTotalPot_nonneg _ Hpot).
    unfold chipsInPlay in *. lia. }
  destruct action; cbn [dispatch fst snd].
  - now apply totalStacks_handlePlayerFold.
  - rewrite handlePlayerCheck_unchanged. now apply Hfrom.
  - apply Hfrom; [now apply chipsInOrder_handlePlayerCall |].
    apply handlePlayerCall_chipsInPlay.
  - apply Hfrom; [now apply chipsInOrder_handlePlayerRaise |].
    apply handlePlayerRaise_chipsInPlay.
  - apply Hfrom; [now apply chipsInOrder_handlePlayerAllIn |].
    apply handlePlayerAllIn_chipsInPlay.
Qed.

(** An action on a table with its chips in order creates no chips, and
    leaves the chips in order if it leaves the table in a betting round. *)
Lemma handlePlayerAction_creates_no_chips (id : string) (action : ActionType)
      (amount : option Z) (s s' : TableInstance.t) (ok : bool) (evs : list Event) :
  chipsInOrder s ->
  handlePlayerAction id action amount s = Some (ok, s', evs) ->
  totalStacks s' <= chipsInPlay s
  /\ (isInBettingRound s' = true -> chipsInOrder s').
Proof.
  intros Hs.
  assert (Hsame : totalStacks s <= chipsInPlay s).
  { destruct Hs as [_ [Hpot _]]. pose proof (getTotalPot_nonneg _ Hpot).
    unfold chipsInPlay. lia. }
  unfold handlePlayerAction.
  destruct (getCurrentPlayer s) as [cp|]; [| now intros [= _ <- _]].
  destruct (negb _); [now intros [= _ <- _] |].
  destruct (hasFolded cp || isAllIn cp); [now intros [= _ <- _] |].
  destruct (negb (isInBettingRound s)); [now intros [= _ <- _] |].
  pose proof (chipsInOrder_dispatch id action amount s Hs) as H1.
  pose proof (totalStacks_dispatch id action amount s Hs) as Ht1.
  pose proof (dispatch_chipsInPlay id action amount s) as Hd.
  destruct (dispatch id action amount s) as [[success s1] evs1].
  cbn [fst snd] in H1, Ht1, Hd.
  destruct success; cbn [negb]; [| now intros [= _ <- _]].
  set (s3 := incrementSequenceId
               (mutatePlayer (currentPlayerIndex s) (setHasActed true) s1)).
  assert (H3 : chipsInOrder s3).
  { destruct H1 as [Hc [Hp Hb]].
    split; [| split; [exact Hp |]]; unfold s3; table_simpl;
      apply Forall_updateAt; try assumption; intros x _ Hx; exact Hx. }
  assert (Ht3 : totalStacks s3 = totalStacks s1).
  { unfold s3, totalStacks. table_simpl. now rewrite sumZ_updateAt_same_field. }
  assert (Hp3 : potManager s3 = potManager s1) by reflexivity.
  assert (Hg3 : gameState s3 = gameState s1) by reflexivity.
  assert (Hbound3 : totalStacks s3 <= chipsInPlay s) by lia.
  assert (Hle : forall x, chipsInOrder x -> totalStacks x <= chipsInPlay x).
  { intros x [_ [Hpotx _]]. pose proof (getTotalPot_nonneg _ Hpotx).
    unfold chipsInPlay. lia. }
  assert (Hc3 : chipsInPlay s3 = chipsInPlay s1)
    by (unfold chipsInPlay; now rewrite Ht3, Hp3).
  destruct (isBettingRoundComplete s3).
  - destruct (endBettingRound s3) as [[s4 evs2]|] eqn:He; [| discriminate].
    intros [= _ <- _].
    assert (Hleft : gameState s3 <> GameState.PAYOUT_ANIMATION ->
                    chipsInPlay s1 = chipsInPlay s /\ gameState s3 = gameState s).
    { intros Hnot. destruct Hd as [[Hc1 Hg1] | Hpayout]; [now rewrite Hg3 |].
      rewrite Hg3 in Hnot. contradiction. }
    revert He. unfold endBettingRound, dealFlop, dealTurn, dealRiver.
    destruct (gameState s3) eqn:Hg;
      try (intros [= <- _]; split;
           [exact Hbound3
           | unfold isInBettingRound; rewrite Hg; discriminate]).
    + destruct (dealStreet 3 GameState.FLOP s3) as [s5|] eqn:Hd5; [| discriminate].
      intros [= <- _]. destruct Hleft as [Hc1 Hgs]; [discriminate |].
      unfold startBettingRound. cbn [fst].
      assert (Hfin : chipsInOrder
                       (forEachPlayer (setHasActed false)
                          (setCurrentPlayerIndex
                             ((dealerPosition s5 + 1) mod length (players s5))%nat s5))).
      { apply chipsInOrder_clearActed.
        pose proof (chipsInOrder_dealStreet _ _ _ _ Hd5 H3) as [Hc [Hp Hb]].
        split; [exact Hc | split; [exact Hp | exact Hb]]. }
      split; [| intros _; exact Hfin].
      pose proof (Hle _ Hfin) as Hfinle. rewrite clearActed_chipsInPlay in Hfinle.
      pose proof (dealStreet_chipsInPlay _ _ _ _ Hd5) as Hc5.
      unfold chipsInPlay, totalStacks in *. table_simpl. lia.
    + destruct (dealStreet 1 GameState.TURN s3) as [s5|] eqn:Hd5; [| discriminate].
      cbn [option_map]. intros [= <- _]. destruct Hleft as [Hc1 Hgs]; [discriminate |].
      unfold startBettingRound. cbn [fst].
      pose proof (chipsInOrder_clearActed s5 (chipsInOrder_dealStreet _ _ _ _ Hd5 H3))
        as Hfin.
      split; [| intros _; exact Hfin].
      pose proof (Hle _ Hfin) as Hfinle. rewrite clearActed_chipsInPlay in Hfinle.
      pose proof (dealStreet_chipsInPlay _ _ _ _ Hd5) as Hc5. lia.
    + destruct (dealStreet 1 GameState.RIVER s3) as [s5|] eqn:Hd5; [| discriminate].
      cbn [option_map]. intros [= <- _]. destruct Hleft as [Hc1 Hgs]; [discriminate |].
      unfold startBettingRound. cbn [fst].
      pose proof (chipsInOrder_clearActed s5 (chipsInOrder_dealStreet _ _ _ _ Hd5 H3))
        as Hfin.
      split; [| intros _; exact Hfin].
      pose proof (Hle _ Hfin) as Hfinle. rewrite clearActed_chipsInPlay in Hfinle.
      pose proof (dealStreet_chipsInPlay _ _ _ _ Hd5) as Hc5. lia.
    + intros Hshow. destruct Hleft as [Hc1 Hgs]; [discriminate |].
      destruct H3 as [_ [Hpot3 _]].
      destruct (startShowdown_totalStacks s3 s4 evs2 Hpot3 Hshow) as [Hpay Htotal].
      split; [| unfold isInBettingRound; rewrite Hpay; discriminate].
      pose proof (sumZ_filter_split
                    (fun e => includes String.eqb (fst e)
                                       (map steamId (filter stillIn (players s3))))
                    (PotManager.contributions (potManager s3))) as Hsplit.
      pose proof (sumZ_filter_nonneg
                    (fun e => negb (includes String.eqb (fst e)
                                             (map steamId (filter stillIn (players s3)))))
                    (PotManager.contributions (potManager s3)) Hpot3) as Hrest.
      cbv beta in Hsplit. rewrite <- getTotalPot_sum in Hsplit.
      unfold chipsInPlay in *. rewrite Hp3 in *. lia.
  - intros [= _ <- _].
    split.
    + unfold advanceToNextPlayer, totalStacks. table_simpl.
      fold (totalStacks s3). lia.
    + intros _. destruct H3 as [Hc [Hp Hb]].
      split; [exact Hc | split; [exact Hp | exact Hb]].
Qed.

Lemma chipsInOrder_postBlind (blind : Z) (i : nat) (s : TableInstance.t) :
  0 <= blind -> blind <= currentBet s ->
  chipsInOrder s -> chipsInOrder (postBlind blind i s).
Proof.
  intros Hnn Hle [Hchips [Hpot Hbets]]. unfold postBlind.
  destruct (nth_error (players s) i) as [player|] eqn:Hp; [| now split].
  assert (Hpc : 0 <= chips player)
    by (rewrite Forall_forall in Hchips; apply Hchips; eapply nth_error_In; exact Hp).
  split; [| split]; table_simpl.
  - apply Forall_updateAt; [exact Hchips |].
    intros x _ Hx. unfold afterBlind. rewrite chips_allInIfBroke. table_simpl. lia.
  - apply addContribution_nonneg; [exact Hpot | lia].
  - apply Forall_updateAt; [exact Hbets |].
    intros x _ _. unfold afterBlind. rewrite currentBet_allInIfBroke. table_simpl. lia.
Qed.

Lemma dealHoleCards_keeps (P : TablePlayer.t -> Prop) (ps : list TablePlayer.t) :
  (forall p cards, P p -> P (setHoleCards cards p)) ->
  forall d ps' d',
    dealHoleCards ps d = Some (ps', d') -> Forall P ps -> Forall P ps'.
Proof.
  intros HP. induction ps as [|p rest IH]; intros d ps' d'; cbn [dealHoleCards].
  - now intros [= <- _].
  - destruct (isActive p).
    + destruct (Deck.deal 2 d) as [[cards d1]|]; [| discriminate].
      destruct (dealHoleCards rest d1) as [[rest' d2]|] eqn:Hrest; [| discriminate].
      intros [= <- _] Hall. inversion Hall; subst.
      constructor; [now apply HP | now apply (IH _ _ _ Hrest)].
    + destruct (dealHoleCards rest d) as [[rest' d2]|] eqn:Hrest; [| discriminate].
      intros [= <- _] Hall. inversion Hall; subst.
      constructor; [assumption | now apply (IH _ _ _ Hrest)].
Qed.

Lemma chipsInOrder_startHand (shuffled : Deck.t) (s s0 : TableInstance.t)
      (evs : list Event) :
  0 <= smallBlind s <= bigBlind s ->
  Forall (fun p => 0 <= chips p) (players s) ->
  startHand shuffled s = Some (s0, evs) ->
  chipsInOrder s0.
Proof.
  intros Hblinds Hchips. unfold startHand. table_simpl.
  destruct (dealHoleCards _ _) as [[ps d]|] eqn:Hdeal; [| discriminate].
  intros [= <- _]. apply chipsInOrder_clearActed.
  set (s7 := setDeck d (setPlayers ps _)).
  assert (H7 : chipsInOrder s7).
  { split; [| split]; unfold s7; table_simpl.
    - apply (dealHoleCards_keeps (fun p => 0 <= chips p) _
                                 (fun p cards H => H) _ _ _ Hdeal).
      apply Forall_map. eapply Forall_impl; [| exact Hchips]. intros p Hp. exact Hp.
    - constructor.
    - apply (dealHoleCards_keeps (fun p => TablePlayer.currentBet p <= bigBlind s) _
                                 (fun p cards H => H) _ _ _ Hdeal).
      apply Forall_map. eapply Forall_impl; [| exact Hchips]. intros p _. cbn. lia. }
  assert (H8 : chipsInOrder (postBlinds s7)).
  { unfold postBlinds. destruct (Nat.ltb (length (players s7)) 2); [exact H7 |].
    assert (H8' : chipsInOrder (postBlind (bigBlind s7) (bbIndexOf s7)
                                  (postBlind (smallBlind s7) (sbIndexOf s7) s7))).
    { apply chipsInOrder_postBlind.
      - unfold s7. table_simpl. lia.
      - assert (E : forall b i x, currentBet (postBlind b i x) = currentBet x).
        { intros b i x. unfold postBlind. now destruct (nth_error (players x) i). }
        rewrite E. unfold s7. table_simpl. lia.
      - apply chipsInOrder_postBlind; [| | exact H7]; unfold s7; table_simpl; lia. }
    destruct H8' as [Hc [Hp Hb]]. split; [exact Hc | split; [exact Hp | exact Hb]]. }
  destruct H8 as [Hc [Hp Hb]]. split; [exact Hc | split; [exact Hp | exact Hb]].
Qed.

(** X29. A hand creates no chips.  With blinds that are not negative, a
    small blind no larger than the big blind and no negative stack at the
    start, the stacks never add up to more than they did when the hand
    was started: not during the betting, and not after any call of
    [handlePlayerAction], be it rejected, accepted, or the one that ends
    the hand by a fold or a showdown. *)
Theorem hand_creates_no_chips (shuffled : Deck.t) (s s0 s1 s2 : TableInstance.t)
        (evs evs2 : list Event) (id : string) (action : ActionType)
        (amount : option Z) (ok : bool) :
  0 <= smallBlind s <= bigBlind s ->
  Forall (fun p => 0 <= chips p) (players s) ->
  startHand shuffled s = Some (s0, evs) ->
  betting s0 s1 ->
  handlePlayerAction id action amount s1 = Some (ok, s2, evs2) ->
  totalStacks s1 <= totalStacks s /\ totalStacks s2 <= totalStacks s.
Proof.
  intros Hblinds Hchips Hstart Hbet Hact.
  pose proof (chipsInOrder_startHand _ _ _ _ Hblinds Hchips Hstart) as H0.
  assert (H1 : chipsInOrder s1).
  { clear Hact. induction Hbet as [|sa sb id' action' amount' Hbet IH Hout Hin];
      [exact H0 |].
    unfold outcome in Hout.
    destruct (handlePlayerAction id' action' amount' sa) as [[[ok' s'] evs']|] eqn:Ha;
      [| discriminate].
    cbn in Hout. injection Hout as -> ->.
    now apply (handlePlayerAction_creates_no_chips _ _ _ _ _ _ _ IH Ha). }
  assert (Hplay : chipsInPlay s1 = totalStacks s).
  { rewrite <- (startHand_chipsInPlay _ _ _ _ Hstart).
    apply (betting_chipsInPlay _ _ Hbet). }
  destruct (handlePlayerAction_creates_no_chips _ _ _ _ _ _ _ H1 Hact) as [Hle _].
  split; [| lia].
  destruct H1 as [_ [Hpot _]]. pose proof (getTotalPot_nonneg _ Hpot).
  unfold chipsInPlay in Hplay. lia.
Qed.

Lemma hand_creates_no_chips_witness :
  totalStacks Scenes.allInOnRiver <= totalStacks Scenes.shortStackSeated
  /\ totalStacks (Examples.after "p2" CHECK None
                     (Examples.after "p1" CHECK None Scenes.allInOnRiver))
     <= totalStacks Scenes.shortStackSeated.
Proof.
  assert (Hstep : forall sa id action sb,
             betting (Examples.dealt Scenes.shortStackSeated) sa ->
             sb = Examples.after id action None sa ->
             outcome id action None sa = Some (true, sb) ->
             isInBettingRound sb = true ->
             betting (Examples.dealt Scenes.shortStackSeated) sb).
  { intros sa id action sb Hsa -> Hout Hin. now apply (betting_step _ sa _ id action None). }
  apply (hand_creates_no_chips Deck.fresh Scenes.shortStackSeated
           (Examples.dealt Scenes.shortStackSeated) Scenes.allInOnRiver
           (Examples.after "p2" CHECK None
              (Examples.after "p1" CHECK None Scenes.allInOnRiver))
           (Examples.dealtEvents Scenes.shortStackSeated)
           (match handlePlayerAction "p2" CHECK None
                    (Examples.after "p1" CHECK None Scenes.allInOnRiver) with
            | Some (_, _, e) => e
            | None => []
            end)
           "p2" CHECK None true).
  - vm_compute. split; discriminate.
  - vm_compute. repeat constructor; discriminate.
  - vm_compute. reflexivity.
  - unfold Scenes.allInOnRiver.
    repeat (eapply Hstep; [| reflexivity | vm_compute; reflexivity
                            | vm_compute; reflexivity]).
    apply betting_start.
  - vm_compute. reflexivity.
Defined.

End NoChipsCreated.

(** ** TableInstance: check, call and all-in *)

Section CheckCallAllIn.
Import TablePlayer TableInstance.

(** X30. For the player object an identifier stands for: a check is
    accepted exactly when the player's bet is not below the bet to match;
    a call exactly when it is below, and it then moves the difference, or
    the whole stack if that is less, from the stack to the bet and to the
    player's contribution, marking the player all-in when the stack is
    used up; an all-in is accepted exactly when the stack is not empty,
    moves the whole stack, and raises the bet to match only if the
    player's bet now exceeds it.  A rejected call changes nothing. *)
Theorem check_call_and_all_in (id : string) (s : TableInstance.t) (i : nat)
        (player : TablePlayer.t) :
  indexBySteamId id s = Some i ->
  nth_error (players s) i = Some player ->
  let bet := TablePlayer.currentBet player in
  let toCall := Z.min (currentBet s - bet) (chips player) in
  (fst (handlePlayerCheck id s) = true <-> currentBet s <= bet)
  /\ (fst (handlePlayerCall id s) = true <-> bet < currentBet s)
  /\ (fst (handlePlayerAllIn id s) = true <-> chips player <> 0)
  /\ (fst (handlePlayerCall id s) = false -> snd (handlePlayerCall id s) = s)
  /\ (fst (handlePlayerCall id s) = true ->
      nth_error (players (snd (handlePlayerCall id s))) i
      = Some (allInIfBroke
                (TablePlayer.setCurrentBet (bet + toCall)
                   (setChips (chips player - toCall) player)))
      /\ PotManager.getPlayerContribution id (potManager (snd (handlePlayerCall id s)))
         = PotManager.getPlayerContribution id (potManager s) + toCall
      /\ currentBet (snd (handlePlayerCall id s)) = currentBet s)
  /\ (fst (handlePlayerAllIn id s) = true ->
      nth_error (players (snd (handlePlayerAllIn id s))) i
      = Some (setIsAllIn true
                (TablePlayer.setCurrentBet (bet + chips player) (setChips 0 player)))
      /\ PotManager.getPlayerContribution id (potManager (snd (handlePlayerAllIn id s)))
         = PotManager.getPlayerContribution id (potManager s) + chips player
      /\ currentBet (snd (handlePlayerAllIn id s))
         = Z.max (currentBet s) (bet + chips player)).
Proof.
  intros Hi Hp bet toCall.
  pose proof (indexBySteamId_steamId id s i player Hi Hp) as Hid.
  assert (Hcontrib : forall amt,
             PotManager.getPlayerContribution id
               (PotManager.addContribution (steamId player) amt (potManager s))
             = PotManager.getPlayerContribution id (potManager s) + amt).
  { intros amt. rewrite Hid.
    unfold PotManager.getPlayerContribution, PotManager.addContribution.
    cbn [PotManager.contributions].
    now rewrite getOrZero_mapSet, String.eqb_refl. }
  split; [| split; [| split; [| split; [| split]]]].
  - unfold handlePlayerCheck. rewrite (getPlayerBySteamId_nth id s i Hi), Hp.
    fold bet. destruct (Z.ltb_spec bet (currentBet s)) as [Hlt | Hge]; cbn [fst];
      split; intros H; try discriminate H; try reflexivity; lia.
  - unfold handlePlayerCall. rewrite Hi, (getPlayerBySteamId_nth id s i Hi), Hp.
    fold bet. destruct (Z.leb_spec (currentBet s - bet) 0) as [Hle | Hgt]; cbn [fst];
      split; intros H; try discriminate H; try reflexivity; lia.
  - unfold handlePlayerAllIn. rewrite Hi, (getPlayerBySteamId_nth id s i Hi), Hp.
    destruct (Z.eqb_spec (chips player) 0) as [E | E].
    + cbn [fst]. split; [discriminate | intros H; contradiction].
    + destruct (_ >? _); cbn [fst]; split; intros _; [exact E | reflexivity
                                                     | exact E | reflexivity].
  - unfold handlePlayerCall. rewrite Hi, (getPlayerBySteamId_nth id s i Hi), Hp.
    destruct (_ <=? 0); cbn [fst snd]; [reflexivity | discriminate].
  - unfold handlePlayerCall. rewrite Hi, (getPlayerBySteamId_nth id s i Hi), Hp.
    fold bet. destruct (_ <=? 0); cbn [fst snd]; [discriminate |]. intros _.
    fold toCall. table_simpl. split; [| split; [apply Hcontrib | reflexivity]].
    apply nth_error_updateAt_same.
    now rewrite (nth_error_updateAt_same _ _ _ _ Hp).
  - unfold handlePlayerAllIn. rewrite Hi, (getPlayerBySteamId_nth id s i Hi), Hp.
    fold bet. destruct (chips player =? 0); cbn [fst]; [discriminate |]. intros _.
    set (paid := fun p => setIsAllIn true
                            (TablePlayer.setCurrentBet
                               (TablePlayer.currentBet p + chips player)
                               (setChips 0 p))).
    assert (Hafter : nth_error (updateAt i paid (players s)) i = Some (paid player))
      by now apply nth_error_updateAt_same.
    table_simpl.
    destruct (Z.gtb_spec (bet + chips player) (currentBet s)) as [Hraise | Hkeep];
      cbn [snd]; unfold reopenAction; table_simpl.
    + split; [| split; [apply Hcontrib | lia]].
      rewrite nth_error_map. fold paid. rewrite Hafter. cbn [option_map].
      f_equal. replace (steamId (paid player)) with id by (symmetry; exact Hid).
      now rewrite String.eqb_refl.
    + split; [exact Hafter | split; [apply Hcontrib | lia]].
Qed.

Lemma check_call_and_all_in_witness :
  let player := TablePlayer.mk "p1" "Ann" 0 1000
                  [Examples.card Card.R2 Card.SH; Examples.card Card.R3 Card.SH]
                  0 false false false false None None in
  let s := Examples.threeHanded in
  let bet := TablePlayer.currentBet player in
  let toCall := Z.min (currentBet s - bet) (chips player) in
  (fst (handlePlayerCheck "p1" s) = true <-> currentBet s <= bet)
  /\ (fst (handlePlayerCall "p1" s) = true <-> bet < currentBet s)
  /\ (fst (handlePlayerAllIn "p1" s) = true <-> chips player <> 0)
  /\ (fst (handlePlayerCall "p1" s) = false -> snd (handlePlayerCall "p1" s) = s)
  /\ (fst (handlePlayerCall "p1" s) = true ->
      nth_error (players (snd (handlePlayerCall "p1" s))) 0
      = Some (allInIfBroke
                (TablePlayer.setCurrentBet (bet + toCall)
                   (setChips (chips player - toCall) player)))
      /\ PotManager.getPlayerContribution "p1" (potManager (snd (handlePlayerCall "p1" s)))
         = PotManager.getPlayerContribution "p1" (potManager s) + toCall
      /\ currentBet (snd (handlePlayerCall "p1" s)) = currentBet s)
  /\ (fst (handlePlayerAllIn "p1" s) = true ->
      nth_error (players (snd (handlePlayerAllIn "p1" s))) 0
      = Some (setIsAllIn true
                (TablePlayer.setCurrentBet (bet + chips player) (setChips 0 player)))
      /\ PotManager.getPlayerContribution "p1"
           (potManager (snd (handlePlayerAllIn "p1" s)))
         = PotManager.getPlayerContribution "p1" (potManager s) + chips player
      /\ currentBet (snd (handlePlayerAllIn "p1" s))
         = Z.max (currentBet s) (bet + chips player)).
Proof.
  apply (check_call_and_all_in "p1" Examples.threeHanded 0
           (TablePlayer.mk "p1" "Ann" 0 1000
              [Examples.card Card.R2 Card.SH; Examples.card Card.R3 Card.SH]
              0 false false false false None None)).
  - vm_compute. reflexivity.
  - vm_compute. reflexivity.
Defined.

End CheckCallAllIn.
